(** * Page Capture to Click: the capture-and-stitch pipeline of content.js

    A shallow embedding of the content script: scroll-context
    resolution, occlusion suppression, the capture sequencer, the two
    stitchers and the session controller, followed by the properties
    of the design document that the code is checked against.

    Conventions.  A JavaScript number is represented by the rational
    ([Q]) it denotes.  Addition, subtraction and multiplication round
    their exact result to the 53 significant bits of a binary64, ties
    to even ([Js.add], [Js.sub], [Js.mul]); the exponent range is not
    bounded, so neither underflow nor the overflow to infinity is
    represented.  Comparisons, [Math.ceil] ([Qceiling]) and
    [Math.round] ([fun x => Qfloor (x + 1/2)], halves round up) are
    exact, as they are on doubles.  DOM quantities that the platform
    reports as integers (scrollHeight, clientHeight, image and canvas
    sizes) and the results of [Math.ceil] and [Math.round] are [Z];
    sums, differences and products of these integers are exact, as
    they are on doubles up to 2^53.  The page's elements are stored in
    document order in a list; an element is referred to by its
    position in that list. *)

From Stdlib Require Import ZArith QArith Qround Lia Lqa.
From Stdlib Require PrimFloat FloatOps SpecFloat Uint63.
From stdpp Require Import base option list strings pretty.

Local Open Scope Z_scope.

(** ** Numbers *)

Module Js.

(** The quotient [n / d] ([0 < d]) rounded to the nearest integer, a
    tie to the even one. *)
Definition divNearestEven (n d : Z) : Z :=
  let q := n / d in
  match 2 * (n mod d) ?= d with
  | Lt => q
  | Gt => q + 1
  | Eq => if Z.even q then q else q + 1
  end.

(** [floor (log2 (n / d))] for [0 < n] and [0 < d]. *)
Definition ilog2 (n d : Z) : Z :=
  let k := Z.log2 n - Z.log2 d in
  if 0 <=? k
  then (if d * 2 ^ k <=? n then k else k - 1)
  else (if d <=? n * 2 ^ (- k) then k else k - 1).

(** Rounding to binary64 precision: [x] lies between [2 ^ (e + 52)] and
    [2 ^ (e + 53)] in magnitude and is rounded to the nearest multiple
    of [2 ^ e], a tie to the one with an even significand. *)
Definition round64 (x : Q) : Q :=
  let n := Qnum (Qred x) in
  let d := Zpos (Qden (Qred x)) in
  match n with
  | 0 => 0%Q
  | _ =>
      let e := ilog2 (Z.abs n) d - 52 in
      if 0 <=? e
      then inject_Z (divNearestEven n (d * 2 ^ e) * 2 ^ e)
      else Qred (Qmake (divNearestEven (n * 2 ^ (- e)) d) (Z.to_pos (2 ^ (- e))))
  end.

(** [x + y], [x - y] and [x * y] on numbers. *)
Definition add (x y : Q) : Q := round64 (x + y).
Definition sub (x y : Q) : Q := round64 (x - y).
Definition mul (x y : Q) : Q := round64 (x * y).

(** The number a decimal literal denotes. *)
Definition num (literal : Q) : Q := round64 literal.

Definition ceil (x : Q) : Z := Qceiling x.

Definition round (x : Q) : Z := Qfloor (x + (1 # 2)).

(** [x < y] on numbers, as a boolean. *)
Definition ltb (x y : Q) : bool := negb (Qle_bool y x).

(** [x <= y] on numbers, as a boolean. *)
Definition leb (x y : Q) : bool := Qle_bool x y.

(** Truthiness of a string: only the empty string is falsy. *)
Definition truthy (s : string) : bool :=
  match s with
  | EmptyString => false
  | String _ _ => true
  end.

End Js.

(** ** The binary64 numbers of the machine

    Rocq's primitive floats are the machine's binary64 numbers; they
    serve to check the rounding of [Js.add], [Js.sub] and [Js.mul] on
    samples. *)
Module Binary64.

(** The rational a finite float denotes. *)
Definition toQ (f : PrimFloat.float) : option Q :=
  match FloatOps.Prim2SF f with
  | SpecFloat.S754_zero _ => Some 0%Q
  | SpecFloat.S754_finite s m e =>
      let v := if 0 <=? e then inject_Z (Zpos m * 2 ^ e)
               else Qred (Qmake (Zpos m) (Z.to_pos (2 ^ (- e)))) in
      Some (if s then Qred (- v) else v)
  | _ => None
  end.

Definition ofZ (n : Z) : PrimFloat.float :=
  if n <? 0 then PrimFloat.opp (PrimFloat.of_uint63 (Uint63.of_Z (- n)))
  else PrimFloat.of_uint63 (Uint63.of_Z n).

(** The float a decimal literal [n / d] is read as, for [n] and [d]
    that are floats themselves: their quotient is rounded once. *)
Definition decimal (n d : Z) : PrimFloat.float := PrimFloat.div (ofZ n) (ofZ d).

(** An operation of the machine and one of [Js] give the same number
    at [a] and [b]. *)
Definition agrees (op : PrimFloat.float -> PrimFloat.float -> PrimFloat.float)
    (jop : Q -> Q -> Q) (a b : PrimFloat.float) : bool :=
  match toQ a, toQ b, toQ (op a b) with
  | Some x, Some y, Some z => Qeq_bool (jop x y) z
  | _, _, _ => false
  end.

Definition samples : list (PrimFloat.float * PrimFloat.float) :=
  [ (decimal 1 10, decimal 2 10); (decimal 6002 10, decimal 6002 10);
    (decimal 48016 10, decimal 6002 10); (decimal 10 1, decimal 9 10);
    (decimal (-19505) 10, decimal 10025 100);
    (decimal 10000000000000000 1, decimal 1 1);
    (decimal 3 10, decimal (-1) 10); (decimal 123456789123 1000, decimal 33 100000000);
    (decimal 25 10, decimal 35 10); (decimal 9007199254740992 1, decimal 1 1);
    (decimal 9007199254740992 1, decimal 3 1);
    (decimal 1 3, decimal 1 7); (decimal 2050 1, decimal 125 100) ].

(** The values [y] takes in [n] rounds of [y += s]. *)
Fixpoint accumulate (n : nat) (y s : PrimFloat.float) : list PrimFloat.float :=
  match n with
  | O => []
  | S n' => y :: accumulate n' (PrimFloat.add y s) s
  end.

End Binary64.

(** ** CaptureSequencer: the list of scroll positions (performCapture, lines 206-217) *)

(** The loop [while (y < targetY) { push(y); y += scrollStep }].  An
    array holds a bounded number of elements (2^32 - 1 by the language
    definition, fewer in practice); [room] is the number of elements
    the array can still take, and [None] is the
    [RangeError: Invalid array length] of a [push] on a full array. *)
Fixpoint positionsLoop (room : nat) (y targetY scrollStep : Q) : option (list Q) :=
  if Js.ltb y targetY
  then
    match room with
    | O => None
    | S room' => cons y <$> positionsLoop room' (Js.add y scrollStep) targetY scrollStep
    end
  else Some [].

(** The loop followed by the guard [if (scrollPositions.length === 0) push(0)];
    [arrayLimit] is the number of elements an array can hold. *)
Definition scrollPositions (arrayLimit : nat) (targetY scrollStep : Q) : option (list Q) :=
  match positionsLoop arrayLimit 0%Q targetY scrollStep with
  | None => None
  | Some ps =>
      if (length ps =? 0)%nat
      then (if (arrayLimit =? 0)%nat then None else Some [0%Q])
      else Some ps
  end.

(** The value of [y] after [i] rounds of [y += scrollStep], starting
    from 0. *)
Definition accumulated (scrollStep : Q) (i : nat) : Q :=
  Nat.iter i (fun y => Js.add y scrollStep) 0%Q.

(** ** The page: elements, layout and inline style *)

(** [getBoundingClientRect()]. *)
Module Rect.
Record t := mk { top : Q; bottom : Q; width : Q; height : Q }.
End Rect.

(** One declaration of an inline style: its value and whether it
    carries the [important] priority. *)
Record Declaration := mkDecl { value : string; important : bool }.

(** An element.  [overflowY] and [position] are the computed style
    ([getComputedStyle(el)]); [visibility] is the inline declaration
    [el.style] holds for the [visibility] property, if any.
    [parentElement] and [children] hold element handles. *)
Module El.
Record t := mk {
  id : string;
  nodeType : Z;
  overflowY : string;
  position : string;
  scrollHeight : Z;
  clientHeight : Z;
  clientWidth : Z;
  rect : Rect.t;
  visibility : option Declaration;
  parentElement : option nat;
  children : list nat
}.

(** [el.style.visibility] read: the value without its priority, the
    empty string when the property is not set. *)
Definition styleVisibility (e : t) : string :=
  match visibility e with
  | Some d => value d
  | None => EmptyString
  end.

Definition withVisibility (v : option Declaration) (e : t) : t :=
  mk (id e) (nodeType e) (overflowY e) (position e) (scrollHeight e)
     (clientHeight e) (clientWidth e) (rect e) v (parentElement e) (children e).

(** [el.style.setProperty('visibility', v, 'important')]. *)
Definition setPropertyImportant (v : string) (e : t) : t :=
  withVisibility (Some (mkDecl v true)) e.

(** [el.style.visibility = v] for a non-empty [v]: the declaration is
    replaced by one without priority. *)
Definition assignVisibility (v : string) (e : t) : t :=
  withVisibility (Some (mkDecl v false)) e.

(** [el.style.removeProperty('visibility')]. *)
Definition removeVisibility (e : t) : t := withVisibility None e.

(** [el.id && el.id.startsWith('hvppy-')]. *)
Definition isOwn (e : t) : bool :=
  Js.truthy (id e) && String.prefix "hvppy-" (id e).
End El.

(** The elements of the document in document order; the handle of an
    element is its position.  A handle that does not resolve stands for
    a null reference. *)
Definition Dom := list El.t.

Record Page := mkPage {
  nodes : Dom;
  documentElement : nat;
  body : nat;
  innerHeight : Q;
  innerWidth : Q;
  devicePixelRatio : Q;
  title : string
}.

Definition withNodes (d : Dom) (p : Page) : Page :=
  mkPage d (documentElement p) (body p) (innerHeight p) (innerWidth p)
         (devicePixelRatio p) (title p).

(** ** ScrollContextResolver *)

(** [isDocumentScrollable] (lines 26-39).  [None] is the TypeError of
    reading the style of a missing root or body. *)
Definition isDocumentScrollable (p : Page) : option bool :=
  docEl ← nodes p !! documentElement p;
  bodyEl ← nodes p !! body p;
  if String.eqb (El.overflowY docEl) "hidden" && String.eqb (El.overflowY bodyEl) "hidden"
  then Some false
  else Some (Js.ltb (innerHeight p + 50) (inject_Z (El.scrollHeight docEl))).

(** The candidate test of [findScrollContainer] (lines 64-66). *)
Definition qualifies (e : El.t) : bool :=
  (String.eqb (El.overflowY e) "auto" || String.eqb (El.overflowY e) "scroll"
   || String.eqb (El.overflowY e) "overlay")
  && (El.clientHeight e + 10 <? El.scrollHeight e)
  && (100 <? El.clientHeight e).

Definition area (e : El.t) : Z := El.clientHeight e * El.clientWidth e.

(** The inner loop that enqueues children while the queue holds fewer
    than 4000 entries (lines 75-77). *)
Fixpoint enqueue (queue : list nat) (cs : list nat) : list nat :=
  match cs with
  | [] => queue
  | c :: cs' =>
      if (length queue <? 4000)%nat then enqueue (queue ++ [c]) cs' else queue
  end.

(** The breadth-first loop (lines 53-78).  [budget] is [2000 - count]. *)
Fixpoint bfsLoop (budget : nat) (d : Dom) (queue : list nat)
    (best : option nat) (maxArea : Z) : option nat :=
  match budget, queue with
  | O, _ => best
  | _, [] => best
  | S budget', h :: queue' =>
      match d !! h with
      | None => bfsLoop budget' d queue' best maxArea
      | Some el =>
          if negb (El.nodeType el =? 1) then bfsLoop budget' d queue' best maxArea
          else if El.isOwn el then bfsLoop budget' d queue' best maxArea
          else
            let better := qualifies el && (maxArea <? area el) in
            bfsLoop budget' d (enqueue queue' (El.children el))
                    (if better then Some h else best)
                    (if better then area el else maxArea)
      end
  end.

(** [findScrollContainer] (lines 41-81): [Some None] is the [null]
    result, [None] a TypeError. *)
Definition findScrollContainer (p : Page) : option (option nat) :=
  scrollable ← isDocumentScrollable p;
  if (scrollable : bool) then Some None
  else
    bodyEl ← nodes p !! body p;
    Some (bfsLoop 2000 (nodes p) (El.children bodyEl) None 0).

Inductive ContextType := window | container.

(** The scroll context (lines 84-110).  The three closures of the
    source are the functions [getScrollTop], [setScroll] and
    [getTargetY] of the controller, which take the context as an
    argument; the rectangle top the [getTargetY] closure captured is
    [containerTop]. *)
Record ScrollContext := mkCtx {
  type : ContextType;
  element : option nat;
  containerTop : Q;
  scrollStep : Q
}.

Definition createScrollContext (p : Page) : option ScrollContext :=
  found ← findScrollContainer p;
  match found with
  | Some c =>
      match nodes p !! c with
      | Some el =>
          Some (mkCtx container (Some c) (Rect.top (El.rect el)) (Rect.height (El.rect el)))
      | None => None
      end
  | None => Some (mkCtx window None 0%Q (innerHeight p))
  end.

(** ** OcclusionSuppressor *)

(** What [hideOverlayElements] remembers of an element it hides:
    [{ el, prev: el.style.visibility }]. *)
Record OcclusionRecord := mkRecord { el : nat; prev : string }.

Definition isFixedOrSticky (e : El.t) : bool :=
  String.eqb (El.position e) "fixed" || String.eqb (El.position e) "sticky".

(** First pass (lines 381-390) over [document.querySelectorAll('*')]. *)
Fixpoint hideFixed (all : list nat) (hidden : list OcclusionRecord) (d : Dom)
    : list OcclusionRecord * Dom :=
  match all with
  | [] => (hidden, d)
  | i :: rest =>
      match d !! i with
      | None => hideFixed rest hidden d
      | Some e =>
          if El.isOwn e then hideFixed rest hidden d
          else if isFixedOrSticky e
          then hideFixed rest (hidden ++ [mkRecord i (El.styleVisibility e)])
                         (<[i := El.setPropertyImportant "hidden" e]> d)
          else hideFixed rest hidden d
      end
  end.

(** The overlap test of lines 412-414. *)
Definition overlaps (sibRect containerRect : Rect.t) : bool :=
  Js.ltb (Rect.top containerRect) (Rect.bottom sibRect)
  && Js.ltb (Rect.top sibRect) (Rect.bottom containerRect)
  && Js.ltb 0 (Rect.width sibRect)
  && Js.ltb 0 (Rect.height sibRect).

(** [hidden.some(h => h.el === sibling)]. *)
Definition alreadyHidden (hidden : list OcclusionRecord) (sibling : nat) : bool :=
  existsb (fun h => (el h =? sibling)%nat) hidden.

(** The loop over [parent.children] (lines 404-418). *)
Fixpoint hideSiblings (siblings : list nat) (current : nat) (containerRect : Rect.t)
    (hidden : list OcclusionRecord) (d : Dom) : list OcclusionRecord * Dom :=
  match siblings with
  | [] => (hidden, d)
  | sibling :: rest =>
      if (sibling =? current)%nat then hideSiblings rest current containerRect hidden d
      else
        match d !! sibling with
        | None => hideSiblings rest current containerRect hidden d
        | Some e =>
            if El.isOwn e then hideSiblings rest current containerRect hidden d
            else if alreadyHidden hidden sibling
            then hideSiblings rest current containerRect hidden d
            else if overlaps (El.rect e) containerRect
            then hideSiblings rest current containerRect
                   (hidden ++ [mkRecord sibling (El.styleVisibility e)])
                   (<[sibling := El.setPropertyImportant "hidden" e]> d)
            else hideSiblings rest current containerRect hidden d
        end
  end.

(** [current.parentElement]. *)
Definition parentOf (d : Dom) (current : nat) : option nat :=
  e ← d !! current;
  El.parentElement e.

(** The walk from the container towards the root (lines 399-421); one
    unit of [fuel] per evaluation of the loop condition. *)
Fixpoint walkUp (fuel : nat) (root current : nat) (containerRect : Rect.t)
    (hidden : list OcclusionRecord) (d : Dom) : list OcclusionRecord * Dom :=
  match fuel with
  | O => (hidden, d)
  | S fuel' =>
      if (current =? root)%nat then (hidden, d)
      else
        match parentOf d current with
        | None => (hidden, d)
        | Some parent =>
            match d !! parent with
            | None => (hidden, d)
            | Some pe =>
                let '(hidden', d') :=
                  hideSiblings (El.children pe) current containerRect hidden d in
                walkUp fuel' root parent containerRect hidden' d'
            end
        end
  end.

(** The same loop as a relation between the state it is entered with
    and the state it is left with, with no bound on the number of
    iterations: the loop is left at the root and at an element without
    a parent; an iteration hides the siblings and moves to the parent. *)
Inductive walk (root : nat) (containerRect : Rect.t)
    : nat -> list OcclusionRecord -> Dom -> list OcclusionRecord * Dom -> Prop :=
| walk_root (hidden : list OcclusionRecord) (d : Dom) :
    walk root containerRect root hidden d (hidden, d)
| walk_top (current : nat) (hidden : list OcclusionRecord) (d : Dom) :
    current <> root ->
    parentOf d current = None ->
    walk root containerRect current hidden d (hidden, d)
| walk_step (current parent : nat) (pe : El.t) (hidden hidden' : list OcclusionRecord)
    (d d' : Dom) (result : list OcclusionRecord * Dom) :
    current <> root ->
    parentOf d current = Some parent ->
    d !! parent = Some pe ->
    hideSiblings (El.children pe) current containerRect hidden d = (hidden', d') ->
    walk root containerRect parent hidden' d' result ->
    walk root containerRect current hidden d result.

(** Handles follow document order: an element comes after its parent. *)
Definition documentOrder (d : Dom) : Prop :=
  forall (i : nat) (e : El.t) (parent : nat),
    d !! i = Some e -> El.parentElement e = Some parent -> (parent < i)%nat.

(** [hideOverlayElements] (lines 376-425).  In a document an element
    comes after its parent, so the walk from the element with handle
    [c] takes at most [c] steps. *)
Definition hideOverlayElements (ctx : ScrollContext) (p : Page)
    : list OcclusionRecord * Dom :=
  let '(hidden, d) := hideFixed (seq 0 (length (nodes p))) [] (nodes p) in
  match element ctx with
  | None => (hidden, d)
  | Some c =>
      match d !! c with
      | None => (hidden, d)
      | Some containerEl =>
          walkUp (S c) (documentElement p) c (El.rect containerEl) hidden d
      end
  end.

(** [restoreHiddenElements] (lines 427-435). *)
Definition restoreOne (h : OcclusionRecord) (d : Dom) : Dom :=
  alter (fun e => if Js.truthy (prev h)
                  then El.assignVisibility (prev h) e
                  else El.removeVisibility e) (el h) d.

Fixpoint restoreHiddenElements (hidden : list OcclusionRecord) (d : Dom) : Dom :=
  match hidden with
  | [] => d
  | h :: rest => restoreHiddenElements rest (restoreOne h d)
  end.

(** ** Results of calls that may throw *)

Inductive Outcome (A : Type) : Type :=
| Returned (a : A)
| Thrown (message : string).
Arguments Returned {A} a.
Arguments Thrown {A} message.

(** ** ImageStitcher *)

Module Img.
Record t := mk { src : string; width : Z; height : Z }.
End Img.

(** The calls made on a canvas 2D context.  [FillRect] carries the
    [fillStyle] in force; [DrawImage] has the nine arguments of
    [ctx.drawImage(img, sx, sy, sw, sh, dx, dy, dw, dh)]. *)
Inductive CanvasOp :=
| FillRect (fillStyle : string) (x y w h : Z)
| DrawImage (img : Img.t) (sx sy sw sh dx dy dw dh : Z).

Module Canvas.
Record t := mk { width : Z; height : Z; ops : list CanvasOp }.

(** An assignment to [canvas.width] or [canvas.height].  The value is
    converted to an unsigned 32-bit integer; one above 2^31 - 1, which
    is what a negative number becomes, is replaced by the default of
    the attribute ([fallback]: 300 for the width, 150 for the height). *)
Definition dimension (fallback v : Z) : Z :=
  let u := v mod 4294967296 in
  if u <=? 2147483647 then u else fallback.
End Canvas.

(** A data URL: one received as a string, or [canvas.toDataURL('image/png')]. *)
Inductive DataUrl :=
| Url (s : string)
| PngOf (c : Canvas.t).

(** A collected frame [{ dataUrl, scrollY }]; [dataUrl] is [None] when
    the response had no such property. *)
Record Capture := mkCapture { dataUrl : option string; scrollY : Q }.

Section Stitcher.

(** The image decoder behind [new Image()]: [None] fires [onerror]. *)
Variable decode : string -> option Img.t.

(** Whether the browser can hold a canvas bitmap of the given width
    and height. *)
Variable fits : Z -> Z -> bool.

(** [canvas.toDataURL('image/png')]: a canvas without pixels, or one
    the browser cannot hold, gives the string "data:,". *)
Definition toDataURL (c : Canvas.t) : DataUrl :=
  if (Canvas.width c =? 0) || (Canvas.height c =? 0)
     || negb (fits (Canvas.width c) (Canvas.height c))
  then Url "data:,"
  else PngOf c.

(** [loadImage] (lines 439-446); an undefined [src] is assigned as the
    string "undefined". *)
Definition loadImage (src : option string) : Outcome Img.t :=
  match decode (default "undefined" src) with
  | Some img => Returned img
  | None => Thrown "Failed to load captured image"
  end.

(** The loop of [stitchWindowScroll] (lines 305-318). *)
Fixpoint drawCaptures (captures : list Capture) (canvasHeight : Z) (dpr : Q)
    (ops : list CanvasOp) : Outcome (list CanvasOp) :=
  match captures with
  | [] => Returned ops
  | capture :: rest =>
      match loadImage (dataUrl capture) with
      | Returned img =>
          let drawY := Js.round (Js.mul (scrollY capture) dpr) in
          let availableHeight := canvasHeight - drawY in
          let drawHeight := Z.min (Img.height img) availableHeight in
          drawCaptures rest canvasHeight dpr
            (if 0 <? drawHeight
             then ops ++ [DrawImage img 0 0 (Img.width img) drawHeight
                                    0 drawY (Img.width img) drawHeight]
             else ops)
      | Thrown m => Thrown m
      end
  end.

(** [stitchWindowScroll] (lines 293-321). *)
Definition stitchWindowScroll (captures : list Capture) (targetY viewportWidth dpr : Q)
    : Outcome DataUrl :=
  let canvasHeight := Js.ceil (Js.mul targetY dpr) in
  let canvasWidth := Js.ceil (Js.mul viewportWidth dpr) in
  match drawCaptures captures canvasHeight dpr
          [FillRect "#ffffff" 0 0 canvasWidth canvasHeight] with
  | Returned ops =>
      Returned (toDataURL (Canvas.mk (Canvas.dimension 300 canvasWidth)
                                     (Canvas.dimension 150 canvasHeight) ops))
  | Thrown m => Thrown m
  end.

(** The first loop of [stitchContainerScroll] (lines 326-329). *)
Fixpoint loadImages (captures : list Capture) : Outcome (list Img.t) :=
  match captures with
  | [] => Returned []
  | capture :: rest =>
      match loadImage (dataUrl capture) with
      | Returned img =>
          match loadImages rest with
          | Returned imgs => Returned (img :: imgs)
          | Thrown m => Thrown m
          end
      | Thrown m => Thrown m
      end
  end.

(** The drawing loop of [stitchContainerScroll] (lines 352-363);
    [i] is the index of the head of [images], [n] is [images.length]. *)
Fixpoint drawStack (images : list Img.t) (i n : nat) (imgHeight lastCropHeight : Z)
    : list CanvasOp :=
  match images with
  | [] => []
  | img :: rest =>
      let destY := Z.of_nat i * imgHeight in
      (if (i <? n - 1)%nat
       then DrawImage img 0 0 (Img.width img) (Img.height img)
                      0 destY (Img.width img) (Img.height img)
       else DrawImage img 0 0 (Img.width img) lastCropHeight
                      0 destY (Img.width img) lastCropHeight)
      :: drawStack rest (S i) n imgHeight lastCropHeight
  end.

(** [stitchContainerScroll] (lines 325-366).  The frame list passes
    the emptiness test on [images], so [captures[captures.length - 1]]
    is defined where it is read; the TypeError covers the other case. *)
Definition stitchContainerScroll (captures : list Capture) (targetY viewportWidth dpr : Q)
    (scrollCtx : ScrollContext) : Outcome DataUrl :=
  match loadImages captures with
  | Returned images =>
      match images with
      | [] => Returned (Url "")
      | first :: _ =>
          let imgHeight := Img.height first in
          match last captures with
          | None => Thrown "TypeError"
          | Some lastCapture =>
              let clickInContainer := Js.sub targetY (scrollY lastCapture) in
              let clickInViewport := Js.add (containerTop scrollCtx) clickInContainer in
              let lastCropHeight :=
                Z.min (Js.ceil (Js.mul clickInViewport dpr)) imgHeight in
              let canvasHeight :=
                (Z.of_nat (length images) - 1) * imgHeight + lastCropHeight in
              let canvasWidth := Img.width first in
              Returned (toDataURL
                (Canvas.mk (Canvas.dimension 300 canvasWidth)
                           (Canvas.dimension 150 canvasHeight)
                   (FillRect "#ffffff" 0 0 canvasWidth canvasHeight
                    :: drawStack images 0 (length images) imgHeight lastCropHeight)))
          end
      end
  | Thrown m => Thrown m
  end.

(** [stitchCaptures] (lines 285-290). *)
Definition stitchCaptures (captures : list Capture) (targetY viewportWidth dpr : Q)
    (scrollCtx : ScrollContext) : Outcome DataUrl :=
  match type scrollCtx with
  | container => stitchContainerScroll captures targetY viewportWidth dpr scrollCtx
  | window => stitchWindowScroll captures targetY viewportWidth dpr
  end.

End Stitcher.

(** ** CaptureController: the session state *)

(** The three elements a session injects, by their [id]:
    [hvppy-capture-bar], [hvppy-guide-line], [hvppy-progress]. *)
Inductive UiKind := CaptureBar | GuideLine | ProgressOverlay.

#[global] Instance UiKind_eq_dec : EqDecision UiKind.
Proof. solve_decision. Defined.

(** An injected element.  [attached] tells whether it is in the
    document; [cancelHandlers] are the sessions whose click handler is
    registered on the cancel button of a bar. *)
Record UiEl := mkUi {
  kind : UiKind;
  attached : bool;
  display : string;
  textContent : string;
  cancelHandlers : list nat
}.

(** The variables one run of the script closes over (lines 16-19). *)
Record Closure := mkClosure {
  guideLineEl : option nat;
  barEl : option nat;
  progressEl : option nat;
  isCapturing : bool
}.

(** [{ action: 'captureTab' }] and [{ action: 'download', dataUrl, pageTitle }]. *)
Inductive Message :=
| captureTab
| download (url : DataUrl) (pageTitle : string).

(** What the service worker answers: nothing, or an object with an
    optional [dataUrl] and an optional [error]. *)
Inductive Response :=
| NoResponse
| Answer (dataUrl : option string) (error : option string).

(** Calls that leave the script, in the order they are made. *)
Inductive Effect :=
| ScrollTo (target : option nat) (y : Q)
| SendMessage (msg : Message)
| StitchCaptures (captures : list Capture)
| ConsoleError (message : string).

Record World := mkWorld {
  page : Page;
  scrollOffset : option nat -> Q;
  hvppyCaptureActive : bool;
  hvppyCaptureDeactivate : option nat;
  closures : list Closure;
  ui : list UiEl;
  listeners : list nat;
  log : list Effect;
  ticks : nat
}.

(** An external event delivered while the pipeline is suspended: a
    click on the extension icon (the script is injected again) or a
    click on the cancel button of a bar. *)
Inductive Arrival :=
| IconClick
| CancelClick (bar : nat).

(** The page click that starts a capture: the two coordinates the
    script reads and whether the target lies inside the bar or the
    progress overlay. *)
Record ClickEvent := mkClick {
  pageY : Q;
  clientY : Q;
  insideBar : bool;
  insideProgress : bool
}.

(** The host environment.  [settle target y] is the offset the
    platform settles at when asked to scroll [target] to [y];
    [captureVisibleTab k] is the answer to the snapshot request made
    after [k] earlier ones; [arrivals t] are the events delivered at
    the [t]-th suspension of the pipeline; [canvasFits width height]
    tells whether the browser can hold a canvas of that size. *)
Record Host := mkHost {
  settle : option nat -> Q -> Q;
  captureVisibleTab : nat -> Response;
  decodeImage : string -> option Img.t;
  arrivals : nat -> list Arrival;
  canvasFits : Z -> Z -> bool
}.

(** State-and-exception monad of the controller. *)
Definition M (A : Type) : Type := World -> Outcome A * World.

Definition ret {A} (a : A) : M A := fun w => (Returned a, w).

Definition bind {A B} (m : M A) (k : A -> M B) : M B :=
  fun w =>
    match m w with
    | (Returned a, w') => k a w'
    | (Thrown e, w') => (Thrown e, w')
    end.

Definition throw {A} (message : string) : M A := fun w => (Thrown message, w).

Definition tryCatch (body : M unit) (handler : string -> M unit) : M unit :=
  fun w =>
    match body w with
    | (Thrown e, w') => handler e w'
    | r => r
    end.

Definition get {A} (f : World -> A) : M A := fun w => (Returned (f w), w).

Definition modify (f : World -> World) : M unit := fun w => (Returned tt, f w).

Declare Scope M_scope.
Delimit Scope M_scope with M.
Notation "x <- m ;; k" := (bind m (fun x => k))
  (at level 62, m at next level, right associativity) : M_scope.
Notation "m >> k" := (bind m (fun _ => k))
  (at level 62, right associativity) : M_scope.
Local Open Scope M_scope.

Definition withPage (p : Page) (w : World) : World :=
  mkWorld p (scrollOffset w) (hvppyCaptureActive w) (hvppyCaptureDeactivate w)
          (closures w) (ui w) (listeners w) (log w) (ticks w).

Definition withScrollOffset (f : option nat -> Q) (w : World) : World :=
  mkWorld (page w) f (hvppyCaptureActive w) (hvppyCaptureDeactivate w)
          (closures w) (ui w) (listeners w) (log w) (ticks w).

Definition withActive (b : bool) (w : World) : World :=
  mkWorld (page w) (scrollOffset w) b (hvppyCaptureDeactivate w)
          (closures w) (ui w) (listeners w) (log w) (ticks w).

Definition withDeactivate (d : option nat) (w : World) : World :=
  mkWorld (page w) (scrollOffset w) (hvppyCaptureActive w) d
          (closures w) (ui w) (listeners w) (log w) (ticks w).

Definition withClosures (cs : list Closure) (w : World) : World :=
  mkWorld (page w) (scrollOffset w) (hvppyCaptureActive w) (hvppyCaptureDeactivate w)
          cs (ui w) (listeners w) (log w) (ticks w).

Definition withUi (u : list UiEl) (w : World) : World :=
  mkWorld (page w) (scrollOffset w) (hvppyCaptureActive w) (hvppyCaptureDeactivate w)
          (closures w) u (listeners w) (log w) (ticks w).

Definition withListeners (ls : list nat) (w : World) : World :=
  mkWorld (page w) (scrollOffset w) (hvppyCaptureActive w) (hvppyCaptureDeactivate w)
          (closures w) (ui w) ls (log w) (ticks w).

Definition withLog (l : list Effect) (w : World) : World :=
  mkWorld (page w) (scrollOffset w) (hvppyCaptureActive w) (hvppyCaptureDeactivate w)
          (closures w) (ui w) (listeners w) l (ticks w).

Definition withTicks (t : nat) (w : World) : World :=
  mkWorld (page w) (scrollOffset w) (hvppyCaptureActive w) (hvppyCaptureDeactivate w)
          (closures w) (ui w) (listeners w) (log w) t.

(** The variables of session [c]; a session that was never created has
    them all unset. *)
Definition closureOf (w : World) (c : nat) : Closure :=
  default (mkClosure None None None false) (closures w !! c).

Definition setClosure (c : nat) (cl : Closure) : M unit :=
  modify (fun w => withClosures (<[c := cl]> (closures w)) w).

Definition emit (e : Effect) : M unit :=
  modify (fun w => withLog (log w ++ [e]) w).

(** [el.remove()]; on a null reference it is a TypeError. *)
Definition remove (h : option nat) : M unit :=
  match h with
  | Some i =>
      modify (fun w =>
        withUi (alter (fun u => mkUi (kind u) false (display u) (textContent u)
                                     (cancelHandlers u)) i (ui w)) w)
  | None => throw "TypeError: Cannot read properties of null (reading 'remove')"
  end.

(** [el.style.display = v]. *)
Definition setDisplay (i : nat) (v : string) : M unit :=
  modify (fun w =>
    withUi (alter (fun u => mkUi (kind u) (attached u) v (textContent u)
                                 (cancelHandlers u)) i (ui w)) w).

(** [el.textContent = text]. *)
Definition setTextContent (i : nat) (text : string) : M unit :=
  modify (fun w =>
    withUi (alter (fun u => mkUi (kind u) (attached u) (display u) text
                                 (cancelHandlers u)) i (ui w)) w).

(** [if (h) body]. *)
Definition whenSome (h : option nat) (body : nat -> M unit) : M unit :=
  match h with
  | Some i => body i
  | None => ret tt
  end.

(** [deactivate] (lines 478-491) of session [c]. *)
Definition deactivate (c : nat) : M unit :=
  modify (fun w => withListeners (filter (fun l => l ≠ c) (listeners w)) w) >>
  bar <- get (fun w => barEl (closureOf w c)) ;;
  whenSome bar (fun _ => remove bar) >>
  guide <- get (fun w => guideLineEl (closureOf w c)) ;;
  whenSome guide (fun _ => remove guide) >>
  progress <- get (fun w => progressEl (closureOf w c)) ;;
  whenSome progress (fun _ => remove progress) >>
  setClosure c (mkClosure None None None false) >>
  modify (withActive false).

(** [document.getElementById('hvppy-cancel-btn')]: the button of the
    first bar that is in the document. *)
Definition findCancelBtn (w : World) : option nat :=
  fst <$> list_find (fun u => kind u = CaptureBar ∧ attached u = true) (ui w).

(** [activate] (lines 114-148) of session [c]: the three elements are
    created and appended to the root, the two document listeners are
    added and the cancel handler is registered on the button found. *)
Definition activate (c : nat) : M unit :=
  n <- get (fun w => length (ui w)) ;;
  modify (fun w => withUi (ui w ++ [mkUi CaptureBar true "" "" []]) w) >>
  modify (fun w => withUi (ui w ++ [mkUi GuideLine true "" "" []]) w) >>
  modify (fun w => withUi (ui w ++ [mkUi ProgressOverlay true "none" "" []]) w) >>
  setClosure c (mkClosure (Some (S n)) (Some n) (Some (S (S n))) false) >>
  modify (fun w => withListeners (listeners w ++ [c]) w) >>
  cancelBtn <- get findCancelBtn ;;
  whenSome cancelBtn (fun b =>
    modify (fun w =>
      withUi (alter (fun u => mkUi (kind u) (attached u) (display u) (textContent u)
                                   (cancelHandlers u ++ [c])) b (ui w)) w)).

(** One run of the script (lines 5-14 and 493-497): the toggle guard,
    then a new session whose variables start unset. *)
Definition inject : M unit :=
  active <- get hvppyCaptureActive ;;
  if (active : bool) then
    exposed <- get hvppyCaptureDeactivate ;;
    whenSome exposed deactivate
  else
    modify (withActive true) >>
    c <- get (fun w => length (closures w)) ;;
    modify (fun w => withClosures (closures w ++ [mkClosure None None None false]) w) >>
    modify (withDeactivate (Some c)) >>
    activate c.

(** The three states of a session, read off the page: the global flag
    and the [isCapturing] variable of the session it exposes. *)
Inductive Phase := inactive | activeAwaitingClick | capturing.

Definition phase (w : World) : Phase :=
  if hvppyCaptureActive w then
    match hvppyCaptureDeactivate w with
    | Some c => if isCapturing (closureOf w c) then capturing else activeAwaitingClick
    | None => activeAwaitingClick
    end
  else inactive.

(** Delivery of an external event.  An exception raised by a handler
    is reported by the host and does not reach the pipeline. *)
Fixpoint runHandlers (cs : list nat) (w : World) : World :=
  match cs with
  | [] => w
  | c :: rest => runHandlers rest (snd (deactivate c w))
  end.

Definition deliver (a : Arrival) (w : World) : World :=
  match a with
  | IconClick => snd (inject w)
  | CancelClick b =>
      match ui w !! b with
      | Some u => if attached u then runHandlers (cancelHandlers u) w else w
      | None => w
      end
  end.

(** Classification of the logged calls. *)
Definition isSnapshot (e : Effect) : bool :=
  match e with
  | SendMessage captureTab => true
  | _ => false
  end.

Definition isDownload (e : Effect) : bool :=
  match e with
  | SendMessage (download _ _) => true
  | _ => false
  end.

Definition isStitch (e : Effect) : bool :=
  match e with
  | StitchCaptures _ => true
  | _ => false
  end.

(** The number of snapshot requests in a log. *)
Definition snapshotCalls (l : list Effect) : nat := length (List.filter isSnapshot l).

Section Controller.

Variable host : Host.

(** A suspension of the pipeline ([await]): the events that arrive
    meanwhile are handled before it resumes. *)
Definition await : M unit :=
  fun w => (Returned tt, foldl (fun w' a => deliver a w') (withTicks (S (ticks w)) w)
                               (arrivals host (ticks w))).

(** [delay(ms)] (lines 454-456). *)
Definition delay (ms : Z) : M unit := await.

(** [waitForPaint()] (lines 458-462). *)
Definition waitForPaint : M unit := await.


(** [sendMessage] (lines 448-452): the message is sent, the pipeline
    suspends, and resumes with the answer.  Only snapshot requests are
    answered by [captureVisibleTab]; the answer to [download] is not
    inspected by the script. *)
Definition sendMessage (msg : Message) : M Response :=
  k <- get (fun w => snapshotCalls (log w)) ;;
  emit (SendMessage msg) >>
  await >>
  ret (match msg with
       | captureTab => captureVisibleTab host k
       | download _ _ => Answer None None
       end).

(** The [getScrollTop], [setScroll] and [getTargetY] closures of the
    scroll context (lines 94-97 and 106-108). *)
Definition getScrollTop (ctx : ScrollContext) : M Q :=
  get (fun w => scrollOffset w (element ctx)).

Definition setScroll (ctx : ScrollContext) (y : Q) : M unit :=
  emit (ScrollTo (element ctx) y) >>
  modify (fun w =>
    withScrollOffset (fun t => if decide (t = element ctx)
                               then settle host (element ctx) y
                               else scrollOffset w t) w).

Definition getTargetY (ctx : ScrollContext) (e : ClickEvent) : M Q :=
  match type ctx with
  | container =>
      top <- getScrollTop ctx ;;
      ret (Js.add top (Js.sub (clientY e) (containerTop ctx)))
  | window => ret (pageY e)
  end.

(** [hideInteractiveUI] and [showProgress] (lines 466-476) of session [c]. *)
Definition hideInteractiveUI (c : nat) : M unit :=
  bar <- get (fun w => barEl (closureOf w c)) ;;
  whenSome bar (fun i => setDisplay i "none") >>
  guide <- get (fun w => guideLineEl (closureOf w c)) ;;
  whenSome guide (fun i => setDisplay i "none").

Definition showProgress (c : nat) (text : string) : M unit :=
  progress <- get (fun w => progressEl (closureOf w c)) ;;
  whenSome progress (fun i => setTextContent i text >> setDisplay i "block").

(** [if (progressEl) progressEl.style.display = v] (lines 235 and 247). *)
Definition setProgressDisplay (c : nat) (v : string) : M unit :=
  progress <- get (fun w => progressEl (closureOf w c)) ;;
  whenSome progress (fun i => setDisplay i v).

(** The suppressor run on the current page. *)
Definition hideOverlay (ctx : ScrollContext) : M (list OcclusionRecord) :=
  fun w =>
    let '(hidden, d) := hideOverlayElements ctx (page w) in
    (Returned hidden, withPage (withNodes d (page w)) w).

Definition restoreHidden (hidden : list OcclusionRecord) : M unit :=
  modify (fun w =>
    withPage (withNodes (restoreHiddenElements hidden (nodes (page w))) (page w)) w).

(** The body of the capture loop (lines 221-257) from step [i] on;
    [n] is [scrollPositions.length]. *)
Fixpoint captureLoop (c : nat) (ctx : ScrollContext) (positions : list Q) (i n : nat)
    (captures : list Capture) : M (list Capture) :=
  match positions with
  | [] => ret captures
  | scrollTarget :: rest =>
      showProgress c ("Capturing section " +:+ pretty (S i) +:+ " of " +:+ pretty n
                      +:+ "…") >>
      setScroll ctx scrollTarget >>
      waitForPaint >>
      delay 300 >>
      actualScrollY <- getScrollTop ctx ;;
      setProgressDisplay c "none" >>
      hiddenEls <- hideOverlay ctx ;;
      waitForPaint >>
      delay 50 >>
      response <- sendMessage captureTab ;;
      restoreHidden hiddenEls >>
      setProgressDisplay c "block" >>
      match response with
      | NoResponse =>
          throw "TypeError: Cannot read properties of undefined (reading 'dataUrl')"
      | Answer url error =>
          if Js.truthy (default "" error) then throw (default "" error)
          else captureLoop c ctx rest (S i) n (captures ++ [mkCapture url actualScrollY])
      end
  end.

(** [performCapture] (lines 199-275).  The suspensions inside the
    stitcher are represented by the one that follows it: the stitcher
    reads nothing that an arriving event changes. *)
Definition performCapture (arrayLimit : nat) (c : nat) (scrollCtx : ScrollContext)
    (targetY viewportWidth dpr : Q) (pageTitle : string) : M unit :=
  if Js.leb targetY 0 then
    showProgress c "Invalid click position" >>
    delay 1000
  else
    match scrollPositions arrayLimit targetY (scrollStep scrollCtx) with
    | None => throw "Invalid array length"
    | Some positions =>
        captures <- captureLoop c scrollCtx positions 0 (length positions) [] ;;
        showProgress c "Stitching screenshots…" >>
        emit (StitchCaptures captures) >>
        stitched <- (fun w => (stitchCaptures (decodeImage host) (canvasFits host)
                                 captures targetY viewportWidth dpr scrollCtx, w)) ;;
        await >>
        showProgress c "Saving…" >>
        sendMessage (download stitched pageTitle) >>
        showProgress c "Saved! ✓" >>
        delay 1000
    end.

(** [isCapturing = true] (line 171). *)
Definition setCapturing (c : nat) : M unit :=
  cl <- get (fun w => closureOf w c) ;;
  setClosure c (mkClosure (guideLineEl cl) (barEl cl) (progressEl cl) true).

(** [window.devicePixelRatio || 1] (line 176). *)
Definition pixelRatio (p : Page) : Q :=
  if Qeq_bool (devicePixelRatio p) 0 then 1%Q else devicePixelRatio p.

(** The [catch] block of [onClick] (lines 186-190). *)
Definition captureFailed (c : nat) (message : string) : M unit :=
  emit (ConsoleError message) >>
  showProgress c ("Capture failed: " +:+ message) >>
  delay 2000.

(** [onClick] (lines 158-195) of session [c]. *)
Definition onClick (arrayLimit : nat) (c : nat) (e : ClickEvent) : M unit :=
  busy <- get (fun w => isCapturing (closureOf w c)) ;;
  if (busy : bool) then ret tt
  else if insideBar e || insideProgress e then ret tt
  else
    setCapturing c >>
    found <- get (fun w => createScrollContext (page w)) ;;
    match found with
    | None => throw "TypeError"
    | Some scrollCtx =>
        targetY <- getTargetY scrollCtx e ;;
        viewportWidth <- get (fun w => innerWidth (page w)) ;;
        dpr <- get (fun w => pixelRatio (page w)) ;;
        pageTitle <- get (fun w => title (page w)) ;;
        originalScroll <- getScrollTop scrollCtx ;;
        hideInteractiveUI c >>
        showProgress c "Preparing capture…" >>
        tryCatch (performCapture arrayLimit c scrollCtx targetY viewportWidth dpr
                    pageTitle)
                 (captureFailed c) >>
        setScroll scrollCtx originalScroll >>
        deactivate c
    end.

End Controller.

(** ** The stitchers as the design document words them *)

(** A frame decodes to [img]. *)
Definition decodesTo (decode : string -> option Img.t) (c : Capture) (img : Img.t) : Prop :=
  decode (default "undefined" (dataUrl c)) = Some img.

(** Document mode: a frame taken at [offset] is drawn at row
    [round (offset * density)], clipped to what is left of a surface of
    [surfaceHeight] rows; nothing is drawn when nothing is left. *)
Definition documentFrameOp (surfaceHeight : Z) (density : Q) (offset : Q) (img : Img.t)
    : list CanvasOp :=
  let y := Js.round (Js.mul offset density) in
  let h := Z.min (Img.height img) (surfaceHeight - y) in
  if 0 <? h
  then [DrawImage img 0 0 (Img.width img) h 0 y (Img.width img) h]
  else [].

Definition documentDraws (surfaceHeight : Z) (density : Q)
    (frames : list Capture) (images : list Img.t) : list CanvasOp :=
  concat (zip_with (fun c img => documentFrameOp surfaceHeight density (scrollY c) img)
                   frames images).

(** Container mode: every frame but the last is a full slab of
    [frameHeight] rows placed below the previous one; of the last
    frame the leading [lastCropHeight] rows are drawn. *)
Definition containerDraws (frameHeight lastCropHeight : Z)
    (front : list Img.t) (lastImg : Img.t) : list CanvasOp :=
  imap (fun i img => DrawImage img 0 0 (Img.width img) frameHeight
                               0 (Z.of_nat i * frameHeight) (Img.width img) frameHeight)
       front
  ++ [DrawImage lastImg 0 0 (Img.width lastImg) lastCropHeight
                0 (Z.of_nat (length front) * frameHeight)
                (Img.width lastImg) lastCropHeight].

(** ** The traversal order of the container search *)

(** The handles [findScrollContainer] examines as candidates, in the
    order it examines them: the loop of [bfsLoop] without the
    selection. *)
Fixpoint bfsVisited (budget : nat) (d : Dom) (queue : list nat) : list nat :=
  match budget, queue with
  | O, _ => []
  | _, [] => []
  | S budget', h :: queue' =>
      match d !! h with
      | None => bfsVisited budget' d queue'
      | Some el =>
          if negb (El.nodeType el =? 1) then bfsVisited budget' d queue'
          else if El.isOwn el then bfsVisited budget' d queue'
          else h :: bfsVisited budget' d (enqueue queue' (El.children el))
      end
  end.

(** ** Assertions about runs of the controller *)

(** Two worlds with the same log of calls and the same scroll offsets. *)
Definition same (w w' : World) : Prop :=
  log w' = log w /\ scrollOffset w' = scrollOffset w.

(** A computation that always returns and leaves log and offsets alone. *)
Definition quiet {A} (m : M A) : Prop :=
  forall w, exists a w', m w = (Returned a, w') /\ same w w'.

(** An assertion that only looks at the log and the scroll offsets. *)
Definition stable (P : World -> Prop) : Prop :=
  forall w w', same w w' -> P w -> P w'.

(** [spec P m Q E]: started in a world satisfying [P], [m] either
    returns [a] in a world satisfying [Q a] or throws [e] in a world
    satisfying [E e]. *)
Definition spec {A} (P : World -> Prop) (m : M A)
    (Q : A -> World -> Prop) (E : string -> World -> Prop) : Prop :=
  forall w, P w ->
    match m w with
    | (Returned a, w') => Q a w'
    | (Thrown e, w') => E e w'
    end.

(** The log is [l] and the offsets are [f]. *)
Definition obs (l : list Effect) (f : option nat -> Q) (w : World) : Prop :=
  log w = l /\ scrollOffset w = f.

(** The log is [l]. *)
Definition logIs (l : list Effect) (w : World) : Prop := log w = l.

(** The log is [l] and the offset of [target] is [y]. *)
Definition settledAt (l : list Effect) (target : option nat) (y : Q) (w : World) : Prop :=
  log w = l /\ scrollOffset w target = y.

(** The target offset [getTargetY] computes for a click, as a function
    of the world it is read in. *)
Definition targetOffset (ctx : ScrollContext) (e : ClickEvent) (w : World) : Q :=
  match type ctx with
  | container =>
      Js.add (scrollOffset w (element ctx)) (Js.sub (clientY e) (containerTop ctx))
  | window => pageY e
  end.

(** Session [c] is torn down: its variables are unset, its listeners
    are detached and the global flag is off. *)
Definition tornDown (c : nat) (w : World) : Prop :=
  closureOf w c = mkClosure None None None false
  /\ (c ∉ listeners w)
  /\ hvppyCaptureActive w = false.

(** The calls one step of the sequencer makes for scroll position [y]. *)
Definition stepCalls (ctx : ScrollContext) (y : Q) : list Effect :=
  [ScrollTo (element ctx) y; SendMessage captureTab].

(** An answer on which the capture loop goes on to the next step. *)
Definition accepted (r : Response) : Prop :=
  match r with
  | NoResponse => False
  | Answer _ error => Js.truthy (default "" error) = false
  end.

(** Every call of the stitcher recorded in [l] was given at least one
    frame. *)
Definition noEmptyStitch (l : list Effect) : Prop :=
  forall captures, In (StitchCaptures captures) l -> captures <> [].

(** ** The frames a run of accepted answers collects *)

(** The [dataUrl] property of an answer. *)
Definition answerUrl (r : Response) : option string :=
  match r with
  | Answer url _ => url
  | NoResponse => None
  end.

(** The frames of a sequence of steps whose answers are all accepted:
    the frame of step [j] carries the image of the [first + j]-th
    answer and the offset the platform settled at for its position. *)
Definition expectedCaptures (host : Host) (ctx : ScrollContext) (first : nat)
    (positions : list Q) : list Capture :=
  imap (fun j y => mkCapture (answerUrl (captureVisibleTab host (first + j)))
                             (settle host (element ctx) y)) positions.

(** What a capture of [n] steps may add to the log: at most [n]
    snapshot requests, at most one call of the stitcher and one
    download message, and a download only after all [n] snapshots and
    the stitcher. *)
Definition boundedCalls (n : nat) (added : list Effect) : Prop :=
  (snapshotCalls added <= n)%nat
  /\ (length (List.filter isStitch added) <= 1)%nat
  /\ (length (List.filter isDownload added) <= 1)%nat
  /\ (length (List.filter isDownload added) = 1%nat ->
      snapshotCalls added = n /\ length (List.filter isStitch added) = 1%nat).

(** ** The state of the page during a suppression window *)

(** The element as suppression leaves it. *)
Definition suppressedElement (e : El.t) : El.t := El.setPropertyImportant "hidden" e.

(** The element as restoration leaves it after a suppression: the
    earlier value of its inline visibility without its priority, or no
    declaration when the value was empty. *)
Definition restoredElement (e : El.t) : El.t :=
  El.withVisibility
    (if Js.truthy (El.styleVisibility e)
     then Some (mkDecl (El.styleVisibility e) false)
     else None) e.

(** [d] is the page [d0] with the elements recorded in [hidden]
    suppressed: the records name distinct elements of [d0] that are not
    the extension's own, each with the inline visibility value it had
    in [d0]; recorded elements are suppressed, the others are as in
    [d0]. *)
Definition suppressedFrom (d0 : Dom) (hidden : list OcclusionRecord) (d : Dom) : Prop :=
  NoDup (el <$> hidden)
  /\ (forall r, r ∈ hidden ->
        exists e, d0 !! el r = Some e /\ prev r = El.styleVisibility e
                  /\ El.isOwn e = false)
  /\ (forall i : nat,
        d !! i = (fun e => if bool_decide (i ∈ el <$> hidden)
                           then suppressedElement e else e) <$> d0 !! i).

(** An inline visibility declaration that restoration reproduces: a
    non-empty value without priority, or no declaration. *)
Definition plainVisibility (e : El.t) : Prop :=
  match El.visibility e with
  | Some decl => important decl = false /\ Js.truthy (value decl) = true
  | None => True
  end.

(** ** The injected elements and the page across a run *)

(** The injected elements with the one [h] refers to taken out of the
    document; a null reference takes none out. *)
Definition detach (h : option nat) (u : list UiEl) : list UiEl :=
  match h with
  | Some i =>
      alter (fun e => mkUi (kind e) false (display e) (textContent e) (cancelHandlers e)) i u
  | None => u
  end.

(** The page is [p]. *)
Definition pageIs (p : Page) (w : World) : Prop := page w = p.

(** A computation that always returns and leaves the page alone. *)
Definition keepsPage {A} (m : M A) : Prop :=
  forall w, exists a w', m w = (Returned a, w') /\ page w' = page w.

(** ** background.js: the answers of the service worker and the file name *)

Module Bg.

(** A JavaScript string as its sequence of UTF-16 code units. *)
Definition JsString := list Z.

(** The code units of an ASCII literal. *)
Definition lit (s : string) : JsString :=
  (fun a => Z.of_N (Ascii.N_of_ascii a)) <$> String.list_ascii_of_string s.

(** The character class of the first [replace] (line 28): backslash,
    slash, colon, asterisk, question mark, double quote, less-than,
    greater-than and vertical bar. *)
Definition isIllegal (c : Z) : bool :=
  existsb (Z.eqb c) [92; 47; 58; 42; 63; 34; 60; 62; 124].

(** The character class [\s], which is also what [trim()] strips: the
    white space and line terminator code units of ECMAScript. *)
Definition isSpace (c : Z) : bool :=
  existsb (Z.eqb c) [9; 10; 11; 12; 13; 32; 160; 5760; 8232; 8233; 8239; 8287; 12288; 65279]
  || ((8192 <=? c) && (c <=? 8202)).

(** The first [replace] (line 28): each of those becomes an underscore. *)
Definition replaceIllegal (s : JsString) : JsString :=
  (fun c => if isIllegal c then 95 else c) <$> s.

(** [.replace(/\s+/g, ' ')]: every maximal run of white space becomes
    one space.  [inRun] tells that the previous code unit was white
    space. *)
Fixpoint collapse (inRun : bool) (s : JsString) : JsString :=
  match s with
  | [] => []
  | c :: rest =>
      if isSpace c
      then (if inRun then collapse true rest else 32 :: collapse true rest)
      else c :: collapse false rest
  end.

Definition collapseSpaces (s : JsString) : JsString := collapse false s.

(** [.trim()], as the removal of leading and of trailing white space. *)
Fixpoint trimStart (s : JsString) : JsString :=
  match s with
  | [] => []
  | c :: rest => if isSpace c then trimStart rest else s
  end.

Fixpoint trimEnd (s : JsString) : JsString :=
  match s with
  | [] => []
  | c :: rest =>
      match trimEnd rest with
      | [] => if isSpace c then [] else [c]
      | kept => c :: kept
      end
  end.

Definition trim (s : JsString) : JsString := trimEnd (trimStart s).

(** The sanitized title (lines 27-31). *)
Definition sanitize (pageTitle : JsString) : JsString :=
  take 200 (trim (collapseSpaces (replaceIllegal pageTitle))).

(** The time stamp (line 33), from the result [iso] of
    [new Date().toISOString()]. *)
Definition timestamp (iso : JsString) : JsString :=
  take 19 ((fun c => if (c =? 58) || (c =? 46) then 45 else c) <$> iso).

(** The file name (lines 34-36); a string is truthy when it is not empty. *)
Definition filename (pageTitle iso : JsString) : JsString :=
  match sanitize pageTitle with
  | [] => lit "capture_" ++ timestamp iso ++ lit ".png"
  | sanitized => sanitized ++ lit "_" ++ timestamp iso ++ lit ".png"
  end.

(** Two spaces in a row. *)
Fixpoint doubleSpace (s : JsString) : bool :=
  match s with
  | c1 :: rest =>
      match rest with
      | c2 :: _ => ((c1 =? 32) && (c2 =? 32)) || doubleSpace rest
      | [] => false
      end
  | [] => false
  end.

(** How [chrome.tabs.captureVisibleTab] settles. *)
Inductive TabCapture :=
| Resolved (dataUrl : string)
| Rejected (message : string).

(** The answer of the [captureTab] branch of the message listener
    (lines 19-24): [{ dataUrl }] or [{ error: err.message }]. *)
Definition captureTabResponse (r : TabCapture) : Response :=
  match r with
  | Resolved url => Answer (Some url) None
  | Rejected message => Answer None (Some message)
  end.

End Bg.

(** ** Concrete pages, hosts and worlds used in the examples *)

Module Demo.

Definition box (top height : Q) : Rect.t :=
  Rect.mk top (top + height)%Q 1200 height.

(** A page whose document scrolls: [html], [body], a fixed header that
    carries an inline [visibility: visible !important], and the main
    content. *)
Definition page : Page :=
  mkPage
    [ El.mk "" 1 "visible" "static" 3000 800 1200 (box 0 800) None None [1%nat];
      El.mk "" 1 "visible" "static" 3000 800 1200 (box 0 800) None (Some 0%nat)
            [2%nat; 3%nat];
      El.mk "header" 1 "visible" "fixed" 60 60 1200 (box 0 60)
            (Some (mkDecl "visible" true)) (Some 1%nat) [];
      El.mk "main" 1 "visible" "static" 2940 2940 1200 (box 60 2940) None
            (Some 1%nat) [] ]
    0 1 800 1200 2 "Demo".

(** A page that scrolls inside a container: root and body hide their
    overflow; below a toolbar sit a side list and a larger main pane,
    both scrollable. *)
Definition containerPage : Page :=
  mkPage
    [ El.mk "" 1 "hidden" "static" 800 800 1200 (box 0 800) None None [1%nat];
      El.mk "" 1 "hidden" "static" 800 800 1200 (box 0 800) None (Some 0%nat)
            [2%nat; 3%nat; 4%nat];
      El.mk "toolbar" 1 "visible" "static" 200 200 1200 (box 0 200)
            (Some (mkDecl "visible" false)) (Some 1%nat) [];
      El.mk "side" 1 "auto" "static" 2000 600 300 (box 200 600) None (Some 1%nat) [];
      El.mk "pane" 1 "scroll" "static" 5000 600 900 (box 200 600) None (Some 1%nat) [] ]
    0 1 800 1200 1 "Demo".

(** A page whose only scrollable container has no width. *)
Definition collapsedPage : Page :=
  mkPage
    [ El.mk "" 1 "hidden" "static" 800 800 1200 (box 0 800) None None [1%nat];
      El.mk "" 1 "hidden" "static" 800 800 1200 (box 0 800) None (Some 0%nat) [2%nat];
      El.mk "drawer" 1 "auto" "static" 500 200 0 (Rect.mk 0 200 0 200) None
            (Some 1%nat) [] ]
    0 1 800 1200 1 "Demo".

Definition world (p : Page) : World :=
  mkWorld p (fun _ => 0%Q) false None [] [] [] [] 0.

(** The world after the icon was clicked once on [page]. *)
Definition awaiting : World := snd (inject (world page)).

(** The world after a page click has been accepted by session 0. *)
Definition busy : World := snd (setCapturing 0 awaiting).

Definition decode (src : string) : option Img.t := Some (Img.mk src 2400 1600).

(** The canvas limits of a current desktop browser: at most 32767
    pixels a side and 268435456 pixels in all. *)
Definition canvasLimit (width height : Z) : bool :=
  (width <=? 32767) && (height <=? 32767) && (width * height <=? 268435456).

(** A host that answers every snapshot request. *)
Definition host : Host :=
  mkHost (fun _ y => y) (fun _ => Answer (Some "data:image/png;base64,AA") None)
         decode (fun _ => []) canvasLimit.

(** A host whose second snapshot fails. *)
Definition failingHost : Host :=
  mkHost (fun _ y => y)
         (fun k => if (k =? 1)%nat then Answer None (Some "capture rejected")
                   else Answer (Some "data:image/png;base64,AA") None)
         decode (fun _ => []) canvasLimit.

(** A host on which the icon is clicked during the first suspension of
    the pipeline. *)
Definition togglingHost : Host :=
  mkHost (fun _ y => y) (fun _ => Answer (Some "data:image/png;base64,AA") None)
         decode (fun t => if (t =? 0)%nat then [IconClick] else []) canvasLimit.

(** A host on which the icon is clicked during the first and again
    during the second suspension of the pipeline. *)
Definition doubleToggleHost : Host :=
  mkHost (fun _ y => y) (fun _ => Answer (Some "data:image/png;base64,AA") None)
         decode (fun t => if (t <? 2)%nat then [IconClick] else []) canvasLimit.

(** A decoder that has no image for the string "undefined". *)
Definition decodeUrl (src : string) : option Img.t :=
  if String.eqb src "undefined" then None else Some (Img.mk src 2400 1600).

(** A host whose second snapshot is rejected with an empty message. *)
Definition emptyErrorHost : Host :=
  mkHost (fun _ y => y)
         (fun k => if (k =? 1)%nat then Answer None (Some "")
                   else Answer (Some "data:image/png;base64,AA") None)
         decodeUrl (fun _ => []) canvasLimit.

(** A page whose scrolling pane lies above the viewport: its top is
    1950 pixels above the top of the viewport. *)
Definition liftedPage : Page :=
  mkPage
    [ El.mk "" 1 "hidden" "static" 800 800 1200 (box 0 800) None None [1%nat];
      El.mk "" 1 "hidden" "static" 800 800 1200 (box 0 800) None (Some 0%nat) [2%nat];
      El.mk "pane" 1 "scroll" "static" 5000 1000 1200 (box (-1950) 1000) None
            (Some 1%nat) [] ]
    0 1 800 1200 1 "Demo".

(** A host whose snapshots are 1200 by 800 pixels, the viewport of the
    demo pages at density 1. *)
Definition plainHost : Host :=
  mkHost (fun _ y => y) (fun _ => Answer (Some "data:image/png;base64,AA") None)
         (fun src => Some (Img.mk src 1200 800)) (fun _ => []) canvasLimit.

Definition click (y : Q) : ClickEvent := mkClick y 400 false false.

Definition frames : list Capture :=
  [mkCapture (Some "a") 0; mkCapture (Some "b") 800; mkCapture (Some "c") 1600].

End Demo.

(** Further pages for the examples. *)
Module Samples.

(** A container page on which suppression hides three elements: a
    sticky banner with an inline [visibility: visible], the side list
    next to the scrolling pane, and a footer that overlaps the pane. *)
Definition overlayPage : Page :=
  mkPage
    [ El.mk "" 1 "hidden" "static" 800 800 1200 (Demo.box 0 800) None None
            [1%nat; 7%nat];
      El.mk "" 1 "hidden" "static" 800 800 1200 (Demo.box 0 800) None (Some 0%nat)
            [2%nat; 3%nat];
      El.mk "banner" 1 "visible" "sticky" 60 60 1200 (Demo.box 0 60)
            (Some (mkDecl "visible" false)) (Some 1%nat) [];
      El.mk "layout" 1 "visible" "static" 740 740 1200 (Demo.box 60 740) None
            (Some 1%nat) [4%nat; 5%nat; 6%nat];
      El.mk "side" 1 "auto" "static" 2000 600 300 (Demo.box 60 600) None (Some 3%nat) [];
      El.mk "pane" 1 "scroll" "static" 5000 600 900 (Demo.box 60 600) None (Some 3%nat) [];
      El.mk "footer" 1 "visible" "static" 140 140 1200 (Demo.box 600 200)
            (Some (mkDecl "inherit" false)) (Some 3%nat) [];
      El.mk "hvppy-progress" 1 "visible" "fixed" 40 40 200 (Demo.box 0 40) None
            (Some 0%nat) [] ]
    0 1 800 1200 1 "Samples".

(** The demo page in a window without height, as a minimised window
    reports it. *)
Definition minimizedPage : Page :=
  mkPage (nodes Demo.page) 0 1 0 1200 2 "Samples".

Definition paneContext : ScrollContext := mkCtx container (Some 5%nat) 60 600.

End Samples.


(** ** Facts about numbers *)

Lemma ltb_lt (x y : Q) : Js.ltb x y = true <-> (x < y)%Q.
Proof.
  unfold Js.ltb. rewrite negb_true_iff, <- not_true_iff_false, Qle_bool_iff.
  split; [apply Qnot_le_lt | apply Qlt_not_le].
Qed.

Lemma ltb_ge (x y : Q) : Js.ltb x y = false <-> (y <= x)%Q.
Proof.
  unfold Js.ltb. rewrite negb_false_iff. apply Qle_bool_iff.
Qed.

Lemma leb_le (x y : Q) : Js.leb x y = true <-> (x <= y)%Q.
Proof. apply Qle_bool_iff. Qed.

(** [Js.ceil x] is the one integer [n] with [n - 1 < x <= n]. *)
Lemma ceil_unique (x : Q) (n : Z) :
  (inject_Z n - 1 < x)%Q -> (x <= inject_Z n)%Q -> Js.ceil x = n.
Proof.
  intros Hlo Hhi. unfold Js.ceil.
  pose proof (Qle_ceiling x) as Hc1. pose proof (Qceiling_lt x) as Hc2.
  assert (Hlt1 : (inject_Z (Qceiling x - 1) < inject_Z n)%Q) by (eapply Qlt_le_trans; eauto).
  assert (Hlt2 : (inject_Z (n - 1) < inject_Z (Qceiling x))%Q).
  { eapply Qlt_le_trans; [|exact Hc1]. 
    unfold Z.sub. rewrite inject_Z_plus. exact Hlo. }
  rewrite <- Zlt_Qlt in Hlt1, Hlt2. lia.
Qed.

(** *** Rounding *)

(** Rounding depends on the value of a number only. *)
Lemma round64_compat (x y : Q) : (x == y)%Q -> Js.round64 x = Js.round64 y.
Proof. intros H. unfold Js.round64. rewrite (Qred_complete x y H); reflexivity. Qed.

Lemma divNearestEven_bounds (n d : Z) :
  0 < d -> n / d <= Js.divNearestEven n d <= n / d + 1.
Proof.
  intros Hd. unfold Js.divNearestEven.
  destruct (2 * (n mod d) ?= d); [destruct (Z.even (n / d))| |]; lia.
Qed.

Lemma divNearestEven_nonneg (n d : Z) : 0 < d -> 0 <= n -> 0 <= Js.divNearestEven n d.
Proof.
  intros Hd Hn. pose proof (divNearestEven_bounds n d Hd).
  pose proof (Z.div_pos n d Hn Hd). lia.
Qed.

Lemma divNearestEven_nonpos (n d : Z) : 0 < d -> n <= 0 -> Js.divNearestEven n d <= 0.
Proof.
  intros Hd Hn. unfold Js.divNearestEven.
  pose proof (Z.mod_pos_bound n d Hd) as Hm.
  pose proof (Z.div_mod n d ltac:(lia)) as Hdm.
  assert (n / d <= 0) by (apply Z.div_le_upper_bound; lia).
  destruct (Z.eq_dec (n / d) 0) as [E|E].
  - rewrite E in *. assert (n mod d = 0) by lia.
    replace (2 * (n mod d) ?= d) with Lt; [lia|].
    symmetry. apply Z.compare_lt_iff. lia.
  - destruct (2 * (n mod d) ?= d); [destruct (Z.even (n / d))| |]; lia.
Qed.

Lemma divNearestEven_pos (n d : Z) : 0 < d -> d <= n -> 1 <= Js.divNearestEven n d.
Proof.
  intros Hd Hn. pose proof (divNearestEven_bounds n d Hd).
  assert (1 <= n / d) by (apply Z.div_le_lower_bound; lia). lia.
Qed.

Lemma divNearestEven_neg (n d : Z) : 0 < d -> n <= - d -> Js.divNearestEven n d <= -1.
Proof.
  intros Hd Hn. unfold Js.divNearestEven.
  pose proof (Z.mod_pos_bound n d Hd) as Hm.
  pose proof (Z.div_mod n d ltac:(lia)) as Hdm.
  assert (n / d <= -1) by (apply Z.div_le_upper_bound; lia).
  destruct (Z.eq_dec (n / d) (-1)) as [E|E].
  - rewrite E in *. assert (n mod d = 0) by nia.
    replace (2 * (n mod d) ?= d) with Lt; [lia|].
    symmetry. apply Z.compare_lt_iff. lia.
  - destruct (2 * (n mod d) ?= d); [destruct (Z.even (n / d))| |]; lia.
Qed.

(** [2 ^ k <= n / d], without division. *)
Lemma ilog2_lower (n d : Z) :
  0 < n -> 0 < d ->
  forall e, e <= Js.ilog2 n d ->
    (0 <= e -> d * 2 ^ e <= n) /\ (e < 0 -> d <= n * 2 ^ (- e)).
Proof.
  intros Hn Hd.
  pose proof (Z.log2_spec n Hn) as [Hn1 Hn2].
  pose proof (Z.log2_spec d Hd) as [Hd1 Hd2].
  pose proof (Z.log2_nonneg n) as Hln. pose proof (Z.log2_nonneg d) as Hld.
  assert (Hmono : forall a b, 0 <= a <= b -> 2 ^ a <= 2 ^ b).
  { intros a b Hab. apply Z.pow_le_mono_r; lia. }
  assert (Hpos : forall a, 0 <= a -> 0 < 2 ^ a) by (intros; apply Z.pow_pos_nonneg; lia).
  (* the bound at [L = ilog2 n d] *)
  assert (HL : (0 <= Js.ilog2 n d -> d * 2 ^ Js.ilog2 n d <= n)
               /\ (Js.ilog2 n d < 0 -> d <= n * 2 ^ (- Js.ilog2 n d))).
  { unfold Js.ilog2.
    remember (Z.log2 n) as ln. remember (Z.log2 d) as ld.
    rewrite Z.pow_succ_r in Hn2, Hd2 by lia.
    destruct (Z.leb_spec 0 (ln - ld)) as [Hk | Hk].
    - assert (Eln : 2 ^ ln = 2 ^ ld * 2 ^ (ln - ld)).
      { rewrite <- Z.pow_add_r by lia. f_equal. lia. }
      destruct (Z.leb_spec (d * 2 ^ (ln - ld)) n) as [Ht | Ht].
      + split; [intros _; exact Ht | lia].
      + split.
        * intros Hk'.
          assert (E2 : 2 ^ (ln - ld) = 2 * 2 ^ (ln - ld - 1)).
          { rewrite <- Z.pow_succ_r by lia. f_equal. lia. }
          pose proof (Hpos (ln - ld - 1) ltac:(lia)). nia.
        * intros Hk'. assert (ln - ld = 0) by lia.
          replace (- (ln - ld - 1)) with 1 by lia.
          replace (ln - ld) with 0 in Eln by lia. change (2 ^ 1) with 2. lia.
    - assert (Eld : 2 ^ ld = 2 ^ ln * 2 ^ (- (ln - ld))).
      { rewrite <- Z.pow_add_r by lia. f_equal. lia. }
      destruct (Z.leb_spec d (n * 2 ^ (- (ln - ld)))) as [Ht | Ht].
      + split; [lia | intros _; exact Ht].
      + split; [lia|]. intros _.
        replace (- (ln - ld - 1)) with (Z.succ (- (ln - ld))) by lia.
        rewrite Z.pow_succ_r by lia.
        pose proof (Hpos (- (ln - ld)) ltac:(lia)). nia. }
  intros e He. destruct HL as [HL1 HL2]. split.
  - intros He0. specialize (HL1 ltac:(lia)).
    pose proof (Hmono e (Js.ilog2 n d) ltac:(lia)). nia.
  - intros He0. destruct (Z.lt_ge_cases (Js.ilog2 n d) 0) as [HLn | HLp].
    + specialize (HL2 HLn). pose proof (Hmono (- Js.ilog2 n d) (- e) ltac:(lia)). nia.
    + specialize (HL1 HLp). pose proof (Hpos (Js.ilog2 n d) HLp).
      pose proof (Hpos (- e) ltac:(lia)). nia.
Qed.

Lemma Qnum_sign (x : Q) :
  ((0 <= x)%Q <-> 0 <= Qnum x) /\ ((x <= 0)%Q <-> Qnum x <= 0) /\ ((0 < x)%Q <-> 0 < Qnum x).
Proof. destruct x as [n d]. unfold Qle, Qlt. simpl. lia. Qed.

Lemma round64_sign (x : Q) :
  ((0 <= x)%Q -> (0 <= Js.round64 x)%Q)
  /\ ((x <= 0)%Q -> (Js.round64 x <= 0)%Q)
  /\ ((0 < x)%Q -> (0 < Js.round64 x)%Q).
Proof.
  assert (Hred : (Qred x == x)%Q) by apply Qred_correct.
  unfold Js.round64.
  assert (Hs1 : (0 <= x)%Q -> 0 <= Qnum (Qred x)).
  { intros H. apply (proj1 (Qnum_sign _)). rewrite Hred; exact H. }
  assert (Hs2 : (x <= 0)%Q -> Qnum (Qred x) <= 0).
  { intros H. apply (proj1 (proj2 (Qnum_sign _))). rewrite Hred; exact H. }
  assert (Hs3 : (0 < x)%Q -> 0 < Qnum (Qred x)).
  { intros H. apply (proj2 (proj2 (Qnum_sign _))). rewrite Hred; exact H. }
  remember (Qnum (Qred x)) as n eqn:En. remember (Z.pos (Qden (Qred x))) as d eqn:Ed.
  assert (Hd : 0 < d) by (subst d; lia).
  destruct (Z.eq_dec n 0) as [-> | Hn0].
  { split; [|split]; intros H; [apply Qle_refl | apply Qle_refl |]. apply Hs3 in H. lia. }
  assert (Hbody : forall q : Q,
            q = (let e := Js.ilog2 (Z.abs n) d - 52 in
                 if 0 <=? e
                 then inject_Z (Js.divNearestEven n (d * 2 ^ e) * 2 ^ e)
                 else Qred (Js.divNearestEven (n * 2 ^ (- e)) d # Z.to_pos (2 ^ (- e)))) ->
            ((0 <= x)%Q -> (0 <= q)%Q) /\ ((x <= 0)%Q -> (q <= 0)%Q)
            /\ ((0 < x)%Q -> (0 < q)%Q)).
  { intros q ->. cbv zeta.
    assert (Hpos : forall a, 0 <= a -> 0 < 2 ^ a) by (intros; apply Z.pow_pos_nonneg; lia).
    destruct (Z.leb_spec 0 (Js.ilog2 (Z.abs n) d - 52)) as [He | He].
    - pose proof (Hpos _ He) as Hp.
      assert (Hd' : 0 < d * 2 ^ (Js.ilog2 (Z.abs n) d - 52)) by nia.
      split; [|split]; intros H.
      + apply Hs1 in H. pose proof (divNearestEven_nonneg n _ Hd' H).
        apply (proj2 (proj1 (Qnum_sign _))). simpl. nia.
      + apply Hs2 in H. pose proof (divNearestEven_nonpos n _ Hd' H).
        apply (proj2 (proj1 (proj2 (Qnum_sign _)))). simpl. nia.
      + apply Hs3 in H. assert (Ea : Z.abs n = n) by lia. rewrite Ea in *.
        destruct (ilog2_lower n d ltac:(lia) Hd (Js.ilog2 n d - 52)
                    ltac:(lia)) as [Hlow _].
        specialize (Hlow He).
        pose proof (divNearestEven_pos n _ Hd' Hlow).
        apply (proj2 (proj2 (proj2 (Qnum_sign _)))). simpl. nia.
    - pose proof (Hpos (- (Js.ilog2 (Z.abs n) d - 52)) ltac:(lia)) as Hp.
      split; [|split]; intros H; rewrite Qred_correct.
      + apply Hs1 in H.
        pose proof (divNearestEven_nonneg (n * 2 ^ (- (Js.ilog2 (Z.abs n) d - 52))) d Hd
                      ltac:(nia)).
        apply (proj2 (proj1 (Qnum_sign _))). simpl. lia.
      + apply Hs2 in H.
        pose proof (divNearestEven_nonpos (n * 2 ^ (- (Js.ilog2 (Z.abs n) d - 52))) d Hd
                      ltac:(nia)).
        apply (proj2 (proj1 (proj2 (Qnum_sign _)))). simpl. lia.
      + apply Hs3 in H. assert (Ea : Z.abs n = n) by lia. rewrite Ea in *.
        destruct (ilog2_lower n d ltac:(lia) Hd (Js.ilog2 n d - 52)
                    ltac:(lia)) as [_ Hlow].
        specialize (Hlow He).
        pose proof (divNearestEven_pos _ d Hd Hlow).
        apply (proj2 (proj2 (proj2 (Qnum_sign _)))). simpl. lia. }
  destruct n as [|p|p]; [lia | apply Hbody; reflexivity | apply Hbody; reflexivity].
Qed.

(** *** Integers *)

Lemma divNearestEven_1 (n : Z) : Js.divNearestEven n 1 = n.
Proof.
  unfold Js.divNearestEven. rewrite Z.mod_1_r, Z.div_1_r. reflexivity.
Qed.

Lemma Qred_inject_Z (n : Z) : Qred (inject_Z n) = inject_Z n.
Proof.
  unfold Qred, inject_Z.
  pose proof (Z.ggcd_gcd n 1) as Hg. pose proof (Z.ggcd_correct_divisors n 1) as Hd.
  destruct (Z.ggcd n 1) as [g [q1 q2]]. simpl in *.
  rewrite Z.gcd_1_r in Hg. subst g. destruct Hd as [-> Hq2].
  replace q2 with 1 by lia. f_equal. lia.
Qed.

(** An integer below [2 ^ 53] in magnitude is a double. *)
Lemma round64_integer (n : Z) : Z.abs n < 2 ^ 53 -> Js.round64 (inject_Z n) = inject_Z n.
Proof.
  intros Hn. unfold Js.round64. rewrite Qred_inject_Z. cbn [Qnum Qden inject_Z].
  destruct (Z.eq_dec n 0) as [-> | Hn0]; [done|].
  assert (Hbody :
    (let e := Js.ilog2 (Z.abs n) 1 - 52 in
     if 0 <=? e
     then inject_Z (Js.divNearestEven n (1 * 2 ^ e) * 2 ^ e)
     else Qred (Js.divNearestEven (n * 2 ^ (- e)) 1 # Z.to_pos (2 ^ (- e))))
    = inject_Z n).
  { assert (Hlog : Js.ilog2 (Z.abs n) 1 = Z.log2 (Z.abs n)).
    { unfold Js.ilog2. change (Z.log2 1) with 0. rewrite Z.sub_0_r.
      pose proof (Z.log2_nonneg (Z.abs n)) as H0.
      destruct (Z.leb_spec 0 (Z.log2 (Z.abs n))) as [_|]; [|lia].
      pose proof (Z.log2_spec (Z.abs n) ltac:(lia)) as [Hlo _].
      destruct (Z.leb_spec (1 * 2 ^ Z.log2 (Z.abs n)) (Z.abs n)); [done | lia]. }
    rewrite Hlog. cbv zeta.
    assert (Hlt : Z.log2 (Z.abs n) < 53) by (apply Z.log2_lt_pow2; lia).
    destruct (Z.leb_spec 0 (Z.log2 (Z.abs n) - 52)) as [He | He].
    - replace (Z.log2 (Z.abs n) - 52) with 0 by lia.
      change (1 * 2 ^ 0) with 1. rewrite divNearestEven_1. f_equal. lia.
    - rewrite divNearestEven_1.
      assert (Hp : 0 < 2 ^ (- (Z.log2 (Z.abs n) - 52))) by (apply Z.pow_pos_nonneg; lia).
      rewrite <- (Qred_inject_Z n). apply Qred_complete.
      unfold Qeq. simpl. rewrite Z2Pos.id by lia. lia. }
  destruct n; [done | exact Hbody | exact Hbody].
Qed.

Lemma add_integers (a b : Z) :
  Z.abs (a + b) < 2 ^ 53 -> Js.add (inject_Z a) (inject_Z b) = inject_Z (a + b).
Proof.
  intros H. unfold Js.add. rewrite <- (round64_integer _ H).
  apply round64_compat. by rewrite inject_Z_plus.
Qed.

(** The sum of two numbers that are not negative is not negative; the
    sum of two numbers that are not positive is not positive. *)
Lemma add_nonneg (x y : Q) : (0 <= x)%Q -> (0 <= y)%Q -> (0 <= Js.add x y)%Q.
Proof. intros. apply round64_sign. lra. Qed.

Lemma add_nonpos (x y : Q) : (x <= 0)%Q -> (y <= 0)%Q -> (Js.add x y <= 0)%Q.
Proof. intros. apply round64_sign. lra. Qed.

Lemma add_pos (x y : Q) : (0 <= x)%Q -> (0 < y)%Q -> (0 < Js.add x y)%Q.
Proof. intros. apply round64_sign. lra. Qed.

Lemma sub_pos (x y : Q) : (y < x)%Q -> (0 < Js.sub x y)%Q.
Proof. intros. apply round64_sign. lra. Qed.

Lemma mul_pos (x y : Q) : (0 < x)%Q -> (0 < y)%Q -> (0 < Js.mul x y)%Q.
Proof. intros. apply round64_sign. by apply Qmult_lt_0_compat. Qed.

Lemma add_compat (x x' y : Q) : (x == x')%Q -> Js.add x y = Js.add x' y.
Proof. intros H. apply round64_compat. by rewrite H. Qed.

(** ** C1: the sequence of requested scroll positions *)

Section Positions.

Variables targetY scrollStep : Q.

(** The value of [y] after [i] further rounds of the loop. *)
Let after (i : nat) (y : Q) : Q := Nat.iter i (fun y => Js.add y scrollStep) y.

Lemma after_succ (i : nat) (y : Q) : after (S i) y = after i (Js.add y scrollStep).
Proof. unfold after. induction i as [|i IH]; simpl in *; [done | by rewrite IH]. Qed.

(** What the loop has pushed when it returns: the values [y] takes,
    each below the target, up to the first that is not. *)
Lemma positionsLoop_returned (room : nat) :
  forall (y : Q) (ps : list Q),
    positionsLoop room y targetY scrollStep = Some ps ->
    (forall i, (i < length ps)%nat ->
       ps !! i = Some (after i y) /\ (after i y < targetY)%Q)
    /\ (targetY <= after (length ps) y)%Q.
Proof.
  assert (Hstop : forall y ps,
            Js.ltb y targetY = false -> Some [] = Some ps ->
            (forall i, (i < length ps)%nat ->
               ps !! i = Some (after i y) /\ (after i y < targetY)%Q)
            /\ (targetY <= after (length ps) y)%Q).
  { intros y ps Hy [= <-]. split; [simpl; lia | by apply ltb_ge]. }
  induction room as [|room IH]; intros y ps; cbn [positionsLoop];
    destruct (Js.ltb y targetY) eqn:Hy; try (by apply Hstop); [done|].
  destruct (positionsLoop room (Js.add y scrollStep) targetY scrollStep) as [qs|] eqn:Hqs;
    [|done].
  intros [= <-]. destruct (IH _ _ Hqs) as [Hnth Hend]. split.
  - intros [|i] Hi.
    + split; [done | by apply ltb_lt].
    + rewrite after_succ. cbn [length] in Hi. apply Hnth. lia.
  - cbn [length]. by rewrite after_succ.
Qed.

(** The loop returns when [y] leaves the range below the target
    before the array is full. *)
Lemma positionsLoop_returns (n : nat) :
  forall (room : nat) (y : Q),
    (n <= room)%nat ->
    (forall i, (i < n)%nat -> (after i y < targetY)%Q) ->
    (targetY <= after n y)%Q ->
    positionsLoop room y targetY scrollStep = Some ((fun i => after i y) <$> seq 0 n).
Proof.
  induction n as [|n IH]; intros room y Hroom Hlt Hge.
  - assert (E : Js.ltb y targetY = false) by (by apply ltb_ge).
    destruct room; cbn [positionsLoop]; by rewrite E.
  - destruct room as [|room]; [lia|]. cbn [positionsLoop].
    assert (E : Js.ltb y targetY = true) by (apply ltb_lt, (Hlt 0%nat); lia).
    rewrite E, (IH room (Js.add y scrollStep)).
    + cbn [seq fmap list_fmap option_fmap option_map]. f_equal. f_equal.
      rewrite <- fmap_S_seq, <- list_fmap_compose.
      apply list_fmap_ext. intros _ i _. cbn [compose]. by rewrite after_succ.
    + lia.
    + intros i Hi. rewrite <- after_succ. apply Hlt. lia.
    + by rewrite <- after_succ.
Qed.

End Positions.

(** The list [scrollPositions] returns for a positive target. *)
Lemma scrollPositions_returned (arrayLimit : nat) (T S : Q) (ps : list Q) :
  (0 < T)%Q ->
  scrollPositions arrayLimit T S = Some ps ->
  (0 < length ps)%nat
  /\ (forall i, (i < length ps)%nat ->
        ps !! i = Some (accumulated S i) /\ (accumulated S i < T)%Q)
  /\ (T <= accumulated S (length ps))%Q.
Proof.
  intros HT. unfold scrollPositions.
  destruct (positionsLoop arrayLimit 0 T S) as [qs|] eqn:Hqs; [|done].
  destruct (positionsLoop_returned T S arrayLimit 0%Q qs Hqs) as [Hnth Hend].
  destruct qs as [|q qs].
  - simpl in Hend. lra.
  - simpl. intros [= <-]. split; [simpl; lia|]. split; [exact Hnth | exact Hend].
Qed.

Lemma scrollPositions_returns (arrayLimit n : nat) (T S : Q) :
  (0 < n <= arrayLimit)%nat ->
  (forall i, (i < n)%nat -> (accumulated S i < T)%Q) ->
  (T <= accumulated S n)%Q ->
  scrollPositions arrayLimit T S = Some (accumulated S <$> seq 0 n).
Proof.
  intros Hn Hlt Hge. unfold scrollPositions.
  rewrite (positionsLoop_returns T S n arrayLimit 0%Q ltac:(lia) Hlt Hge).
  rewrite length_fmap, length_seq.
  destruct n; [lia | done].
Qed.

(** When no addition rounds, the accumulated value is the multiple. *)
Lemma accumulated_exact (S : Q) (n : nat) :
  (forall i, (i < n)%nat ->
     (Js.add (inject_Z (Z.of_nat i) * S) S == inject_Z (Z.of_nat (i + 1)) * S)%Q) ->
  forall i, (i <= n)%nat -> (accumulated S i == inject_Z (Z.of_nat i) * S)%Q.
Proof.
  intros Hexact. induction i as [|i IH]; intros Hi.
  - simpl. change (inject_Z (Z.of_nat 0)) with 0%Q. ring.
  - unfold accumulated in *. simpl.
    rewrite (add_compat _ _ S (IH ltac:(lia))).
    rewrite (Hexact i ltac:(lia)). by rewrite Nat.add_1_r.
Qed.

(** The requested positions when no addition rounds. *)
Lemma scrollPositions_multiples (T S : Q) (arrayLimit : nat) :
  (0 < T)%Q -> (0 < S)%Q ->
  (Z.to_nat (Js.ceil (T / S)) <= arrayLimit)%nat ->
  (forall i, (i < Z.to_nat (Js.ceil (T / S)))%nat ->
     (Js.add (inject_Z (Z.of_nat i) * S) S == inject_Z (Z.of_nat (i + 1)) * S)%Q) ->
  exists ps : list Q,
    scrollPositions arrayLimit T S = Some ps
    /\ Z.of_nat (length ps) = Js.ceil (T / S)
    /\ (forall (i : nat) (y : Q), ps !! i = Some y ->
          (y == inject_Z (Z.of_nat i) * S)%Q)
    /\ ((T <= S)%Q -> ps = [0%Q]).
Proof.
  intros HT HS Hroom Hexact.
  assert (Hdiv : (T / S * S == T)%Q) by (field; lra).
  assert (Hq : (0 < T / S)%Q) by (apply Qlt_shift_div_l; lra).
  assert (Hone : ((T <= S) -> T / S <= 1)%Q).
  { intros H. apply Qle_shift_div_r; lra. }
  remember (T / S)%Q as x eqn:Hx. clear Hx.
  assert (Hc1 : (x <= inject_Z (Js.ceil x))%Q) by apply Qle_ceiling.
  assert (Hc2 : (inject_Z (Js.ceil x - 1) < x)%Q) by apply Qceiling_lt.
  remember (Js.ceil x) as n eqn:Hn_def.
  unfold Z.sub in Hc2. rewrite inject_Z_plus in Hc2.
  change (inject_Z (- (1))) with (-1 # 1)%Q in Hc2.
  assert (Hn : 0 < n).
  { rewrite Zlt_Qlt. eapply Qlt_le_trans; eauto. }
  pose proof (accumulated_exact S (Z.to_nat n) Hexact) as Hacc.
  assert (Hps : scrollPositions arrayLimit T S = Some (accumulated S <$> seq 0 (Z.to_nat n))).
  { apply scrollPositions_returns; [lia | |].
    - intros i Hi. rewrite (Hacc i ltac:(lia)).
      assert (Hin : (inject_Z (Z.of_nat i) <= inject_Z (n - 1))%Q)
        by (rewrite <- Zle_Qle; lia).
      unfold Z.sub in Hin. rewrite inject_Z_plus in Hin.
      change (inject_Z (- (1))) with (-1 # 1)%Q in Hin.
      remember (inject_Z n) as q. remember (inject_Z (Z.of_nat i)) as qi.
      assert (Hm : (qi * S <= (q - 1) * S)%Q) by (apply Qmult_le_compat_r; lra).
      assert (Hm2 : ((q - 1) * S < x * S)%Q) by (apply Qmult_lt_compat_r; lra).
      clear - Hm Hm2 Hdiv. lra.
    - rewrite (Hacc (Z.to_nat n) ltac:(lia)), Z2Nat.id by lia.
      remember (inject_Z n) as q.
      assert (Hm : (x * S <= q * S)%Q) by (apply Qmult_le_compat_r; lra).
      clear - Hm Hdiv. lra. }
  eexists. split; [exact Hps|].
  rewrite length_fmap, length_seq. split; [lia|]. split.
  - intros i y Hi. rewrite list_lookup_fmap in Hi.
    destruct (seq 0 (Z.to_nat n) !! i) as [j|] eqn:Hj; [|done].
    apply lookup_seq in Hj as [-> Hlt]. simpl in Hi. injection Hi as <-.
    apply Hacc. lia.
  - intros HTS. specialize (Hone HTS).
    assert (Hn1 : n = 1).
    { rewrite Hn_def. apply ceil_unique; change (inject_Z 1) with 1%Q; lra. }
    by rewrite Hn1.
Qed.

(** Sums of multiples of an integer step are exact below [2 ^ 53]. *)
Lemma integer_steps_exact (s : Z) (n : nat) :
  0 <= s -> Z.of_nat n * s < 2 ^ 53 ->
  forall i, (i < n)%nat ->
    (Js.add (inject_Z (Z.of_nat i) * inject_Z s) (inject_Z s)
     == inject_Z (Z.of_nat (i + 1)) * inject_Z s)%Q.
Proof.
  intros Hs Hn i Hi.
  assert (E : (inject_Z (Z.of_nat i) * inject_Z s == inject_Z (Z.of_nat i * s))%Q)
    by (by rewrite inject_Z_mult).
  rewrite (add_compat _ _ _ E), add_integers by nia.
  rewrite <- inject_Z_mult. apply inject_Z_injective. lia.
Qed.

(** *** The rounding against the machine's *)

Example binary64_samples_agree :
  forallb (fun '(a, b) => Binary64.agrees PrimFloat.add Js.add a b
                          && Binary64.agrees PrimFloat.sub Js.sub a b
                          && Binary64.agrees PrimFloat.mul Js.mul a b)
          Binary64.samples = true.
Proof. vm_compute. reflexivity. Qed.

Example binary64_literal :
  Binary64.toQ (Binary64.decimal 6002 10) = Some (Js.num (6002 # 10))
  /\ Binary64.toQ (Binary64.decimal 48016 10) = Some (Js.num (48016 # 10))
  /\ Binary64.toQ (Binary64.decimal 9 10) = Some (Js.num (9 # 10)).
Proof. vm_compute. repeat split; reflexivity. Qed.

(** Ten rounds of [y += 600.2] on the machine and in [accumulated]. *)
Example binary64_accumulation :
  Binary64.toQ <$> Binary64.accumulate 10 (Binary64.ofZ 0) (Binary64.decimal 6002 10)
  = (fun i => Some (Qred (accumulated (Js.num (6002 # 10)) i))) <$> seq 0 10.
Proof. vm_compute. reflexivity. Qed.

(** Integer offsets and steps below 2^53 are added without rounding. *)
Lemma scrollPositions_integers (t s : Z) (arrayLimit : nat) :
  0 < t -> 0 < s -> t + s <= 2 ^ 53 ->
  (Z.to_nat (Js.ceil (inject_Z t / inject_Z s)) <= arrayLimit)%nat ->
  exists ps : list Q,
    scrollPositions arrayLimit (inject_Z t) (inject_Z s) = Some ps
    /\ Z.of_nat (length ps) = Js.ceil (inject_Z t / inject_Z s)
    /\ (forall (i : nat) (y : Q), ps !! i = Some y ->
          (y == inject_Z (Z.of_nat i) * inject_Z s)%Q).
Proof.
  intros Ht Hs Hts Hroom.
  assert (HS : (0 < inject_Z s)%Q) by (change 0%Q with (inject_Z 0); by rewrite <- Zlt_Qlt).
  assert (HT : (0 < inject_Z t)%Q) by (change 0%Q with (inject_Z 0); by rewrite <- Zlt_Qlt).
  destruct (scrollPositions_multiples _ _ arrayLimit HT HS Hroom)
    as (ps & Hps & Hlen & Hnth & _); [|by exists ps].
  apply integer_steps_exact; [lia|].
  (* [ceil (t / s) * s < t + s] *)
  pose proof (Qceiling_lt (inject_Z t / inject_Z s)) as Hc.
  fold (Js.ceil (inject_Z t / inject_Z s)) in Hc.
  remember (Js.ceil (inject_Z t / inject_Z s)) as n eqn:En.
  assert (Hn0 : 0 <= n).
  { destruct (Z.le_gt_cases 0 n) as [|Hneg]; [done|]. exfalso.
    pose proof (Qle_ceiling (inject_Z t / inject_Z s)) as Hle.
    fold (Js.ceil (inject_Z t / inject_Z s)) in Hle. rewrite <- En in Hle.
    assert (Hq : (0 < inject_Z t / inject_Z s)%Q) by (apply Qlt_shift_div_l; lra).
    assert (Hn' : (inject_Z n < 0)%Q) by (change 0%Q with (inject_Z 0); by rewrite <- Zlt_Qlt).
    lra. }
  rewrite Z2Nat.id by lia.
  assert (Hlt : (inject_Z (n - 1) * inject_Z s < inject_Z t)%Q).
  { assert (E : (inject_Z t == inject_Z t / inject_Z s * inject_Z s)%Q) by (field; lra).
    eapply Qlt_le_trans; [apply Qmult_lt_compat_r; [exact HS | exact Hc]|].
    rewrite <- E. apply Qle_refl. }
  rewrite <- inject_Z_mult, <- Zlt_Qlt in Hlt. nia.
Qed.

(** C1, as the code has it.  The loop accumulates the step in double
    arithmetic.  For a target offset [T > 0], whenever it returns it
    has requested at least one position; the [i]-th position is the
    value [y] has after [i] rounds of [y += S] from 0, every position is
    below [T], and the next value of [y] is not.  When no addition
    rounds, that is, when [i * S + S] is a double for every [i] below
    [ceil (T / S)], the [i]-th position is [i * S] and the number of
    positions is [ceil (T / S)], a single position [0] when [T <= S];
    this is so for integer [T] and [S] with [T + S <= 2 ^ 53]. *)
Theorem C1_positions_accumulate (T S : Q) (arrayLimit : nat) :
  (0 < T)%Q ->
  (forall ps : list Q,
     scrollPositions arrayLimit T S = Some ps ->
     (0 < length ps)%nat
     /\ (forall i, (i < length ps)%nat ->
           ps !! i = Some (accumulated S i) /\ (accumulated S i < T)%Q)
     /\ (T <= accumulated S (length ps))%Q)
  /\ ((0 < S)%Q ->
      (Z.to_nat (Js.ceil (T / S)) <= arrayLimit)%nat ->
      (forall i, (i < Z.to_nat (Js.ceil (T / S)))%nat ->
         (Js.add (inject_Z (Z.of_nat i) * S) S == inject_Z (Z.of_nat (i + 1)) * S)%Q) ->
      exists ps : list Q,
        scrollPositions arrayLimit T S = Some ps
        /\ Z.of_nat (length ps) = Js.ceil (T / S)
        /\ (forall (i : nat) (y : Q), ps !! i = Some y ->
              (y == inject_Z (Z.of_nat i) * S)%Q)
        /\ ((T <= S)%Q -> ps = [0%Q]))
  /\ (forall t s : Z,
        T = inject_Z t -> S = inject_Z s -> 0 < s -> t + s <= 2 ^ 53 ->
        (Z.to_nat (Js.ceil (T / S)) <= arrayLimit)%nat ->
        exists ps : list Q,
          scrollPositions arrayLimit T S = Some ps
          /\ Z.of_nat (length ps) = Js.ceil (T / S)
          /\ (forall (i : nat) (y : Q), ps !! i = Some y ->
                (y == inject_Z (Z.of_nat i) * S)%Q)).
Proof.
  intros HT. split; [|split].
  - intros ps. by apply scrollPositions_returned.
  - intros HS. by apply scrollPositions_multiples.
  - intros t s -> -> Hs Hts Hroom.
    assert (Ht : 0 < t) by (change 0%Q with (inject_Z 0) in HT; by rewrite <- Zlt_Qlt in HT).
    by apply scrollPositions_integers.
Qed.

Lemma C1_positions_witness :
  (0 < 1850)%Q
  /\ exists ps : list Q,
       scrollPositions 10 1850 800 = Some ps
       /\ Z.of_nat (length ps) = Js.ceil (1850 / 800)
       /\ (forall (i : nat) (y : Q), ps !! i = Some y ->
             (y == inject_Z (Z.of_nat i) * 800)%Q).
Proof.
  split; [reflexivity|].
  destruct (C1_positions_accumulate 1850 800 10 eq_refl) as (_ & _ & Hint).
  apply (Hint 1850 800); [reflexivity | reflexivity | lia | lia | vm_compute; lia].
Defined.

(** The claim as written fails on doubles: with the step 600.2 and the
    target 4801.6, which is eight times the step, the eight additions
    leave [y] just below the target and the loop requests a ninth
    position. *)
Lemma C1_rounding_adds_a_step :
  let S := Js.num (6002 # 10) in
  let T := Js.num (48016 # 10) in
  (0 < T)%Q /\ (0 < S)%Q
  /\ (T == 8 * S)%Q
  /\ Js.ceil (T / S) = 8
  /\ exists ps : list Q,
       scrollPositions 1000 T S = Some ps
       /\ length ps = 9%nat
       /\ exists y : Q, ps !! 8%nat = Some y /\ (y < 8 * S)%Q.
Proof.
  intros S T.
  split; [reflexivity|]. split; [reflexivity|]. split; [reflexivity|].
  split; [vm_compute; reflexivity|].
  destruct (scrollPositions 1000 T S) as [ps|] eqn:Hps; [|vm_compute in Hps; discriminate].
  exists ps. vm_compute in Hps. injection Hps as <-.
  split; [reflexivity|]. split; [reflexivity|].
  eexists. split; [reflexivity|]. vm_compute. reflexivity.
Qed.

(** ** C2, C3, C9: the stitchers *)

Lemma dimension_small (fallback v : Z) :
  0 <= v <= 2147483647 -> Canvas.dimension fallback v = v.
Proof.
  intros Hv. unfold Canvas.dimension. rewrite Z.mod_small by lia.
  destruct (Z.leb_spec v 2147483647); [done | lia].
Qed.

Lemma dimension_negative (fallback v : Z) :
  -2147483648 <= v < 0 -> Canvas.dimension fallback v = fallback.
Proof.
  intros Hv. unfold Canvas.dimension.
  replace (v mod 4294967296) with (v + 4294967296).
  - destruct (Z.leb_spec (v + 4294967296) 2147483647); [lia | done].
  - apply (Z.mod_unique _ _ (-1)); lia.
Qed.

Section StitcherFacts.

Variable decode : string -> option Img.t.
Variable fits : Z -> Z -> bool.

Lemma toDataURL_png (canvas : Canvas.t) :
  0 < Canvas.width canvas -> 0 < Canvas.height canvas ->
  fits (Canvas.width canvas) (Canvas.height canvas) = true ->
  toDataURL fits canvas = PngOf canvas.
Proof.
  intros Hw Hh Hfits. unfold toDataURL. rewrite Hfits.
  destruct (Z.eqb_spec (Canvas.width canvas) 0); [lia|].
  destruct (Z.eqb_spec (Canvas.height canvas) 0); [lia | done].
Qed.

Lemma toDataURL_empty (canvas : Canvas.t) :
  Canvas.width canvas = 0 \/ Canvas.height canvas = 0
  \/ fits (Canvas.width canvas) (Canvas.height canvas) = false ->
  toDataURL fits canvas = Url "data:,".
Proof.
  unfold toDataURL. intros [-> | [-> | ->]]; simpl; [done | | ].
  - by rewrite orb_true_r.
  - by rewrite orb_true_r.
Qed.

Lemma loadImage_decodes (c : Capture) (img : Img.t) :
  decodesTo decode c img -> loadImage decode (dataUrl c) = Returned img.
Proof. unfold decodesTo, loadImage. intros ->. reflexivity. Qed.

Lemma drawCaptures_draws (H : Z) (d : Q) (captures : list Capture) (images : list Img.t) :
  Forall2 (decodesTo decode) captures images ->
  forall ops,
    drawCaptures decode captures H d ops = Returned (ops ++ documentDraws H d captures images).
Proof.
  induction 1 as [|c img captures images Hc _ IH]; intros ops.
  - simpl. unfold documentDraws. simpl. by rewrite app_nil_r.
  - simpl. rewrite (loadImage_decodes _ _ Hc), IH.
    unfold documentDraws. simpl. unfold documentFrameOp at 2.
    destruct (0 <? _); simpl; [by rewrite <- app_assoc | done].
Qed.

Lemma documentFrameOp_past (H : Z) (d offset : Q) (img : Img.t) :
  H <= Js.round (Js.mul offset d) -> documentFrameOp H d offset img = [].
Proof.
  intros Hpast. unfold documentFrameOp.
  destruct (Z.ltb_spec 0 (Z.min (Img.height img) (H - Js.round (Js.mul offset d))));
    [lia | done].
Qed.

Lemma documentDraws_In (H : Z) (d : Q) (captures : list Capture) (images : list Img.t)
    (op : CanvasOp) :
  In op (documentDraws H d captures images) ->
  exists (i : nat) (c : Capture) (img : Img.t),
    captures !! i = Some c /\ images !! i = Some img
    /\ In op (documentFrameOp H d (scrollY c) img).
Proof.
  unfold documentDraws. revert images.
  induction captures as [|c captures IH]; intros [|img images]; simpl; try done.
  rewrite in_app_iff. intros [Hin | Hin].
  - exists 0%nat, c, img. auto.
  - destruct (IH _ Hin) as (i & c' & img' & ? & ? & ?).
    exists (S i), c', img'. auto.
Qed.

(** C2, as the code has it.  For a non-empty sequence of frames that
    decode, a target offset [T > 0], a viewport width [W] and a pixel
    density [d], document-mode stitching sets up a canvas with
    [ceil (T * d)] assigned as height and [ceil (W * d)] as width, the
    products taken in double arithmetic, and fills it with white;
    after that each frame is drawn at row [round (offset * d)] clipped
    to the rows that remain, a frame whose row is at or past the height
    draws nothing, and every draw lies above the bottom of the
    surface.  When both sizes lie between 1 and 2^31 - 1 and the
    browser can hold the canvas, the result is the image of that
    canvas, of exactly that height and width; when a size is zero or
    the browser cannot hold the canvas, the result is the empty image
    "data:,". *)
Theorem C2_document_stitch (captures : list Capture) (images : list Img.t) (T W d : Q) :
  captures <> [] -> (0 < T)%Q ->
  Forall2 (decodesTo decode) captures images ->
  let surfaceHeight := Js.ceil (Js.mul T d) in
  let surfaceWidth := Js.ceil (Js.mul W d) in
  exists canvas : Canvas.t,
    stitchWindowScroll decode fits captures T W d = Returned (toDataURL fits canvas)
    /\ Canvas.height canvas = Canvas.dimension 150 surfaceHeight
    /\ Canvas.width canvas = Canvas.dimension 300 surfaceWidth
    /\ Canvas.ops canvas =
         FillRect "#ffffff" 0 0 surfaceWidth surfaceHeight
         :: documentDraws surfaceHeight d captures images
    /\ (forall (i : nat) (c : Capture) (img : Img.t),
          captures !! i = Some c -> images !! i = Some img ->
          surfaceHeight <= Js.round (Js.mul (scrollY c) d) ->
          documentFrameOp surfaceHeight d (scrollY c) img = [])
    /\ (forall img sx sy sw sh dx dy dw dh,
          In (DrawImage img sx sy sw sh dx dy dw dh) (Canvas.ops canvas) ->
          exists (i : nat) (c : Capture),
            captures !! i = Some c /\ images !! i = Some img
            /\ dy = Js.round (Js.mul (scrollY c) d)
            /\ dh = Z.min (Img.height img) (surfaceHeight - dy)
            /\ sy = 0 /\ sh = dh /\ 0 < dh /\ dy + dh <= surfaceHeight)
    /\ (1 <= surfaceHeight <= 2147483647 -> 1 <= surfaceWidth <= 2147483647 ->
        fits surfaceWidth surfaceHeight = true ->
        toDataURL fits canvas = PngOf canvas
        /\ Canvas.height canvas = surfaceHeight /\ Canvas.width canvas = surfaceWidth)
    /\ (Canvas.width canvas = 0 \/ Canvas.height canvas = 0
        \/ fits (Canvas.width canvas) (Canvas.height canvas) = false ->
        toDataURL fits canvas = Url "data:,").
Proof.
  intros _ _ Hdec surfaceHeight surfaceWidth.
  unfold stitchWindowScroll. fold surfaceHeight surfaceWidth.
  rewrite (drawCaptures_draws _ _ _ _ Hdec). simpl.
  eexists. split; [reflexivity|].
  split; [done|]. split; [done|]. split; [done|]. split; [|split; [|split]].
  - intros i c img _ _. apply documentFrameOp_past.
  - intros img sx sy sw sh dx dy dw dh [Hin | Hin]; [done|].
    apply documentDraws_In in Hin as (i & c & img' & Hc & Himg & Hin).
    unfold documentFrameOp in Hin.
    destruct (Z.ltb_spec 0 (Z.min (Img.height img')
                (surfaceHeight - Js.round (Js.mul (scrollY c) d)))) as [Hpos|]; [|done].
    destruct Hin as [[= -> <- <- <- <- <- <- <- <-] | []].
    exists i, c. repeat split; try done. lia.
  - intros Hh Hw Hfits. cbn [Canvas.height Canvas.width].
    rewrite (dimension_small 150 surfaceHeight) by lia.
    rewrite (dimension_small 300 surfaceWidth) by lia.
    split; [|done]. apply toDataURL_png; simpl; [lia | lia | done].
  - apply toDataURL_empty.
Qed.

Lemma loadImages_decodes (captures : list Capture) (images : list Img.t) :
  Forall2 (decodesTo decode) captures images ->
  loadImages decode captures = Returned images.
Proof.
  induction 1 as [|c img captures images Hc _ IH]; simpl; [done|].
  by rewrite (loadImage_decodes _ _ Hc), IH.
Qed.

Lemma drawStack_draws (H crop : Z) (lastImg : Img.t) (front : list Img.t) :
  Forall (fun img => Img.height img = H) front ->
  forall i n : nat,
    n = (i + length front + 1)%nat ->
    drawStack (front ++ [lastImg]) i n H crop =
      imap (fun j img => DrawImage img 0 0 (Img.width img) H
                                   0 (Z.of_nat (i + j) * H) (Img.width img) H) front
      ++ [DrawImage lastImg 0 0 (Img.width lastImg) crop
                    0 (Z.of_nat (i + length front) * H) (Img.width lastImg) crop].
Proof.
  induction 1 as [|img front Himg _ IH]; intros i n Hn; simpl in *.
  - replace (i <? n - 1)%nat with false by (symmetry; apply Nat.ltb_ge; lia).
    by rewrite Nat.add_0_r.
  - replace (i <? n - 1)%nat with true by (symmetry; apply Nat.ltb_lt; lia).
    rewrite Himg, Nat.add_0_r. f_equal.
    rewrite (IH (S i) n) by lia. f_equal.
    + apply imap_ext. intros j x _. simpl. by rewrite Nat.add_succ_r.
    + by rewrite Nat.add_succ_r.
Qed.

(** The canvas of container-mode stitching for frames of one height. *)
Lemma stitchContainerScroll_canvas (captures : list Capture) (front : list Img.t)
    (lastImg : Img.t) (lastCapture : Capture) (T W d : Q) (ctx : ScrollContext) (H : Z) :
  Forall2 (decodesTo decode) captures (front ++ [lastImg]) ->
  last captures = Some lastCapture ->
  Forall (fun img => Img.height img = H) (front ++ [lastImg]) ->
  let lastCropHeight :=
    Z.min (Js.ceil (Js.mul (Js.add (containerTop ctx) (Js.sub T (scrollY lastCapture))) d))
          H in
  let surfaceHeight := (Z.of_nat (length captures) - 1) * H + lastCropHeight in
  let surfaceWidth := Img.width (default lastImg (head front)) in
  stitchContainerScroll decode fits captures T W d ctx =
    Returned (toDataURL fits
      (Canvas.mk (Canvas.dimension 300 surfaceWidth) (Canvas.dimension 150 surfaceHeight)
         (FillRect "#ffffff" 0 0 surfaceWidth surfaceHeight
          :: containerDraws H lastCropHeight front lastImg))).
Proof.
  intros Hdec Hlast Hall lastCropHeight surfaceHeight surfaceWidth.
  unfold stitchContainerScroll.
  rewrite (loadImages_decodes _ _ Hdec), Hlast.
  assert (Hlen : length captures = (length front + 1)%nat).
  { rewrite (Forall2_length _ _ _ Hdec), length_app. simpl. lia. }
  assert (Hfirst : exists first rest, front ++ [lastImg] = first :: rest
                                      /\ Img.height first = H
                                      /\ first = default lastImg (head front)).
  { destruct front as [|f fs]; simpl in *.
    - exists lastImg, []. split; [done|]. split; [by inversion Hall | done].
    - exists f, (fs ++ [lastImg]). split; [done|]. split; [by inversion Hall | done]. }
  destruct Hfirst as (first & rest & Heq & HfH & Hfd).
  rewrite Heq. rewrite <- Heq. rewrite HfH, Hfd.
  fold lastCropHeight surfaceWidth.
  rewrite length_app. cbn [length].
  replace (Z.of_nat (length front + 1) - 1) with (Z.of_nat (length captures) - 1) by lia.
  fold surfaceHeight. do 4 f_equal.
  apply Forall_app in Hall as [Hfront _].
  by rewrite (drawStack_draws H lastCropHeight lastImg front Hfront 0 (length front + 1))
    by lia.
Qed.


(** The stitchers on an empty list of frames. *)
Lemma stitch_zero_frames (T W d : Q) (ctx : ScrollContext) :
  stitchContainerScroll decode fits [] T W d ctx = Returned (Url "")
  /\ stitchWindowScroll decode fits [] T W d =
       Returned (toDataURL fits
         (Canvas.mk (Canvas.dimension 300 (Js.ceil (Js.mul W d)))
                    (Canvas.dimension 150 (Js.ceil (Js.mul T d)))
            [FillRect "#ffffff" 0 0 (Js.ceil (Js.mul W d)) (Js.ceil (Js.mul T d))])).
Proof. split; reflexivity. Qed.

End StitcherFacts.

Lemma C2_document_stitch_witness :
  Demo.frames <> [] /\ (0 < 1850)%Q
  /\ Forall2 (decodesTo Demo.decode) Demo.frames
       [Img.mk "a" 2400 1600; Img.mk "b" 2400 1600; Img.mk "c" 2400 1600]
  /\ exists canvas : Canvas.t,
       stitchWindowScroll Demo.decode Demo.canvasLimit Demo.frames 1850 1200 2
       = Returned (PngOf canvas)
       /\ Canvas.height canvas = 3700 /\ Canvas.width canvas = 2400.
Proof.
  assert (Hne : Demo.frames <> []) by done.
  assert (HT : (0 < 1850)%Q) by reflexivity.
  assert (Hdec : Forall2 (decodesTo Demo.decode) Demo.frames
            [Img.mk "a" 2400 1600; Img.mk "b" 2400 1600; Img.mk "c" 2400 1600]).
  { repeat constructor. }
  split; [exact Hne|]. split; [exact HT|]. split; [exact Hdec|].
  destruct (C2_document_stitch Demo.decode Demo.canvasLimit Demo.frames _ 1850 1200 2
              Hne HT Hdec)
    as (canvas & Hrun & _ & _ & _ & _ & _ & Hpng & _).
  destruct Hpng as (Hurl & Hh & Hw); [vm_compute; split; discriminate ..| reflexivity |].
  exists canvas. rewrite Hrun, Hurl. split; [reflexivity|]. split; [exact Hh | exact Hw].
Defined.

(** The claim as written fails.  A surface of 2400 by 80000 pixels is
    more than the browser holds, and the result is the empty image;
    and the height is the ceiling of the rounded product: for the
    target 10 and the density 0.9 it is 9, where the exact product of
    the two doubles lies above 9. *)
Lemma C2_no_image_beyond_the_canvas_limit :
  stitchWindowScroll Demo.decode Demo.canvasLimit Demo.frames 40000 1200 2
  = Returned (Url "data:,")
  /\ Js.ceil (40000 * 2) = 80000
  /\ (exists canvas : Canvas.t,
        stitchWindowScroll Demo.decode Demo.canvasLimit Demo.frames 10 1200 (Js.num (9 # 10))
        = Returned (PngOf canvas)
        /\ Canvas.height canvas = 9)
  /\ Js.ceil (10 * Js.num (9 # 10)) = 10.
Proof.
  split; [vm_compute; reflexivity|]. split; [reflexivity|].
  split; [|vm_compute; reflexivity].
  eexists. split; [vm_compute; reflexivity | reflexivity].
Qed.


(** ** Reasoning rules for the controller monad *)

Lemma same_refl (w : World) : same w w.
Proof. by split. Qed.

Lemma same_trans (w1 w2 w3 : World) : same w1 w2 -> same w2 w3 -> same w1 w3.
Proof. intros [? ?] [? ?]. split; congruence. Qed.

Lemma quiet_ret {A} (a : A) : quiet (ret a).
Proof. intros w. exists a, w. split; [done | apply same_refl]. Qed.

Lemma quiet_get {A} (f : World -> A) : quiet (get f).
Proof. intros w. exists (f w), w. split; [done | apply same_refl]. Qed.

Lemma quiet_modify (f : World -> World) :
  (forall w, same w (f w)) -> quiet (modify f).
Proof. intros Hf w. exists tt, (f w). split; [done | apply Hf]. Qed.

Lemma quiet_bind {A B} (m : M A) (k : A -> M B) :
  quiet m -> (forall a, quiet (k a)) -> quiet (bind m k).
Proof.
  intros Hm Hk w. destruct (Hm w) as (a & w1 & Em & Hs1).
  destruct (Hk a w1) as (b & w2 & Ek & Hs2).
  exists b, w2. unfold bind. rewrite Em. split; [done | by eapply same_trans].
Qed.

Lemma quiet_whenSome (h : option nat) (body : nat -> M unit) :
  (forall i, h = Some i -> quiet (body i)) -> quiet (whenSome h body).
Proof. destruct h as [i|]; simpl; [auto | intros _; apply quiet_ret]. Qed.

Lemma quiet_remove (i : nat) : quiet (remove (Some i)).
Proof. apply quiet_modify. intros w. by split. Qed.

Create HintDb quiet.

#[local] Hint Resolve quiet_ret quiet_get quiet_remove : quiet.

Ltac quiet_step :=
  first
    [ apply quiet_bind; [| intros ?]
    | apply quiet_ret
    | apply quiet_get
    | apply quiet_modify; intros ?; split; reflexivity
    | apply quiet_whenSome; intros ? ?; subst
    | apply quiet_remove ].

Ltac quiet_auto := repeat quiet_step; eauto with quiet.

Lemma quiet_setClosure (c : nat) (cl : Closure) : quiet (setClosure c cl).
Proof. unfold setClosure. quiet_auto. Qed.

Lemma quiet_setDisplay (i : nat) (v : string) : quiet (setDisplay i v).
Proof. unfold setDisplay. quiet_auto. Qed.

Lemma quiet_setTextContent (i : nat) (v : string) : quiet (setTextContent i v).
Proof. unfold setTextContent. quiet_auto. Qed.

#[local] Hint Resolve quiet_setClosure quiet_setDisplay quiet_setTextContent : quiet.

Lemma quiet_deactivate (c : nat) : quiet (deactivate c).
Proof. unfold deactivate. quiet_auto. Qed.

Lemma quiet_activate (c : nat) : quiet (activate c).
Proof. unfold activate. quiet_auto. Qed.

#[local] Hint Resolve quiet_deactivate quiet_activate : quiet.

Lemma quiet_inject : quiet inject.
Proof.
  unfold inject. apply quiet_bind; [apply quiet_get|].
  intros [|]; quiet_auto.
Qed.

Lemma same_runHandlers (cs : list nat) (w : World) : same w (runHandlers cs w).
Proof.
  revert w. induction cs as [|c cs IH]; intros w; simpl; [apply same_refl|].
  eapply same_trans; [|apply IH].
  destruct (quiet_deactivate c w) as (a & w' & E & Hs). by rewrite E.
Qed.

Lemma same_deliver (a : Arrival) (w : World) : same w (deliver a w).
Proof.
  destruct a as [|b]; simpl.
  - destruct (quiet_inject w) as (a & w' & E & Hs). by rewrite E.
  - destruct (ui w !! b) as [u|]; [|apply same_refl].
    destruct (attached u); [apply same_runHandlers | apply same_refl].
Qed.

Lemma same_deliver_all (arrived : list Arrival) (w : World) :
  same w (foldl (fun w' a => deliver a w') w arrived).
Proof.
  revert w. induction arrived as [|a arrived IH]; intros w; simpl; [apply same_refl|].
  eapply same_trans; [apply same_deliver | apply IH].
Qed.

Section ControllerRules.

Variable host : Host.

Lemma quiet_await : quiet (await host).
Proof.
  intros w. eexists tt, _. split; [reflexivity|].
  eapply same_trans; [|apply same_deliver_all]. by split.
Qed.

Lemma quiet_delay (ms : Z) : quiet (delay host ms).
Proof. apply quiet_await. Qed.

Lemma quiet_waitForPaint : quiet (waitForPaint host).
Proof. apply quiet_await. Qed.

Lemma quiet_showProgress (c : nat) (text : string) : quiet (showProgress c text).
Proof. unfold showProgress. quiet_auto. Qed.

Lemma quiet_setProgressDisplay (c : nat) (v : string) : quiet (setProgressDisplay c v).
Proof. unfold setProgressDisplay. quiet_auto. Qed.

Lemma quiet_hideInteractiveUI (c : nat) : quiet (hideInteractiveUI c).
Proof. unfold hideInteractiveUI. quiet_auto. Qed.

Lemma quiet_hideOverlay (ctx : ScrollContext) : quiet (hideOverlay ctx).
Proof.
  intros w. unfold hideOverlay. destruct (hideOverlayElements ctx (page w)) as [hidden d].
  eexists _, _. split; [reflexivity|]. by split.
Qed.

Lemma quiet_restoreHidden (hidden : list OcclusionRecord) : quiet (restoreHidden hidden).
Proof. unfold restoreHidden. quiet_auto. Qed.

(** *** Rules for [spec] *)

Lemma spec_conseq {A} (P P' : World -> Prop) (m : M A)
    (Q Q' : A -> World -> Prop) (E E' : string -> World -> Prop) :
  spec P' m Q' E' ->
  (forall w, P w -> P' w) ->
  (forall a w, Q' a w -> Q a w) ->
  (forall e w, E' e w -> E e w) ->
  spec P m Q E.
Proof.
  intros Hm HP HQ HE w Hw. specialize (Hm w (HP w Hw)).
  destruct (m w) as [[a|e] w']; auto.
Qed.

Lemma spec_bind {A B} (P : World -> Prop) (m : M A) (k : A -> M B)
    (R : A -> World -> Prop) (Q : B -> World -> Prop) (E : string -> World -> Prop) :
  spec P m R E -> (forall a, spec (R a) (k a) Q E) -> spec P (bind m k) Q E.
Proof.
  intros Hm Hk w Hw. specialize (Hm w Hw). unfold bind.
  destruct (m w) as [[a|e] w']; [by apply Hk | done].
Qed.

Lemma spec_ret {A} (P : World -> Prop) (a : A) (E : string -> World -> Prop) :
  spec P (ret a) (fun a' w => a' = a /\ P w) E.
Proof. intros w Hw. by simpl. Qed.

Lemma spec_get {A} (P : World -> Prop) (f : World -> A) (E : string -> World -> Prop) :
  spec P (get f) (fun a w => a = f w /\ P w) E.
Proof. intros w Hw. by simpl. Qed.

Lemma spec_throw {A} (P : World -> Prop) (message : string) (Q : A -> World -> Prop) :
  spec P (throw message) Q (fun e w => e = message /\ P w).
Proof. intros w Hw. by simpl. Qed.

Lemma spec_quiet {A} (P : World -> Prop) (m : M A) (E : string -> World -> Prop) :
  quiet m -> stable P -> spec P m (fun _ => P) E.
Proof.
  intros Hm HP w Hw. destruct (Hm w) as (a & w' & -> & Hs). by eapply HP.
Qed.

Lemma spec_tryCatch (P : World -> Prop) (body : M unit) (handler : string -> M unit)
    (Q : unit -> World -> Prop) (R E : string -> World -> Prop) :
  spec P body Q R -> (forall e, spec (R e) (handler e) Q E) ->
  spec P (tryCatch body handler) Q E.
Proof.
  intros Hb Hh w Hw. specialize (Hb w Hw). unfold tryCatch.
  destruct (body w) as [[a|e] w']; [done | by apply Hh].
Qed.

(** A fact that does not depend on the world can be taken out of the
    precondition. *)
Lemma spec_pure {A} (F : Prop) (P : World -> Prop) (m : M A)
    (Q : A -> World -> Prop) (E : string -> World -> Prop) :
  (F -> spec P m Q E) -> spec (fun w => F /\ P w) m Q E.
Proof. intros H w [HF Hw]. by apply H. Qed.

Lemma stable_obs (l : list Effect) (f : option nat -> Q) : stable (obs l f).
Proof. intros w w' [Hl Hf] [? ?]. split; congruence. Qed.

Lemma stable_logIs (l : list Effect) : stable (logIs l).
Proof. intros w w' [Hl Hf] ?. unfold logIs in *. congruence. Qed.

Lemma spec_emit (l : list Effect) (e : Effect) (E : string -> World -> Prop) :
  spec (logIs l) (emit e) (fun _ => logIs (l ++ [e])) E.
Proof. intros w Hl. unfold logIs in *. simpl. congruence. Qed.

Lemma stable_settledAt (l : list Effect) (t : option nat) (y : Q) : stable (settledAt l t y).
Proof. intros w w' [Hl Hf] [? ?]. split; congruence. Qed.

Lemma spec_setScroll (l : list Effect) (ctx : ScrollContext) (y : Q)
    (E : string -> World -> Prop) :
  spec (logIs l) (setScroll host ctx y)
       (fun _ => settledAt (l ++ [ScrollTo (element ctx) y]) (element ctx)
                             (settle host (element ctx) y)) E.
Proof.
  intros w Hl. unfold logIs in Hl. simpl. split; simpl; [congruence|].
  by rewrite decide_True.
Qed.

Lemma spec_getScrollTop (P : World -> Prop) (ctx : ScrollContext)
    (E : string -> World -> Prop) :
  spec P (getScrollTop ctx) (fun y w => y = scrollOffset w (element ctx) /\ P w) E.
Proof. apply spec_get. Qed.

Lemma snapshotCalls_app (l l' : list Effect) :
  snapshotCalls (l ++ l') = (snapshotCalls l + snapshotCalls l')%nat.
Proof. unfold snapshotCalls. by rewrite List.filter_app, length_app. Qed.

Lemma spec_sendMessage_captureTab (l : list Effect) (E : string -> World -> Prop) :
  spec (logIs l) (sendMessage host captureTab)
       (fun r w => r = captureVisibleTab host (snapshotCalls l)
                   /\ logIs (l ++ [SendMessage captureTab]) w) E.
Proof.
  intros w Hl. unfold logIs in Hl. unfold sendMessage, bind, get, emit, modify, ret.
  destruct (quiet_await (withLog (log w ++ [SendMessage captureTab]) w))
    as ([] & w' & -> & Hs & _).
  simpl in Hs. split; [by rewrite Hl|]. unfold logIs. by rewrite Hs, Hl.
Qed.

End ControllerRules.

(** ** C10: teardown *)

Lemma lookup_insert_unset (c : nat) (cs : list Closure) :
  default (mkClosure None None None false)
          (<[c := mkClosure None None None false]> cs !! c)
  = mkClosure None None None false.
Proof.
  destruct (decide (c < length cs)%nat) as [Hlt|Hge].
  - by rewrite list_lookup_insert_eq.
  - rewrite list_insert_ge by lia. by rewrite lookup_ge_None_2 by lia.
Qed.

Lemma filter_ne_id (c : nat) (l : list nat) :
  c ∉ l -> filter (fun x => x ≠ c) l = l.
Proof.
  induction l as [|x l IH]; [done|].
  rewrite not_elem_of_cons. intros [Hne Hl].
  rewrite filter_cons_True by done. by rewrite IH.
Qed.

(** After [deactivate] the session is torn down, whatever it was doing. *)
Ltac world_cbn :=
  cbn [page scrollOffset hvppyCaptureActive hvppyCaptureDeactivate closures ui listeners
       log ticks withPage withScrollOffset withActive withDeactivate withClosures withUi
       withListeners withLog withTicks fst snd from_option id guideLineEl barEl progressEl
       isCapturing].

Lemma deactivate_tornDown (c : nat) (w : World) : tornDown c (snd (deactivate c w)).
Proof.
  destruct w as [pg offsets act exposed cls u ls lg tk].
  unfold deactivate, setClosure, whenSome, remove, bind, get, modify, ret, throw, tornDown,
    closureOf.
  world_cbn.
  destruct (cls !! c) as [[[g|] [b|] [p|] busy]|] eqn:E;
    repeat (progress (world_cbn; rewrite ?E));
    (split; [apply lookup_insert_unset | split; [| done]]);
    rewrite list_elem_of_filter; tauto.
Qed.

(** On a session that is already torn down [deactivate] changes nothing. *)
Lemma deactivate_fixed (c : nat) (w : World) :
  tornDown c w -> deactivate c w = (Returned tt, w).
Proof.
  intros (Hcl & Hls & Hact).
  assert (Hins : <[c := mkClosure None None None false]> (closures w) = closures w).
  { unfold closureOf in Hcl. destruct (closures w !! c) as [cl|] eqn:E.
    - simpl in Hcl. subst cl. by apply list_insert_id.
    - apply list_insert_ge. by apply lookup_ge_None. }
  apply (filter_ne_id c) in Hls.
  destruct w as [pg offsets act exposed cls u ls lg tk].
  unfold deactivate, setClosure, whenSome, remove, bind, get, modify, ret, throw.
  unfold closureOf in *. cbn in Hcl, Hls, Hact, Hins.
  repeat (progress (world_cbn; rewrite ?Hcl)).
  by rewrite Hins, Hls, Hact.
Qed.

(** What [deactivate] does, in one equation. *)
Lemma deactivate_result (c : nat) (w : World) :
  deactivate c w =
    (Returned tt,
     mkWorld (page w) (scrollOffset w) false (hvppyCaptureDeactivate w)
             (<[c := mkClosure None None None false]> (closures w))
             (detach (progressEl (closureOf w c))
                (detach (guideLineEl (closureOf w c))
                   (detach (barEl (closureOf w c)) (ui w))))
             (filter (fun l => l ≠ c) (listeners w)) (log w) (ticks w)).
Proof.
  destruct w as [pg offsets act exposed cls u ls lg tk].
  unfold deactivate, setClosure, whenSome, remove, bind, get, modify, ret, throw, closureOf,
    detach.
  world_cbn.
  destruct (cls !! c) as [[[g|] [b|] [p|] busy]|] eqn:E;
    repeat (progress (world_cbn; rewrite ?E)); reflexivity.
Qed.

(** An element a reference is detached through is out of the document
    afterwards, and detaching attaches nothing. *)
Lemma detach_lookup (h : option nat) (u : list UiEl) (j : nat) (e : UiEl) :
  detach h u !! j = Some e ->
  (h = Some j -> attached e = false)
  /\ exists e0, u !! j = Some e0 /\ (attached e = true -> attached e0 = true).
Proof.
  destruct h as [i|]; unfold detach.
  - destruct (decide (j = i)) as [-> | Hne].
    + rewrite list_lookup_alter_eq. destruct (u !! i) as [e0|]; [|done].
      intros [= <-]. split; [done|]. exists e0. done.
    + rewrite list_lookup_alter_ne by done. intros He.
      split; [intros [= ?]; congruence|]. by exists e.
  - intros He. split; [done|]. by exists e.
Qed.

(** After [deactivate] the elements the session referred to are out
    of the document. *)
Lemma deactivate_detaches (c : nat) (w : World) (i : nat) (e : UiEl) :
  Some i ∈ [barEl (closureOf w c); guideLineEl (closureOf w c); progressEl (closureOf w c)] ->
  ui (snd (deactivate c w)) !! i = Some e ->
  attached e = false.
Proof.
  rewrite deactivate_result. cbn [snd ui]. intros Hin He.
  apply detach_lookup in He as (Hp & e1 & He1 & Hp').
  apply detach_lookup in He1 as (Hg & e2 & He2 & Hg').
  apply detach_lookup in He2 as (Hb & _).
  destruct (attached e) eqn:Ha; [|done]. exfalso.
  specialize (Hp' eq_refl). specialize (Hg' Hp').
  rewrite !elem_of_cons, elem_of_nil in Hin.
  destruct Hin as [Hin | [Hin | [Hin | []]]]; symmetry in Hin.
  - specialize (Hb Hin). congruence.
  - specialize (Hg Hin). congruence.
  - specialize (Hp Hin). congruence.
Qed.

(** A session whose variables are unset and that does not listen is
    left alone by its [deactivate], which only clears the global flag. *)
Lemma deactivate_stale (c : nat) (w : World) :
  closureOf w c = mkClosure None None None false ->
  (c ∉ listeners w) ->
  deactivate c w = (Returned tt, withActive false w).
Proof.
  intros Hcl Hls. rewrite deactivate_result, Hcl. cbn [barEl guideLineEl progressEl detach].
  assert (Hins : <[c := mkClosure None None None false]> (closures w) = closures w).
  { unfold closureOf in Hcl. destruct (closures w !! c) as [cl|] eqn:E.
    - simpl in Hcl. subst cl. by apply list_insert_id.
    - apply list_insert_ge. by apply lookup_ge_None. }
  by rewrite Hins, (filter_ne_id c _ Hls).
Qed.



(** ** C7: a trigger while the global flag is set *)

Lemma inject_active (w : World) (c : nat) :
  hvppyCaptureActive w = true -> hvppyCaptureDeactivate w = Some c ->
  inject w = deactivate c w.
Proof.
  intros Hact Hexp. unfold inject, bind, get. simpl. rewrite Hact. simpl. by rewrite Hexp.
Qed.

Lemma deactivate_keeps_sessions (c : nat) (w : World) :
  length (closures (snd (deactivate c w))) = length (closures w).
Proof. rewrite deactivate_result. cbn [snd closures]. apply length_insert. Qed.

(** C7, as the code has it.  A trigger that arrives while the global
    flag is set runs the teardown of the session that exposed its
    [deactivate], in the [capturing] state exactly as in the
    [active-awaiting-click] state: the state becomes [inactive], the
    session is torn down, the elements its variables referred to are
    out of the document, no second session is created, and no call
    leaves the script. *)
Theorem C7_trigger_tears_down (w : World) (c : nat) :
  hvppyCaptureActive w = true ->
  hvppyCaptureDeactivate w = Some c ->
  inject w = deactivate c w
  /\ fst (inject w) = Returned tt
  /\ phase (snd (inject w)) = inactive
  /\ tornDown c (snd (inject w))
  /\ ui (snd (inject w)) =
       detach (progressEl (closureOf w c))
         (detach (guideLineEl (closureOf w c))
            (detach (barEl (closureOf w c)) (ui w)))
  /\ (forall i e,
        Some i ∈ [barEl (closureOf w c); guideLineEl (closureOf w c);
                  progressEl (closureOf w c)] ->
        ui (snd (inject w)) !! i = Some e -> attached e = false)
  /\ length (closures (snd (inject w))) = length (closures w)
  /\ log (snd (inject w)) = log w.
Proof.
  intros Hact Hexp. rewrite (inject_active w c Hact Hexp).
  pose proof (deactivate_tornDown c w) as Htd.
  split; [done|]. split; [by rewrite deactivate_result|]. split.
  { unfold phase. by destruct Htd as (_ & _ & ->). }
  split; [done|]. split; [by rewrite deactivate_result|].
  split; [intros i e; apply deactivate_detaches|].
  split; [apply deactivate_keeps_sessions | by rewrite deactivate_result].
Qed.

Lemma C7_trigger_tears_down_witness :
  hvppyCaptureActive Demo.busy = true
  /\ hvppyCaptureDeactivate Demo.busy = Some 0%nat
  /\ phase Demo.busy = capturing
  /\ attached <$> ui Demo.busy = [true; true; true]
  /\ inject Demo.busy = deactivate 0 Demo.busy
  /\ phase (snd (inject Demo.busy)) = inactive
  /\ tornDown 0 (snd (inject Demo.busy))
  /\ (forall i e, (i < 3)%nat -> ui (snd (inject Demo.busy)) !! i = Some e ->
        attached e = false)
  /\ log (snd (inject Demo.busy)) = log Demo.busy.
Proof.
  split; [reflexivity|]. split; [reflexivity|]. split; [reflexivity|].
  split; [reflexivity|].
  destruct (C7_trigger_tears_down Demo.busy 0 eq_refl eq_refl)
    as (H1 & _ & H3 & H4 & _ & H6 & _ & H8).
  split; [exact H1|]. split; [exact H3|]. split; [exact H4|]. split; [|exact H8].
  intros i e Hi He. apply (H6 i e); [|exact He].
  change (Some i ∈ [Some 0%nat; Some 1%nat; Some 2%nat]).
  destruct i as [|[|[|i]]]; [| | |lia]; rewrite !elem_of_cons; auto.
Defined.

(** The claim as written fails: in the [capturing] state a trigger is
    not ignored, it ends the session and takes its elements out of the
    document. *)
Lemma C7_trigger_while_capturing_not_ignored :
  phase Demo.busy = capturing
  /\ snd (inject Demo.busy) <> Demo.busy
  /\ phase (snd (inject Demo.busy)) = inactive
  /\ attached <$> ui Demo.busy = [true; true; true]
  /\ attached <$> ui (snd (inject Demo.busy)) = [false; false; false].
Proof.
  split; [reflexivity|]. split; [|repeat split; reflexivity].
  intros H. apply (f_equal hvppyCaptureActive) in H. vm_compute in H. discriminate.
Qed.

(** A run in which the icon is clicked while the first step is in
    flight: the session is torn down at once, and the pipeline still
    takes its three snapshots, stitches and sends the download. *)
Example toggle_in_flight_run :
  let r := onClick Demo.togglingHost 10 0 (Demo.click 1850) Demo.awaiting in
  fst r = Returned tt
  /\ snapshotCalls (log (snd r)) = 3%nat
  /\ length (List.filter isStitch (log (snd r))) = 1%nat
  /\ length (List.filter isDownload (log (snd r))) = 1%nat
  /\ phase (snd r) = inactive.
Proof. vm_compute. repeat split; reflexivity. Qed.

(** ** C4 and C5: runs of [onClick] *)

Section Runs.

Variable host : Host.

Lemma getTargetY_targetOffset (ctx : ScrollContext) (e : ClickEvent) (w : World) :
  getTargetY ctx e w = (Returned (targetOffset ctx e w), w).
Proof. unfold getTargetY, targetOffset. by destruct (type ctx). Qed.

(** The part of [onClick] that follows the reads of the click. *)
Lemma onClick_accepted (arrayLimit c : nat) (e : ClickEvent) (w : World) (ctx : ScrollContext) :
  isCapturing (closureOf w c) = false ->
  insideBar e || insideProgress e = false ->
  createScrollContext (page w) = Some ctx ->
  onClick host arrayLimit c e w =
    (hideInteractiveUI c >>
     showProgress c "Preparing capture…" >>
     tryCatch (performCapture host arrayLimit c ctx (targetOffset ctx e w)
                 (innerWidth (page w)) (pixelRatio (page w)) (title (page w)))
              (captureFailed host c) >>
     setScroll host ctx (scrollOffset w (element ctx)) >>
     deactivate c) (snd (setCapturing c w)).
Proof.
  intros Hbusy Hinside Hctx. unfold onClick.
  unfold bind at 1. unfold get at 1. rewrite Hbusy, Hinside.
  unfold bind at 1. unfold setCapturing at 1, setClosure, bind, get, modify.
  cbn [page withClosures]. rewrite Hctx, getTargetY_targetOffset.
  unfold getScrollTop, get, targetOffset. cbn [page scrollOffset withClosures].
  reflexivity.
Qed.

Lemma spec_deactivate (P : World -> Prop) (c : nat) (E : string -> World -> Prop) :
  stable P -> spec P (deactivate c) (fun _ w => P w /\ tornDown c w) E.
Proof.
  intros HP w Hw. pose proof (deactivate_tornDown c w) as Htd.
  destruct (quiet_deactivate c w) as ([] & w' & Ed & Hs). rewrite Ed in *.
  split; [by eapply HP | done].
Qed.

Lemma spec_captureFailed (l : list Effect) (c : nat) (message : string)
    (E : string -> World -> Prop) :
  spec (logIs l) (captureFailed host c message)
       (fun _ => logIs (l ++ [ConsoleError message])) E.
Proof.
  unfold captureFailed.
  eapply spec_bind; [apply spec_emit | intros []].
  eapply spec_bind;
    [apply spec_quiet; [apply quiet_showProgress | apply stable_logIs] | intros []].
  apply spec_quiet; [apply quiet_delay | apply stable_logIs].
Qed.

(** What is left of [onClick] once the click is accepted: whatever the
    capture does to the log, the scroll offset is then set back and the
    session is torn down. *)
Lemma spec_onClick_tail (l l' : list Effect) (c : nat) (ctx : ScrollContext)
    (capture : M unit) (original : Q) :
  spec (logIs l) (tryCatch capture (captureFailed host c))
       (fun _ => logIs l') (fun _ _ => False) ->
  spec (logIs l)
       (hideInteractiveUI c >>
        showProgress c "Preparing capture…" >>
        tryCatch capture (captureFailed host c) >>
        setScroll host ctx original >>
        deactivate c)
       (fun _ w => settledAt (l' ++ [ScrollTo (element ctx) original]) (element ctx)
                             (settle host (element ctx) original) w
                   /\ tornDown c w)
       (fun _ _ => False).
Proof.
  intros Hcapture.
  eapply spec_bind;
    [apply spec_quiet; [apply quiet_hideInteractiveUI | apply stable_logIs] | intros []].
  eapply spec_bind;
    [apply spec_quiet; [apply quiet_showProgress | apply stable_logIs] | intros []].
  eapply spec_bind; [exact Hcapture | intros []].
  eapply spec_bind; [apply spec_setScroll | intros []].
  apply spec_deactivate, stable_settledAt.
Qed.

(** From the rule for the tail to a run of [onClick]. *)
Lemma onClick_run (arrayLimit c : nat) (e : ClickEvent) (w : World) (ctx : ScrollContext)
    (l' : list Effect) :
  isCapturing (closureOf w c) = false ->
  insideBar e || insideProgress e = false ->
  createScrollContext (page w) = Some ctx ->
  settle host (element ctx) (scrollOffset w (element ctx)) = scrollOffset w (element ctx) ->
  spec (logIs (log w))
       (tryCatch (performCapture host arrayLimit c ctx (targetOffset ctx e w)
                    (innerWidth (page w)) (pixelRatio (page w)) (title (page w)))
                 (captureFailed host c))
       (fun _ => logIs l') (fun _ _ => False) ->
  exists w' : World,
    onClick host arrayLimit c e w = (Returned tt, w')
    /\ log w' = l' ++ [ScrollTo (element ctx) (scrollOffset w (element ctx))]
    /\ scrollOffset w' (element ctx) = scrollOffset w (element ctx)
    /\ tornDown c w'.
Proof.
  intros Hbusy Hinside Hctx Hsettle Hcapture.
  rewrite (onClick_accepted arrayLimit c e w ctx Hbusy Hinside Hctx).
  pose proof (spec_onClick_tail _ _ c ctx _ (scrollOffset w (element ctx)) Hcapture) as Htail.
  specialize (Htail (snd (setCapturing c w)) eq_refl).
  remember (snd (setCapturing c w)) as w1 eqn:Hw1. clear Hw1.
  match type of Htail with
  | let (_, _) := ?m w1 in _ => destruct (m w1) as [[[]|m'] w']
  end.
  - destruct Htail as [[Hlog Hoff] Htd].
    exists w'. rewrite Hoff, Hsettle. done.
  - destruct Htail.
Qed.

(** *** C5: a click at or above the top *)

Lemma quiet_performCapture_invalid (arrayLimit c : nat) (ctx : ScrollContext)
    (T W d : Q) (pageTitle : string) :
  (T <= 0)%Q -> quiet (performCapture host arrayLimit c ctx T W d pageTitle).
Proof.
  intros HT. unfold performCapture.
  replace (Js.leb T 0) with true by (symmetry; by apply leb_le).
  apply quiet_bind; [apply quiet_showProgress | intros _; apply quiet_delay].
Qed.

(** C5.  A click whose target offset is zero or negative makes no
    snapshot request, invokes neither the stitcher nor the persistence
    service, and ends the session: the only call that leaves the script
    sets the scroll offset back to the value it had, and the session is
    torn down. *)
Theorem C5_invalid_target (arrayLimit c : nat) (e : ClickEvent) (w : World)
    (ctx : ScrollContext) :
  isCapturing (closureOf w c) = false ->
  insideBar e || insideProgress e = false ->
  createScrollContext (page w) = Some ctx ->
  (targetOffset ctx e w <= 0)%Q ->
  settle host (element ctx) (scrollOffset w (element ctx)) = scrollOffset w (element ctx) ->
  exists w' : World,
    onClick host arrayLimit c e w = (Returned tt, w')
    /\ log w' = log w ++ [ScrollTo (element ctx) (scrollOffset w (element ctx))]
    /\ snapshotCalls (log w') = snapshotCalls (log w)
    /\ List.filter isStitch (log w') = List.filter isStitch (log w)
    /\ List.filter isDownload (log w') = List.filter isDownload (log w)
    /\ scrollOffset w' (element ctx) = scrollOffset w (element ctx)
    /\ tornDown c w'
    /\ phase w' = inactive.
Proof.
  intros Hbusy Hinside Hctx HT Hsettle.
  destruct (onClick_run arrayLimit c e w ctx (log w) Hbusy Hinside Hctx Hsettle)
    as (w' & Hrun & Hlog & Hoff & Htd).
  - intros w0 Hw0. unfold tryCatch.
    destruct (quiet_performCapture_invalid arrayLimit c ctx _ (innerWidth (page w))
                (pixelRatio (page w)) (title (page w)) HT w0) as ([] & w1 & -> & Hs & _).
    unfold logIs in *. congruence.
  - exists w'. split; [done|]. split; [done|].
    rewrite Hlog. unfold snapshotCalls. rewrite !List.filter_app, length_app. simpl.
    rewrite !app_nil_r, Nat.add_0_r.
    do 5 (split; [done|]).
    unfold phase. by destruct Htd as (_ & _ & ->).
Qed.

(** *** C4: a snapshot request that fails *)

Ltac quiet_then lem :=
  eapply spec_bind; [apply spec_quiet; [apply lem | apply stable_logIs] | intros ?].

Lemma snapshotCalls_scroll (l : list Effect) (t : option nat) (y : Q) :
  snapshotCalls (l ++ [ScrollTo t y]) = snapshotCalls l.
Proof. rewrite snapshotCalls_app. unfold snapshotCalls. simpl. lia. Qed.

Lemma snapshotCalls_step (l : list Effect) (ctx : ScrollContext) (y : Q) :
  snapshotCalls (l ++ stepCalls ctx y) = S (snapshotCalls l).
Proof. rewrite snapshotCalls_app. unfold snapshotCalls. simpl. lia. Qed.

Lemma spec_setScroll_log (l : list Effect) (ctx : ScrollContext) (y : Q)
    (E : string -> World -> Prop) :
  spec (logIs l) (setScroll host ctx y)
       (fun _ => logIs (l ++ [ScrollTo (element ctx) y])) E.
Proof.
  intros w Hl. pose proof (spec_setScroll host l ctx y E w Hl) as H.
  destruct (setScroll host ctx y w) as [[a|e] w']; [apply H|].
  simpl in H. done.
Qed.

(** The capture loop when the answer to its [k]-th request from now
    carries an error and the earlier answers are accepted: the loop
    throws that error after [k + 1] steps and no further call. *)
Lemma spec_captureLoop_fails (c : nat) (ctx : ScrollContext) (url : option string)
    (message : string) :
  Js.truthy message = true ->
  forall (ps : list Q) (k i n : nat) (caps : list Capture) (l : list Effect),
    (k < length ps)%nat ->
    (forall j, (j < k)%nat -> accepted (captureVisibleTab host (snapshotCalls l + j))) ->
    captureVisibleTab host (snapshotCalls l + k) = Answer url (Some message) ->
    spec (logIs l) (captureLoop host c ctx ps i n caps)
         (fun _ _ => False)
         (fun e w => e = message
                     /\ logIs (l ++ concat (stepCalls ctx <$> take (S k) ps)) w).
Proof.
  intros Htruthy. induction ps as [|p ps IH]; intros k i n caps l Hk Hacc Hfail.
  { simpl in Hk. lia. }
  cbn [captureLoop].
  quiet_then quiet_showProgress.
  eapply spec_bind; [apply spec_setScroll_log | intros ?].
  quiet_then quiet_waitForPaint.
  quiet_then quiet_delay.
  quiet_then (quiet_get (fun w => scrollOffset w (element ctx))).
  quiet_then quiet_setProgressDisplay.
  quiet_then quiet_hideOverlay.
  quiet_then quiet_waitForPaint.
  quiet_then quiet_delay.
  eapply spec_bind; [apply spec_sendMessage_captureTab | intros response].
  apply spec_pure. intros ->. rewrite snapshotCalls_scroll.
  quiet_then quiet_restoreHidden.
  quiet_then quiet_setProgressDisplay.
  destruct k as [|k].
  - rewrite Nat.add_0_r in Hfail. rewrite Hfail. simpl default. rewrite Htruthy.
    intros w Hl. unfold throw. split; [done|]. unfold logIs in *. rewrite Hl.
    simpl. by rewrite <- !app_assoc.
  - pose proof (Hacc 0%nat ltac:(lia)) as H0. rewrite Nat.add_0_r in H0.
    destruct (captureVisibleTab host (snapshotCalls l)) as [|url0 error0]; [done|].
    simpl in H0. rewrite H0.
    eapply spec_conseq;
      [apply (IH k (S i) n _ ((l ++ [ScrollTo (element ctx) p]) ++ [SendMessage captureTab]))
      | done | done |].
    + simpl in Hk. lia.
    + intros j Hj. rewrite <- app_assoc. change ([?a] ++ [?b]) with (stepCalls ctx p).
      rewrite snapshotCalls_step. replace (S (snapshotCalls l) + j)%nat
        with (snapshotCalls l + S j)%nat by lia. apply Hacc. lia.
    + rewrite <- app_assoc. change ([?a] ++ [?b]) with (stepCalls ctx p).
      rewrite snapshotCalls_step. replace (S (snapshotCalls l) + k)%nat
        with (snapshotCalls l + S k)%nat by lia. exact Hfail.
    + intros e w [-> Hl]. split; [done|]. unfold logIs in *. rewrite Hl.
      simpl. by rewrite <- !app_assoc.
Qed.

Lemma spec_performCapture_fails (arrayLimit c : nat) (ctx : ScrollContext) (T W d : Q)
    (pageTitle : string) (ps : list Q) (k : nat) (url : option string) (message : string)
    (l : list Effect) :
  (0 < T)%Q ->
  scrollPositions arrayLimit T (scrollStep ctx) = Some ps ->
  (k < length ps)%nat ->
  (forall j, (j < k)%nat -> accepted (captureVisibleTab host (snapshotCalls l + j))) ->
  captureVisibleTab host (snapshotCalls l + k) = Answer url (Some message) ->
  Js.truthy message = true ->
  spec (logIs l) (performCapture host arrayLimit c ctx T W d pageTitle)
       (fun _ _ => False)
       (fun e w => e = message
                   /\ logIs (l ++ concat (stepCalls ctx <$> take (S k) ps)) w).
Proof.
  intros HT Hps Hk Hacc Hfail Htruthy. unfold performCapture.
  replace (Js.leb T 0) with false.
  2:{ symmetry. apply not_true_iff_false. rewrite leb_le. by apply Qlt_not_le. }
  rewrite Hps.
  eapply spec_bind.
  - by apply (spec_captureLoop_fails c ctx url message Htruthy ps k).
  - intros a w [].
Qed.

Lemma calls_of_steps (ctx : ScrollContext) (qs : list Q) :
  snapshotCalls (concat (stepCalls ctx <$> qs)) = length qs
  /\ List.filter isStitch (concat (stepCalls ctx <$> qs)) = []
  /\ List.filter isDownload (concat (stepCalls ctx <$> qs)) = [].
Proof.
  induction qs as [|q qs (IH1 & IH2 & IH3)]; [done|].
  rewrite fmap_cons, concat_cons. unfold snapshotCalls in *.
  rewrite !List.filter_app, length_app, IH1, IH2, IH3. done.
Qed.

(** C4, as the code has it.  Let the click be accepted with a target
    offset [T > 0], let the sequencer have built the positions [ps],
    and let the answer to the snapshot request of step [k] carry a
    non-empty error message while the earlier answers are accepted.
    Then the run makes exactly [k] snapshot requests, one for each of
    the first [k] positions; the remaining steps, the stitcher and the
    persistence service are never reached; the error is reported, the
    scroll offset is set back to the value it had before the click, and
    the session is torn down. *)
Theorem C4_snapshot_failure_aborts (arrayLimit c : nat) (e : ClickEvent) (w : World)
    (ctx : ScrollContext) (ps : list Q) (k : nat) (url : option string)
    (message : string) :
  isCapturing (closureOf w c) = false ->
  insideBar e || insideProgress e = false ->
  createScrollContext (page w) = Some ctx ->
  (0 < targetOffset ctx e w)%Q ->
  scrollPositions arrayLimit (targetOffset ctx e w) (scrollStep ctx) = Some ps ->
  (1 <= k <= length ps)%nat ->
  (forall j, (j < k - 1)%nat ->
     accepted (captureVisibleTab host (snapshotCalls (log w) + j))) ->
  captureVisibleTab host (snapshotCalls (log w) + (k - 1)) = Answer url (Some message) ->
  Js.truthy message = true ->
  settle host (element ctx) (scrollOffset w (element ctx)) = scrollOffset w (element ctx) ->
  exists w' : World,
    onClick host arrayLimit c e w = (Returned tt, w')
    /\ log w' = log w ++ concat (stepCalls ctx <$> take k ps)
                      ++ [ConsoleError message;
                          ScrollTo (element ctx) (scrollOffset w (element ctx))]
    /\ snapshotCalls (log w') = (snapshotCalls (log w) + k)%nat
    /\ List.filter isStitch (log w') = List.filter isStitch (log w)
    /\ List.filter isDownload (log w') = List.filter isDownload (log w)
    /\ scrollOffset w' (element ctx) = scrollOffset w (element ctx)
    /\ tornDown c w'
    /\ phase w' = inactive.
Proof.
  intros Hbusy Hinside Hctx HT Hps Hk Hacc Hfail Htruthy Hsettle.
  destruct (onClick_run arrayLimit c e w ctx
              ((log w ++ concat (stepCalls ctx <$> take k ps)) ++ [ConsoleError message])
              Hbusy Hinside Hctx Hsettle)
    as (w' & Hrun & Hlog & Hoff & Htd).
  - eapply (spec_tryCatch _ _ _ _
              (fun m w0 => m = message
                 /\ logIs (log w ++ concat (stepCalls ctx <$> take (S (k - 1)) ps)) w0)).
    + eapply spec_conseq;
        [apply (spec_performCapture_fails arrayLimit c ctx _ _ _ _ ps (k - 1) url message
                  (log w) HT Hps ltac:(lia) Hacc Hfail Htruthy)
        | done | intros ? ? [] | done].
    + intros m. apply spec_pure. intros ->.
      replace (S (k - 1)) with k by lia. apply spec_captureFailed.
  - exists w'. split; [done|].
    destruct (calls_of_steps ctx (take k ps)) as (Hc1 & Hc2 & Hc3).
    rewrite length_take in Hc1.
    assert (Hlogeq : log w' = log w ++ concat (stepCalls ctx <$> take k ps)
                       ++ [ConsoleError message;
                           ScrollTo (element ctx) (scrollOffset w (element ctx))]).
    { rewrite Hlog. by rewrite <- !app_assoc. }
    split; [done|]. rewrite Hlogeq. unfold snapshotCalls in *.
    rewrite !List.filter_app, !length_app, Hc1, Hc2, Hc3. simpl.
    rewrite !app_nil_r.
    split; [lia|]. do 4 (split; [done|]).
    unfold phase. by destruct Htd as (_ & _ & ->).
Qed.

End Runs.

(** ** C8: the scroll-context resolver *)

Lemma qualifies_iff (e : El.t) :
  qualifies e = true <->
  (El.overflowY e = "auto" \/ El.overflowY e = "scroll" \/ El.overflowY e = "overlay")
  /\ El.clientHeight e + 10 < El.scrollHeight e
  /\ 100 < El.clientHeight e.
Proof.
  unfold qualifies.
  rewrite !andb_true_iff, !orb_true_iff, !String.eqb_eq, !Z.ltb_lt. tauto.
Qed.

Lemma isDocumentScrollable_iff (p : Page) (docEl bodyEl : El.t) :
  nodes p !! documentElement p = Some docEl ->
  nodes p !! body p = Some bodyEl ->
  exists b : bool,
    isDocumentScrollable p = Some b
    /\ (b = true <->
        ~ (El.overflowY docEl = "hidden" /\ El.overflowY bodyEl = "hidden")
        /\ (innerHeight p + 50 < inject_Z (El.scrollHeight docEl))%Q).
Proof.
  intros Hdoc Hbody. unfold isDocumentScrollable. rewrite Hdoc, Hbody. simpl.
  destruct (String.eqb (El.overflowY docEl) "hidden" && String.eqb (El.overflowY bodyEl) "hidden")
    eqn:Hblocked.
  - exists false. split; [done|].
    apply andb_true_iff in Hblocked as [H1%String.eqb_eq H2%String.eqb_eq].
    split; [done | tauto].
  - eexists. split; [reflexivity|]. rewrite ltb_lt.
    apply andb_false_iff in Hblocked.
    rewrite <- !not_true_iff_false, !String.eqb_eq in Hblocked. tauto.
Qed.

(** The selection made by the breadth-first loop, relative to the
    candidate [best] of area [maxArea] it starts from: either no
    visited candidate beats [maxArea] and [best] is kept, or the
    result is the first visited candidate of largest area. *)
Lemma bfsLoop_selects (d : Dom) :
  forall (budget : nat) (queue : list nat) (best : option nat) (maxArea : Z),
    (bfsLoop budget d queue best maxArea = best
     /\ forall h el, h ∈ bfsVisited budget d queue -> d !! h = Some el ->
          qualifies el = true -> area el <= maxArea)
    \/ (exists pre h post el,
          bfsVisited budget d queue = pre ++ h :: post
          /\ bfsLoop budget d queue best maxArea = Some h
          /\ d !! h = Some el /\ qualifies el = true /\ maxArea < area el
          /\ (forall h' el', h' ∈ pre -> d !! h' = Some el' ->
                qualifies el' = true -> area el' < area el)
          /\ (forall h' el', h' ∈ post -> d !! h' = Some el' ->
                qualifies el' = true -> area el' <= area el)).
Proof.
  induction budget as [|budget IH]; intros queue best maxArea.
  { left. split; [done|]. simpl. intros h el Hin. by apply elem_of_nil in Hin. }
  destruct queue as [|h queue].
  { left. split; [done|]. simpl. intros h el Hin. by apply elem_of_nil in Hin. }
  simpl. destruct (d !! h) as [el|] eqn:Hh; [|apply IH].
  destruct (negb (El.nodeType el =? 1)); [apply IH|].
  destruct (El.isOwn el); [apply IH|].
  destruct (qualifies el && (maxArea <? area el)) eqn:Hbetter.
  - apply andb_true_iff in Hbetter as [Hq Hgt%Z.ltb_lt].
    destruct (IH (enqueue queue (El.children el)) (Some h) (area el))
      as [[Hr Hle] | (pre & h' & post & el' & Hvis & Hr & Hh' & Hq' & Hgt' & Hpre & Hpost)].
    + right. exists [], h, (bfsVisited budget d (enqueue queue (El.children el))), el.
      split; [done|]. split; [done|]. split; [done|]. split; [done|]. split; [done|].
      split; [|done]. intros ? ? Hin. by apply elem_of_nil in Hin.
    + right. exists (h :: pre), h', post, el'.
      split; [by rewrite Hvis|]. split; [done|]. split; [done|]. split; [done|].
      split; [lia|]. split; [|done].
      intros h0 el0 Hin Hh0 Hq0. apply elem_of_cons in Hin as [-> | Hin].
      * rewrite Hh in Hh0. injection Hh0 as <-. lia.
      * by eapply Hpre.
  - assert (Hle0 : qualifies el = true -> area el <= maxArea).
    { intros Hq. rewrite Hq in Hbetter. simpl in Hbetter. by apply Z.ltb_ge. }
    destruct (IH (enqueue queue (El.children el)) best maxArea)
      as [[Hr Hle] | (pre & h' & post & el' & Hvis & Hr & Hh' & Hq' & Hgt' & Hpre & Hpost)].
    + left. split; [done|].
      intros h0 el0 Hin Hh0 Hq0. apply elem_of_cons in Hin as [-> | Hin].
      * rewrite Hh in Hh0. injection Hh0 as <-. auto.
      * by eapply Hle.
    + right. exists (h :: pre), h', post, el'.
      split; [by rewrite Hvis|]. split; [done|]. split; [done|]. split; [done|].
      split; [done|]. split; [|done].
      intros h0 el0 Hin Hh0 Hq0. apply elem_of_cons in Hin as [-> | Hin].
      * rewrite Hh in Hh0. injection Hh0 as <-. specialize (Hle0 Hq0). lia.
      * by eapply Hpre.
Qed.

(** C8, as the code has it.  The document is deemed scrollable unless
    root and body both hide their vertical overflow, and only if the
    content height of the root exceeds the viewport height by more than
    50; then no container is looked for.  Otherwise a visited element
    qualifies iff its overflow-y is auto, scroll or overlay, its scroll
    height exceeds its client height by more than 10 and its client
    height exceeds 100; the result is the first element, in traversal
    order, of largest area among the visited qualifying elements,
    provided that area is positive, and none when no visited qualifying
    element has a positive area. *)
Theorem C8_resolver_selection (p : Page) (docEl bodyEl : El.t) :
  nodes p !! documentElement p = Some docEl ->
  nodes p !! body p = Some bodyEl ->
  let documentScrolls :=
    ~ (El.overflowY docEl = "hidden" /\ El.overflowY bodyEl = "hidden")
    /\ (innerHeight p + 50 < inject_Z (El.scrollHeight docEl))%Q in
  let visited := bfsVisited 2000 (nodes p) (El.children bodyEl) in
  (exists b : bool, isDocumentScrollable p = Some b /\ (b = true <-> documentScrolls))
  /\ (forall el : El.t,
        qualifies el = true <->
        (El.overflowY el = "auto" \/ El.overflowY el = "scroll"
         \/ El.overflowY el = "overlay")
        /\ El.clientHeight el + 10 < El.scrollHeight el
        /\ 100 < El.clientHeight el)
  /\ (documentScrolls -> findScrollContainer p = Some None)
  /\ (~ documentScrolls ->
      exists result : option nat,
        findScrollContainer p = Some result
        /\ match result with
           | Some h =>
               exists pre post el,
                 visited = pre ++ h :: post
                 /\ nodes p !! h = Some el /\ qualifies el = true /\ 0 < area el
                 /\ (forall h' el', h' ∈ pre -> nodes p !! h' = Some el' ->
                       qualifies el' = true -> area el' < area el)
                 /\ (forall h' el', h' ∈ post -> nodes p !! h' = Some el' ->
                       qualifies el' = true -> area el' <= area el)
           | None =>
               forall h el, h ∈ visited -> nodes p !! h = Some el ->
                 qualifies el = true -> area el <= 0
           end).
Proof.
  intros Hdoc Hbody documentScrolls visited.
  destruct (isDocumentScrollable_iff p docEl bodyEl Hdoc Hbody) as (b & Hb & Hiff).
  split; [by exists b|]. split; [apply qualifies_iff|].
  unfold findScrollContainer, visited. clear visited.
  generalize 2000%nat as budget. intros budget.
  rewrite Hb. cbn [mbind option_bind]. split.
  - intros Hs. apply Hiff in Hs. by subst b.
  - intros Hns. destruct b; [by destruct Hns; apply Hiff|].
    rewrite Hbody. cbn [mbind option_bind]. eexists. split; [reflexivity|].
    destruct (bfsLoop_selects (nodes p) budget (El.children bodyEl) None 0)
      as [[-> Hle] | (pre & h & post & el & Hvis & -> & Hh & Hq & Hgt & Hpre & Hpost)].
    + exact Hle.
    + exists pre, post, el. done.
Qed.

(** ** The theorems on concrete pages *)

Lemma C4_snapshot_failure_witness :
  let ctx := mkCtx window None 0 800 in
  let e := Demo.click 1850 in
  let w := Demo.awaiting in
  isCapturing (closureOf w 0) = false
  /\ insideBar e || insideProgress e = false
  /\ createScrollContext (page w) = Some ctx
  /\ (0 < targetOffset ctx e w)%Q
  /\ scrollPositions 10 (targetOffset ctx e w) (scrollStep ctx) = Some [0%Q; 800%Q; 1600%Q]
  /\ captureVisibleTab Demo.failingHost (snapshotCalls (log w) + (2 - 1))
     = Answer None (Some "capture rejected")
  /\ exists w' : World,
       onClick Demo.failingHost 10 0 e w = (Returned tt, w')
       /\ log w' = log w ++ concat (stepCalls ctx <$> [0%Q; 800%Q])
                         ++ [ConsoleError "capture rejected";
                             ScrollTo (element ctx) (scrollOffset w (element ctx))]
       /\ snapshotCalls (log w') = (snapshotCalls (log w) + 2)%nat
       /\ List.filter isStitch (log w') = List.filter isStitch (log w)
       /\ List.filter isDownload (log w') = List.filter isDownload (log w)
       /\ scrollOffset w' (element ctx) = scrollOffset w (element ctx)
       /\ tornDown 0 w'
       /\ phase w' = inactive.
Proof.
  intros ctx e w.
  assert (H1 : isCapturing (closureOf w 0) = false) by reflexivity.
  assert (H2 : insideBar e || insideProgress e = false) by reflexivity.
  assert (H3 : createScrollContext (page w) = Some ctx) by (vm_compute; reflexivity).
  assert (H4 : (0 < targetOffset ctx e w)%Q) by reflexivity.
  assert (H5 : scrollPositions 10 (targetOffset ctx e w) (scrollStep ctx)
               = Some [0%Q; 800%Q; 1600%Q]) by (vm_compute; reflexivity).
  assert (H7 : captureVisibleTab Demo.failingHost (snapshotCalls (log w) + (2 - 1))
               = Answer None (Some "capture rejected")) by reflexivity.
  do 5 (split; [assumption|]). split; [exact H7|].
  apply (C4_snapshot_failure_aborts Demo.failingHost 10 0 e w ctx [0%Q; 800%Q; 1600%Q] 2
           None "capture rejected" H1 H2 H3 H4 H5).
  - simpl. lia.
  - intros j Hj. assert (j = 0)%nat as -> by lia. reflexivity.
  - exact H7.
  - reflexivity.
  - reflexivity.
Defined.

(** The claim as written fails for a response whose error message is
    empty, which is what the service worker sends when the rejection
    carries no message: the test of line 249 takes the empty string
    for no error.  The loop goes on, all three snapshot requests are
    made, and the stitcher is called with a frame that has no image. *)
Lemma C4_empty_error_message_not_detected :
  let e := Demo.click 1850 in
  let w := Demo.awaiting in
  let r := onClick Demo.emptyErrorHost 10 0 e w in
  captureVisibleTab Demo.emptyErrorHost 1 = Bg.captureTabResponse (Bg.Rejected "")
  /\ fst r = Returned tt
  /\ snapshotCalls (log (snd r)) = 3%nat
  /\ List.filter isStitch (log (snd r)) =
       [StitchCaptures [mkCapture (Some "data:image/png;base64,AA") 0;
                        mkCapture None 800;
                        mkCapture (Some "data:image/png;base64,AA") 1600]].
Proof. vm_compute. repeat split; reflexivity. Qed.

Lemma C5_invalid_target_witness :
  let ctx := mkCtx window None 0 800 in
  let e := Demo.click 0 in
  let w := Demo.awaiting in
  isCapturing (closureOf w 0) = false
  /\ insideBar e || insideProgress e = false
  /\ createScrollContext (page w) = Some ctx
  /\ (targetOffset ctx e w <= 0)%Q
  /\ exists w' : World,
       onClick Demo.host 10 0 e w = (Returned tt, w')
       /\ log w' = log w ++ [ScrollTo (element ctx) (scrollOffset w (element ctx))]
       /\ snapshotCalls (log w') = snapshotCalls (log w)
       /\ List.filter isStitch (log w') = List.filter isStitch (log w)
       /\ List.filter isDownload (log w') = List.filter isDownload (log w)
       /\ scrollOffset w' (element ctx) = scrollOffset w (element ctx)
       /\ tornDown 0 w'
       /\ phase w' = inactive.
Proof.
  intros ctx e w.
  assert (H1 : isCapturing (closureOf w 0) = false) by reflexivity.
  assert (H2 : insideBar e || insideProgress e = false) by reflexivity.
  assert (H3 : createScrollContext (page w) = Some ctx) by (vm_compute; reflexivity).
  assert (H4 : (targetOffset ctx e w <= 0)%Q) by (vm_compute; discriminate).
  do 4 (split; [assumption|]).
  apply (C5_invalid_target Demo.host 10 0 e w ctx H1 H2 H3 H4). reflexivity.
Defined.

(** On the container page the larger of the two scrollable panes is
    selected, though it is visited after the smaller one. *)
Lemma C8_resolver_selection_witness :
  let p := Demo.containerPage in
  exists docEl bodyEl : El.t,
    nodes p !! documentElement p = Some docEl
    /\ nodes p !! body p = Some bodyEl
    /\ findScrollContainer p = Some (Some 4%nat)
    /\ exists result : option nat,
         findScrollContainer p = Some result
         /\ match result with
            | Some h =>
                exists pre post el,
                  bfsVisited 2000 (nodes p) (El.children bodyEl) = pre ++ h :: post
                  /\ nodes p !! h = Some el /\ qualifies el = true /\ 0 < area el
                  /\ (forall h' el', h' ∈ pre -> nodes p !! h' = Some el' ->
                        qualifies el' = true -> area el' < area el)
                  /\ (forall h' el', h' ∈ post -> nodes p !! h' = Some el' ->
                        qualifies el' = true -> area el' <= area el)
            | None =>
                forall h el,
                  h ∈ bfsVisited 2000 (nodes p) (El.children bodyEl) ->
                  nodes p !! h = Some el -> qualifies el = true -> area el <= 0
            end.
Proof.
  intros p.
  destruct (nodes p !! documentElement p) as [docEl|] eqn:Hdoc; [|discriminate].
  destruct (nodes p !! body p) as [bodyEl|] eqn:Hbody; [|discriminate].
  exists docEl, bodyEl. split; [reflexivity|]. split; [reflexivity|].
  split; [vm_compute; reflexivity|].
  destruct (C8_resolver_selection p docEl bodyEl Hdoc Hbody) as (_ & _ & _ & Hsel).
  apply Hsel. intros [Hblock _]. apply Hblock.
  injection Hdoc as <-. injection Hbody as <-. split; reflexivity.
Defined.

(** The claim as written fails: the only scrollable container of the
    collapsed page qualifies, yet no container is selected, because
    its area is not positive. *)
Lemma C8_zero_area_candidate_not_selected :
  let p := Demo.collapsedPage in
  isDocumentScrollable p = Some false
  /\ bfsVisited 2000 (nodes p) [2%nat] = [2%nat]
  /\ (exists el, nodes p !! 2%nat = Some el /\ qualifies el = true /\ area el = 0)
  /\ findScrollContainer p = Some None.
Proof.
  intros p. split; [vm_compute; reflexivity|]. split; [vm_compute; reflexivity|].
  split; [|vm_compute; reflexivity].
  eexists. split; [reflexivity|]. split; reflexivity.
Qed.

(** C6, on the code.  The fixed header of the demo page carries an
    inline [visibility: visible !important].  Suppression records the
    value "visible"; restoration writes it back without the priority,
    so the element does not return to its state before suppression. *)
Theorem C6_priority_lost_on_restore :
  let ctx := mkCtx window None 0 800 in
  let hidden := fst (hideOverlayElements ctx Demo.page) in
  let suppressed := snd (hideOverlayElements ctx Demo.page) in
  let restored := restoreHiddenElements hidden suppressed in
  hidden = [mkRecord 2 "visible"]
  /\ El.visibility <$> nodes Demo.page !! 2%nat = Some (Some (mkDecl "visible" true))
  /\ El.visibility <$> suppressed !! 2%nat = Some (Some (mkDecl "hidden" true))
  /\ El.visibility <$> restored !! 2%nat = Some (Some (mkDecl "visible" false))
  /\ restored <> nodes Demo.page.
Proof.
  intros ctx hidden suppressed restored.
  split; [reflexivity|]. split; [reflexivity|]. split; [reflexivity|].
  split; [reflexivity|].
  intros H. apply (f_equal (fun d => El.visibility <$> d !! 2%nat)) in H.
  vm_compute in H. discriminate.
Qed.

(** ** C9: the stitchers and the empty list of frames *)

Lemma stable_noEmptyStitch : stable (fun w => noEmptyStitch (log w)).
Proof. intros w w' [Hl _] H. by rewrite Hl. Qed.

Lemma noEmptyStitch_snoc (l : list Effect) (e : Effect) :
  noEmptyStitch l ->
  (forall captures, e = StitchCaptures captures -> captures <> []) ->
  noEmptyStitch (l ++ [e]).
Proof.
  intros Hl He captures Hin. apply in_app_or in Hin as [Hin | Hin]; [by apply Hl|].
  destruct Hin as [Heq | []]. by apply He.
Qed.

(** The position list is never empty. *)
Lemma scrollPositions_nonempty (arrayLimit : nat) (T S : Q) (ps : list Q) :
  scrollPositions arrayLimit T S = Some ps -> (0 < length ps)%nat.
Proof.
  unfold scrollPositions. destruct (positionsLoop arrayLimit 0 T S) as [[|q qs]|]; [| |done].
  - simpl. destruct (arrayLimit =? 0)%nat; [done|]. intros [= <-]. simpl. lia.
  - simpl. intros [= <-]. simpl. lia.
Qed.

Section Frames.

Variable host : Host.

Let inv (w : World) : Prop := noEmptyStitch (log w).

Ltac inv_then lem :=
  eapply spec_bind;
    [apply spec_quiet; [apply lem | apply stable_noEmptyStitch] | intros ?].

Lemma spec_emit_inv (e : Effect) (E : string -> World -> Prop) :
  (forall captures, e = StitchCaptures captures -> captures <> []) ->
  spec inv (emit e) (fun _ => inv) E.
Proof. intros He w Hw. by apply noEmptyStitch_snoc. Qed.

Lemma spec_setScroll_inv (ctx : ScrollContext) (y : Q) (E : string -> World -> Prop) :
  spec inv (setScroll host ctx y) (fun _ => inv) E.
Proof. intros w Hw. by apply noEmptyStitch_snoc. Qed.

Lemma spec_sendMessage_inv (msg : Message) (E : string -> World -> Prop) :
  spec inv (sendMessage host msg) (fun _ => inv) E.
Proof.
  unfold sendMessage.
  inv_then (quiet_get (fun w => snapshotCalls (log w))).
  eapply spec_bind; [by apply spec_emit_inv | intros ?].
  inv_then quiet_await.
  intros w Hw. exact Hw.
Qed.

(** Every step of the capture loop pushes a frame or throws. *)
Lemma spec_captureLoop_frames (c : nat) (ctx : ScrollContext) :
  forall (ps : list Q) (i n : nat) (caps : list Capture),
    spec inv (captureLoop host c ctx ps i n caps)
         (fun caps' w => length caps' = (length caps + length ps)%nat /\ inv w)
         (fun _ => inv).
Proof.
  induction ps as [|p ps IH]; intros i n caps.
  { intros w Hw. simpl. split; [lia | done]. }
  cbn [captureLoop].
  inv_then quiet_showProgress.
  eapply spec_bind; [apply spec_setScroll_inv | intros ?].
  inv_then quiet_waitForPaint.
  inv_then quiet_delay.
  inv_then (quiet_get (fun w => scrollOffset w (element ctx))).
  inv_then quiet_setProgressDisplay.
  inv_then quiet_hideOverlay.
  inv_then quiet_waitForPaint.
  inv_then quiet_delay.
  eapply spec_bind; [apply spec_sendMessage_inv | intros response].
  inv_then quiet_restoreHidden.
  inv_then quiet_setProgressDisplay.
  destruct response as [|url0 error0]; [by intros w Hw|].
  destruct (Js.truthy (default "" error0)); [by intros w Hw|].
  eapply spec_conseq; [apply IH | done | | done].
  intros caps' w [Hlen Hw]. split; [|done].
  rewrite Hlen, length_app. simpl. lia.
Qed.

(** [performCapture] never calls the stitcher without a frame. *)
Lemma spec_performCapture_frames (arrayLimit c : nat) (ctx : ScrollContext) (T W d : Q)
    (pageTitle : string) :
  spec inv (performCapture host arrayLimit c ctx T W d pageTitle)
       (fun _ => inv) (fun _ => inv).
Proof.
  unfold performCapture. destruct (Js.leb T 0).
  { inv_then quiet_showProgress.
    apply spec_quiet; [apply quiet_delay | apply stable_noEmptyStitch]. }
  destruct (scrollPositions arrayLimit T (scrollStep ctx)) as [ps|] eqn:Hps;
    [|by intros w Hw].
  apply scrollPositions_nonempty in Hps.
  eapply spec_bind; [apply spec_captureLoop_frames | intros caps].
  apply spec_pure. intros Hlen.
  inv_then quiet_showProgress.
  eapply spec_bind.
  { apply spec_emit_inv. intros captures [= <-]. destruct caps; [simpl in Hlen; lia | done]. }
  intros ?.
  destruct (stitchCaptures (decodeImage host) (canvasFits host) caps T W d ctx)
    as [url|m]; [| by intros w Hw].
  eapply spec_bind; [apply spec_quiet; [apply (quiet_ret url) | apply stable_noEmptyStitch]
                    | intros stitched].
  inv_then quiet_await.
  inv_then quiet_showProgress.
  eapply spec_bind; [apply spec_sendMessage_inv | intros ?].
  inv_then quiet_showProgress.
  apply spec_quiet; [apply quiet_delay | apply stable_noEmptyStitch].
Qed.

Lemma spec_onClick_frames (arrayLimit c : nat) (e : ClickEvent) :
  spec inv (onClick host arrayLimit c e) (fun _ => inv) (fun _ => inv).
Proof.
  unfold onClick.
  inv_then (quiet_get (fun w => isCapturing (closureOf w c))).
  match goal with |- spec _ (if ?b then _ else _) _ _ => destruct b end;
    [by intros w Hw|].
  destruct (insideBar e || insideProgress e); [by intros w Hw|].
  eapply spec_bind.
  { apply spec_quiet; [|apply stable_noEmptyStitch].
    unfold setCapturing. apply quiet_bind; [apply quiet_get | intros ?].
    apply quiet_setClosure. }
  intros ?.
  inv_then (quiet_get (fun w => createScrollContext (page w))).
  match goal with |- spec _ (match ?f with _ => _ end) _ _ => destruct f as [ctx|] end;
    [|by intros w Hw].
  eapply spec_bind.
  { apply spec_quiet; [|apply stable_noEmptyStitch].
    unfold getTargetY. destruct (type ctx); [apply quiet_ret|].
    apply quiet_bind; [apply quiet_get | intros ?; apply quiet_ret]. }
  intros targetY.
  inv_then (quiet_get (fun w => innerWidth (page w))).
  inv_then (quiet_get (fun w => pixelRatio (page w))).
  inv_then (quiet_get (fun w => title (page w))).
  inv_then (quiet_get (fun w => scrollOffset w (element ctx))).
  inv_then quiet_hideInteractiveUI.
  inv_then quiet_showProgress.
  eapply spec_bind.
  { eapply spec_tryCatch; [apply spec_performCapture_frames | intros m].
    unfold captureFailed.
    eapply spec_bind; [by apply spec_emit_inv | intros ?].
    inv_then quiet_showProgress.
    apply spec_quiet; [apply quiet_delay | apply stable_noEmptyStitch]. }
  intros ?.
  eapply spec_bind; [apply spec_setScroll_inv | intros ?].
  apply spec_quiet; [apply quiet_deactivate | apply stable_noEmptyStitch].
Qed.


End Frames.



(** ** Further properties of the sequencer's position list *)

(** With a step that is not positive [y] never becomes positive, so the
    loop stays below a positive target until the array is full. *)
Lemma positionsLoop_stuck (T S : Q) :
  (0 < T)%Q -> (S <= 0)%Q ->
  forall (room : nat) (y : Q), (y <= 0)%Q -> positionsLoop room y T S = None.
Proof.
  intros HT HS. induction room as [|room IH]; intros y Hy; cbn [positionsLoop];
    replace (Js.ltb y T) with true by (symmetry; apply ltb_lt; lra); [done|].
  rewrite IH; [done | by apply add_nonpos].
Qed.

Lemma scrollPositions_stuck (T S : Q) (arrayLimit : nat) :
  (0 < T)%Q -> (S <= 0)%Q -> scrollPositions arrayLimit T S = None.
Proof.
  intros HT HS. unfold scrollPositions.
  by rewrite (positionsLoop_stuck T S HT HS arrayLimit 0%Q).
Qed.

Lemma accumulated_nonneg (S : Q) (i : nat) : (0 <= S)%Q -> (0 <= accumulated S i)%Q.
Proof.
  intros HS. induction i as [|i IH]; [simpl; lra|].
  unfold accumulated in *. simpl. by apply add_nonneg.
Qed.

(** A positive step alone does not make the loop return: at 2^53 adding
    1 changes nothing, and the loop goes on until the array is full. *)
Example positions_stall :
  Js.add 9007199254740992 1 = 9007199254740992%Q
  /\ positionsLoop 100 9007199254740992 9007199254740994 1 = None.
Proof. vm_compute. split; reflexivity. Qed.

(** X5.  The requested positions cover the range from the top to the
    target.  For a positive target and a positive step, whenever the
    position loop returns, every position lies in [0, T) and the last
    one is within one step of the target, the step added as the loop
    adds it.  For an integer target and step with [T + S <= 2 ^ 53]
    the loop returns whenever [ceil (T / S)] positions fit in an
    array, and the last position is within one step exactly. *)
Theorem scrollPositions_cover_target (T S : Q) (arrayLimit : nat) :
  (0 < T)%Q -> (0 < S)%Q ->
  (forall ps : list Q,
     scrollPositions arrayLimit T S = Some ps ->
     exists final : Q,
       last ps = Some final
       /\ (T <= Js.add final S)%Q
       /\ forall (i : nat) (y : Q), ps !! i = Some y -> (0 <= y)%Q /\ (y < T)%Q)
  /\ (forall t s : Z,
        T = inject_Z t -> S = inject_Z s -> t + s <= 2 ^ 53 ->
        (Z.to_nat (Js.ceil (T / S)) <= arrayLimit)%nat ->
        exists (ps : list Q) (final : Q),
          scrollPositions arrayLimit T S = Some ps
          /\ last ps = Some final
          /\ (T <= final + S)%Q
          /\ forall (i : nat) (y : Q), ps !! i = Some y -> (0 <= y)%Q /\ (y < T)%Q).
Proof.
  intros HT HS.
  assert (Hany : forall ps : list Q,
            scrollPositions arrayLimit T S = Some ps ->
            exists final : Q,
              last ps = Some final
              /\ (T <= Js.add final S)%Q
              /\ forall (i : nat) (y : Q), ps !! i = Some y -> (0 <= y)%Q /\ (y < T)%Q).
  { intros ps Hps.
    destruct (scrollPositions_returned arrayLimit T S ps HT Hps) as (Hlen & Hnth & Hend).
    destruct (length ps) as [|n] eqn:En; [lia|].
    destruct (Hnth n ltac:(lia)) as [Hn _].
    exists (accumulated S n). split; [|split].
    - by rewrite last_lookup, En.
    - exact Hend.
    - intros i y Hi. pose proof (lookup_lt_Some _ _ _ Hi) as Hlt. rewrite En in Hlt.
      destruct (Hnth i Hlt) as [Hy Hbelow]. rewrite Hy in Hi. injection Hi as <-.
      split; [apply accumulated_nonneg; lra | done]. }
  split; [exact Hany|].
  intros t s Et Es Hts Hroom.
  assert (Ht : 0 < t).
  { rewrite Et in HT. change 0%Q with (inject_Z 0) in HT. by rewrite <- Zlt_Qlt in HT. }
  assert (Hs : 0 < s).
  { rewrite Es in HS. change 0%Q with (inject_Z 0) in HS. by rewrite <- Zlt_Qlt in HS. }
  destruct (scrollPositions_integers t s arrayLimit Ht Hs Hts) as (ps & Hps & Hlen & Hnth).
  { by rewrite <- Et, <- Es. }
  rewrite <- Et, <- Es in Hps.
  destruct (Hany ps Hps) as (final & Hlast & _ & Hrange).
  exists ps, final. split; [done|]. split; [done|]. split; [|done].
  (* the last position is [(n - 1) * S], and [n * S] is not below [T] *)
  rewrite last_lookup in Hlast.
  pose proof (Hnth _ _ Hlast) as Hfinal.
  pose proof (lookup_lt_Some _ _ _ Hlast) as Hpos.
  replace (Z.of_nat (Nat.pred (length ps))) with (Js.ceil (inject_Z t / inject_Z s) - 1)
    in Hfinal by lia.
  pose proof (Qle_ceiling (inject_Z t / inject_Z s)) as Hc.
  fold (Js.ceil (inject_Z t / inject_Z s)) in Hc.
  remember (Js.ceil (inject_Z t / inject_Z s)) as n eqn:En.
  unfold Z.sub in Hfinal. rewrite inject_Z_plus in Hfinal.
  change (inject_Z (- (1))) with (-1 # 1)%Q in Hfinal.
  rewrite Hfinal, Et, Es.
  assert (HS' : (0 < inject_Z s)%Q) by (by rewrite <- Es).
  assert (E : (inject_Z t == inject_Z t / inject_Z s * inject_Z s)%Q) by (field; lra).
  assert (Hmul : (inject_Z t / inject_Z s * inject_Z s <= inject_Z n * inject_Z s)%Q)
    by (apply Qmult_le_compat_r; [exact Hc | lra]).
  remember (inject_Z n) as qn. remember (inject_Z t / inject_Z s)%Q as x.
  remember (inject_Z t) as qt. remember (inject_Z s) as qs.
  clear - E Hmul. lra.
Qed.

Lemma scrollPositions_cover_witness :
  (0 < 1850)%Q /\ (0 < 800)%Q
  /\ exists (ps : list Q) (final : Q),
       scrollPositions 10 1850 800 = Some ps
       /\ last ps = Some final
       /\ (1850 <= final + 800)%Q
       /\ forall (i : nat) (y : Q), ps !! i = Some y -> (0 <= y)%Q /\ (y < 1850)%Q.
Proof.
  split; [reflexivity|]. split; [reflexivity|].
  destruct (scrollPositions_cover_target 1850 800 10 eq_refl eq_refl) as [_ Hint].
  apply (Hint 1850 800); [reflexivity | reflexivity | lia | vm_compute; lia].
Defined.

(** ** Further properties of the stitchers *)

Section StitcherEdges.

Variable decode : string -> option Img.t.
Variable fits : Z -> Z -> bool.

Lemma drawCaptures_undecodable (H : Z) (d : Q) (captures : list Capture) (c : Capture) :
  c ∈ captures ->
  decode (default "undefined" (dataUrl c)) = None ->
  forall ops, drawCaptures decode captures H d ops = Thrown "Failed to load captured image".
Proof.
  intros Hin Hc. induction captures as [|c0 captures IH]; intros ops.
  { by apply elem_of_nil in Hin. }
  simpl. unfold loadImage.
  destruct (decode (default "undefined" (dataUrl c0))) as [img|] eqn:E0; [|done].
  apply IH. apply elem_of_cons in Hin as [-> | Hin]; [congruence | done].
Qed.

Lemma loadImages_undecodable (captures : list Capture) (c : Capture) :
  c ∈ captures ->
  decode (default "undefined" (dataUrl c)) = None ->
  loadImages decode captures = Thrown "Failed to load captured image".
Proof.
  intros Hin Hc. induction captures as [|c0 captures IH].
  { by apply elem_of_nil in Hin. }
  simpl. unfold loadImage.
  destruct (decode (default "undefined" (dataUrl c0))) as [img|] eqn:E0; [|done].
  rewrite IH; [done|]. apply elem_of_cons in Hin as [-> | Hin]; [congruence | done].
Qed.

(** X6.  A frame that does not decode aborts stitching in either mode with
    the load-failure error: no image is returned. *)
Theorem stitchCaptures_decode_failure (captures : list Capture) (T W d : Q)
    (ctx : ScrollContext) (c : Capture) :
  c ∈ captures ->
  decode (default "undefined" (dataUrl c)) = None ->
  stitchCaptures decode fits captures T W d ctx = Thrown "Failed to load captured image".
Proof.
  intros Hin Hc. unfold stitchCaptures, stitchContainerScroll, stitchWindowScroll.
  destruct (type ctx).
  - by rewrite (drawCaptures_undecodable _ _ captures c Hin Hc).
  - by rewrite (loadImages_undecodable captures c Hin Hc).
Qed.

(** X7.  Under the conditions the sequencer guarantees (the last frame was
    taken above the target, the container starts at or below the top
    of the viewport, the density is positive), the cropped part of the
    last frame has at least one row and at most a full frame, so the
    height assigned to the canvas is more than [n - 1] frames and at
    most [n] frames.  The canvas has that height when [n] frames stay
    within 2^31 - 1 rows, and the result is then the image of the
    canvas if the canvas has a width and the browser can hold it. *)
Theorem container_surface_height_bounds (captures : list Capture) (front : list Img.t)
    (lastImg : Img.t) (lastCapture : Capture) (T W d : Q) (ctx : ScrollContext) (H : Z) :
  Forall2 (decodesTo decode) captures (front ++ [lastImg]) ->
  last captures = Some lastCapture ->
  Forall (fun img => Img.height img = H) (front ++ [lastImg]) ->
  1 <= H ->
  (0 <= containerTop ctx)%Q -> (0 < d)%Q -> (scrollY lastCapture < T)%Q ->
  exists (canvas : Canvas.t) (surfaceHeight : Z),
    stitchContainerScroll decode fits captures T W d ctx
    = Returned (toDataURL fits canvas)
    /\ Canvas.height canvas = Canvas.dimension 150 surfaceHeight
    /\ (Z.of_nat (length captures) - 1) * H < surfaceHeight
    /\ surfaceHeight <= Z.of_nat (length captures) * H
    /\ (Z.of_nat (length captures) * H <= 2147483647 ->
        Canvas.height canvas = surfaceHeight
        /\ (0 < Canvas.width canvas ->
            fits (Canvas.width canvas) (Canvas.height canvas) = true ->
            stitchContainerScroll decode fits captures T W d ctx
            = Returned (PngOf canvas))).
Proof.
  intros Hdec Hlast Hall HH Htop Hd Hy.
  pose proof (stitchContainerScroll_canvas decode fits captures front lastImg lastCapture
                T W d ctx H Hdec Hlast Hall) as Hrun.
  cbv zeta in Hrun.
  remember (Js.mul (Js.add (containerTop ctx) (Js.sub T (scrollY lastCapture))) d) as x
    eqn:Hx.
  assert (Hxpos : (0 < x)%Q).
  { rewrite Hx. apply mul_pos; [|done]. apply add_pos; [done|]. by apply sub_pos. }
  assert (Hceil : 1 <= Js.ceil x).
  { pose proof (Qle_ceiling x) as Hc.
    assert (Hlt : (inject_Z 0 < inject_Z (Js.ceil x))%Q)
      by (eapply Qlt_le_trans; [exact Hxpos | exact Hc]).
    rewrite <- Zlt_Qlt in Hlt. lia. }
  assert (Hn : (0 < length captures)%nat).
  { rewrite (Forall2_length _ _ _ Hdec), length_app. simpl. lia. }
  eexists _, _. split; [exact Hrun|]. cbn [Canvas.height Canvas.width].
  split; [reflexivity|]. split; [lia|]. split; [lia|].
  intros Hmax.
  assert (Hsmall : Canvas.dimension 150
                     ((Z.of_nat (length captures) - 1) * H + Z.min (Js.ceil x) H)
                   = (Z.of_nat (length captures) - 1) * H + Z.min (Js.ceil x) H).
  { apply dimension_small. nia. }
  split; [exact Hsmall|].
  intros Hw Hfits. rewrite Hrun. f_equal. apply toDataURL_png; cbn [Canvas.height Canvas.width].
  - exact Hw.
  - rewrite Hsmall. nia.
  - exact Hfits.
Qed.

End StitcherEdges.

Lemma stitchCaptures_decode_failure_witness :
  let decode := fun s : string => if String.eqb s "b" then None else Demo.decode s in
  mkCapture (Some "b") 800 ∈ Demo.frames
  /\ decode (default "undefined" (dataUrl (mkCapture (Some "b") 800))) = None
  /\ stitchCaptures decode Demo.canvasLimit Demo.frames 1850 1200 2 (mkCtx window None 0 800)
     = Thrown "Failed to load captured image".
Proof.
  intros decode.
  assert (Hin : mkCapture (Some "b") 800 ∈ Demo.frames).
  { unfold Demo.frames. apply elem_of_cons. right. apply elem_of_cons. by left. }
  split; [exact Hin|]. split; [reflexivity|].
  apply (stitchCaptures_decode_failure decode Demo.canvasLimit Demo.frames 1850 1200 2
           (mkCtx window None 0 800) (mkCapture (Some "b") 800) Hin). reflexivity.
Defined.

Lemma container_surface_height_witness :
  let ctx := mkCtx container (Some 4%nat) 200 600 in
  let captures := [mkCapture (Some "a") 0; mkCapture (Some "b") 600] in
  1 <= 1600 /\ (0 <= containerTop ctx)%Q /\ (0 < 2)%Q /\ (600 < 740)%Q
  /\ exists canvas : Canvas.t,
       stitchContainerScroll Demo.decode Demo.canvasLimit captures 740 1200 2 ctx
       = Returned (PngOf canvas)
       /\ (Z.of_nat (length captures) - 1) * 1600 < Canvas.height canvas
       /\ Canvas.height canvas <= Z.of_nat (length captures) * 1600.
Proof.
  intros ctx captures.
  split; [lia|]. split; [discriminate|]. split; [reflexivity|]. split; [reflexivity|].
  destruct (container_surface_height_bounds Demo.decode Demo.canvasLimit captures
              [Img.mk "a" 2400 1600] (Img.mk "b" 2400 1600) (mkCapture (Some "b") 600)
              740 1200 2 ctx 1600)
    as (canvas & h & Hrun & Hdim & Hlo & Hhi & Hsmall).
  - repeat constructor.
  - reflexivity.
  - repeat constructor.
  - lia.
  - discriminate.
  - reflexivity.
  - reflexivity.
  - destruct Hsmall as [Hh Hpng]; [simpl; lia|].
    assert (Hcanvas : Returned (toDataURL Demo.canvasLimit canvas)
                      = Returned (PngOf (Canvas.mk 2400 2280
                          [FillRect "#ffffff" 0 0 2400 2280;
                           DrawImage (Img.mk "a" 2400 1600) 0 0 2400 1600 0 0 2400 1600;
                           DrawImage (Img.mk "b" 2400 1600) 0 0 2400 680 0 1600 2400 680]))).
    { rewrite <- Hrun. vm_compute. reflexivity. }
    exists canvas. rewrite Hh. split; [|split; [exact Hlo | exact Hhi]].
    apply Hpng.
    + unfold toDataURL in Hcanvas.
      destruct ((Canvas.width canvas =? 0) || (Canvas.height canvas =? 0)
                || negb (Demo.canvasLimit (Canvas.width canvas) (Canvas.height canvas)));
        [discriminate|].
      injection Hcanvas as ->. simpl. lia.
    + unfold toDataURL in Hcanvas.
      destruct ((Canvas.width canvas =? 0) || (Canvas.height canvas =? 0)
                || negb (Demo.canvasLimit (Canvas.width canvas) (Canvas.height canvas)));
        [discriminate|].
      injection Hcanvas as ->. reflexivity.
Defined.

(** ** background.js: the file name of the download *)

Module BgFacts.
Import Bg.

Lemma isIllegal_cases (c : Z) :
  isIllegal c = true ->
  c = 92 \/ c = 47 \/ c = 58 \/ c = 42 \/ c = 63 \/ c = 34 \/ c = 60 \/ c = 62 \/ c = 124.
Proof.
  unfold isIllegal. simpl. rewrite !orb_true_iff, !Z.eqb_eq. intuition discriminate.
Qed.

Lemma isIllegal_not_space (c : Z) : isIllegal c = true -> isSpace c = false.
Proof.
  intros H. apply isIllegal_cases in H.
  repeat (destruct H as [-> | H]; [reflexivity|]). by subst.
Qed.

Lemma isSpace_not_illegal (c : Z) : isSpace c = true -> isIllegal c = false.
Proof.
  intros H. destruct (isIllegal c) eqn:E; [|done].
  apply isIllegal_not_space in E. congruence.
Qed.

Lemma not_space_not_32 (c : Z) : isSpace c = false -> (c =? 32) = false.
Proof. intros H. apply Z.eqb_neq. intros ->. discriminate. Qed.

Lemma replaceIllegal_legal (s : JsString) :
  Forall (fun c => isIllegal c = false) (replaceIllegal s).
Proof.
  unfold replaceIllegal. apply Forall_fmap, Forall_forall. intros c _. simpl.
  destruct (isIllegal c) eqn:E; done.
Qed.

Lemma replaceIllegal_spaces (s : JsString) :
  Forall (fun c => isSpace c = true) (replaceIllegal s) <-> Forall (fun c => isSpace c = true) s.
Proof.
  unfold replaceIllegal. rewrite Forall_fmap.
  split; intros H; (eapply Forall_impl; [exact H|]); intros c; simpl;
    destruct (isIllegal c) eqn:E; try done.
  apply isIllegal_not_space in E. congruence.
Qed.

Lemma collapse_Forall (P : Z -> Prop) (s : JsString) :
  P 32 -> Forall P s -> forall b, Forall P (collapse b s).
Proof.
  intros H32. induction 1 as [|c s Hc _ IH]; intros b; simpl; [done|].
  destruct (isSpace c); [destruct b|]; auto.
Qed.

Lemma collapse_only_plain_spaces (s : JsString) (b : bool) :
  Forall (fun c => isSpace c = true -> c = 32) (collapse b s).
Proof.
  revert b. induction s as [|c s IH]; intros b; simpl; [done|].
  destruct (isSpace c) eqn:E; [destruct b|]; auto.
  constructor; [congruence | auto].
Qed.

Lemma collapse_all_space (s : JsString) (b : bool) :
  Forall (fun c => isSpace c = true) (collapse b s) <-> Forall (fun c => isSpace c = true) s.
Proof.
  revert b. induction s as [|c s IH]; intros b; simpl; [done|].
  destruct (isSpace c) eqn:E.
  - destruct b; rewrite ?Forall_cons, IH; intuition.
  - rewrite !Forall_cons, IH. intuition.
Qed.

Lemma doubleSpace_cons (c : Z) (rest : JsString) :
  doubleSpace (c :: rest) =
    match head rest with
    | Some c2 => (c =? 32) && (c2 =? 32)
    | None => false
    end || doubleSpace rest.
Proof. destruct rest; reflexivity. Qed.

Lemma collapse_no_double_space (s : JsString) :
  forall b,
    doubleSpace (collapse b s) = false
    /\ (b = true -> forall c, head (collapse b s) = Some c -> isSpace c = false).
Proof.
  induction s as [|c s IH]; intros b; simpl; [done|].
  destruct (isSpace c) eqn:E.
  - destruct (IH true) as [Hd Hh]. destruct b; [done|].
    split; [|done]. rewrite doubleSpace_cons, Hd.
    destruct (head (collapse true s)) as [c2|] eqn:E2; [|done].
    rewrite (not_space_not_32 c2) by auto. done.
  - destruct (IH false) as [Hd _]. split.
    + rewrite doubleSpace_cons, Hd, (not_space_not_32 c E).
      by destruct (head (collapse false s)).
    + simpl. intros _ c' [= <-]. done.
Qed.

Lemma doubleSpace_app (l1 l2 : JsString) :
  doubleSpace (l1 ++ l2) = false -> doubleSpace l1 = false /\ doubleSpace l2 = false.
Proof.
  induction l1 as [|c l1 IH]; [done|].
  rewrite <- app_comm_cons, !doubleSpace_cons. rewrite !orb_false_iff.
  intros [Hh Hd]. apply IH in Hd as [Hd1 Hd2]. split; [|done]. split; [|done].
  destruct l1; [done|]. exact Hh.
Qed.

Lemma trimStart_suffix (s : JsString) : exists k, s = k ++ trimStart s.
Proof.
  induction s as [|c s [k IH]]; [by exists []|]. simpl.
  destruct (isSpace c); [|by exists []].
  exists (c :: k). simpl. by rewrite <- IH.
Qed.

Lemma trimEnd_prefix (s : JsString) : exists k, s = trimEnd s ++ k.
Proof.
  induction s as [|c s [k IH]]; [by exists []|]. simpl.
  destruct (trimEnd s) as [|c' kept] eqn:E.
  - destruct (isSpace c); [by exists (c :: s)|]. exists k. simpl in *. by rewrite IH.
  - exists k. simpl. by rewrite IH.
Qed.

Lemma trimStart_head (s : JsString) (c : Z) :
  head (trimStart s) = Some c -> isSpace c = false.
Proof.
  induction s as [|c0 s IH]; [done|]. simpl.
  destruct (isSpace c0) eqn:E; [done|]. simpl. by intros [= <-].
Qed.

Lemma trimEnd_head (s : JsString) (c : Z) :
  head (trimEnd s) = Some c -> head s = Some c.
Proof.
  destruct s as [|c0 s]; [done|]. simpl.
  destruct (trimEnd s); [destruct (isSpace c0)|]; done.
Qed.

Lemma trimStart_nil (s : JsString) :
  trimStart s = [] <-> Forall (fun c => isSpace c = true) s.
Proof.
  induction s as [|c s IH]; [done|]. simpl. rewrite Forall_cons.
  destruct (isSpace c) eqn:E; [tauto|]. split; [done | intros [? _]; done].
Qed.

Lemma trimEnd_nil (s : JsString) :
  trimEnd s = [] <-> Forall (fun c => isSpace c = true) s.
Proof.
  induction s as [|c s IH]; [done|]. simpl. rewrite Forall_cons.
  destruct (trimEnd s) as [|c' kept] eqn:E.
  - destruct (isSpace c) eqn:Ec; [tauto|]. split; [done | intros [? _]; done].
  - split; [done|]. intros [_ Hs]. apply IH in Hs. done.
Qed.

Lemma trim_nil (s : JsString) :
  trim s = [] <-> Forall (fun c => isSpace c = true) s.
Proof.
  unfold trim. rewrite trimEnd_nil. split.
  - intros Hall. apply trimStart_nil.
    destruct (trimStart s) as [|c rest] eqn:E; [done|].
    apply Forall_cons in Hall as [Hc _].
    assert (isSpace c = false) by (apply (trimStart_head s); by rewrite E). congruence.
  - intros Hall. apply trimStart_nil in Hall. by rewrite Hall.
Qed.

Lemma trim_parts (s : JsString) : exists k1 k2, s = k1 ++ trim s ++ k2.
Proof.
  destruct (trimStart_suffix s) as [k1 H1].
  destruct (trimEnd_prefix (trimStart s)) as [k2 H2].
  exists k1, k2. unfold trim. by rewrite <- H2.
Qed.

Lemma sanitize_parts (pageTitle : JsString) :
  exists k1 k2,
    collapseSpaces (replaceIllegal pageTitle) = k1 ++ sanitize pageTitle ++ k2.
Proof.
  destruct (trim_parts (collapseSpaces (replaceIllegal pageTitle))) as (k1 & k2 & H).
  exists k1, (drop 200 (trim (collapseSpaces (replaceIllegal pageTitle))) ++ k2).
  unfold sanitize.
  by rewrite (app_assoc (take 200 _) (drop 200 _) k2), take_drop.
Qed.

Lemma sanitize_clean (pageTitle : JsString) :
  (length (sanitize pageTitle) <= 200)%nat
  /\ Forall (fun c => isIllegal c = false) (sanitize pageTitle)
  /\ Forall (fun c => isSpace c = true -> c = 32) (sanitize pageTitle)
  /\ doubleSpace (sanitize pageTitle) = false
  /\ (forall c, head (sanitize pageTitle) = Some c -> isSpace c = false).
Proof.
  destruct (sanitize_parts pageTitle) as (k1 & k2 & Hparts).
  split; [unfold sanitize; rewrite length_take; lia|].
  split.
  { assert (H : Forall (fun c => isIllegal c = false)
                  (collapseSpaces (replaceIllegal pageTitle))).
    { apply collapse_Forall; [done | apply replaceIllegal_legal]. }
    rewrite Hparts in H. apply Forall_app in H as [_ H]. by apply Forall_app in H as [H _]. }
  split.
  { pose proof (collapse_only_plain_spaces (replaceIllegal pageTitle) false) as H.
    fold (collapseSpaces (replaceIllegal pageTitle)) in H.
    rewrite Hparts in H. apply Forall_app in H as [_ H]. by apply Forall_app in H as [H _]. }
  split.
  { destruct (collapse_no_double_space (replaceIllegal pageTitle) false) as [H _].
    fold (collapseSpaces (replaceIllegal pageTitle)) in H.
    rewrite Hparts in H. apply doubleSpace_app in H as [_ H].
    by apply doubleSpace_app in H as [H _]. }
  intros c Hc. unfold sanitize, trim in Hc.
  apply (trimStart_head (collapseSpaces (replaceIllegal pageTitle))).
  apply trimEnd_head.
  destruct (trimEnd _) as [|c0 rest]; [done|]. exact Hc.
Qed.

(** X19.  The sanitized title has at most 200 code units, none of them one
    of the nine characters that file names forbid; its only white space
    is the plain space, never twice in a row and never in front. *)
Theorem sanitize_is_clean (pageTitle : JsString) :
  (length (sanitize pageTitle) <= 200)%nat
  /\ Forall (fun c => isIllegal c = false) (sanitize pageTitle)
  /\ Forall (fun c => isSpace c = true -> c = 32) (sanitize pageTitle)
  /\ doubleSpace (sanitize pageTitle) = false
  /\ (forall c, head (sanitize pageTitle) = Some c -> isSpace c = false).
Proof. apply sanitize_clean. Qed.

(** X20.  The sanitized title is empty exactly when the title has nothing
    but white space; those are the titles that get the generic name. *)
Theorem filename_fallback_iff_blank_title (pageTitle iso : JsString) :
  (sanitize pageTitle = [] <-> Forall (fun c => isSpace c = true) pageTitle)
  /\ (Forall (fun c => isSpace c = true) pageTitle ->
      filename pageTitle iso = lit "capture_" ++ timestamp iso ++ lit ".png")
  /\ (~ Forall (fun c => isSpace c = true) pageTitle ->
      filename pageTitle iso = sanitize pageTitle ++ lit "_" ++ timestamp iso ++ lit ".png").
Proof.
  assert (Hiff : sanitize pageTitle = [] <-> Forall (fun c => isSpace c = true) pageTitle).
  { unfold sanitize.
    rewrite <- replaceIllegal_spaces, <- (collapse_all_space _ false), <- trim_nil.
    fold (collapseSpaces (replaceIllegal pageTitle)).
    destruct (trim (collapseSpaces (replaceIllegal pageTitle))); done. }
  split; [exact Hiff|]. unfold filename. split.
  - intros H. apply Hiff in H. by rewrite H.
  - intros H. destruct (sanitize pageTitle) eqn:E; [|done]. destruct H. by apply Hiff.
Qed.

Lemma timestamp_legal (iso : JsString) :
  Forall (fun c => isIllegal c = true -> c = 58) iso ->
  Forall (fun c => isIllegal c = false) (timestamp iso).
Proof.
  intros H. unfold timestamp.
  apply Forall_take, Forall_fmap. eapply Forall_impl; [exact H|]. intros c Hc. simpl.
  destruct (c =? 58) eqn:E; [done|]. simpl.
  destruct (c =? 46) eqn:E46; [done|].
  destruct (isIllegal c) eqn:Ei; [|done].
  apply Z.eqb_neq in E. simpl in Hc. by specialize (Hc Ei).
Qed.

(** X21.  Whatever the title, the file name ends in [.png], has at most 224
    code units, and none of the characters that file names forbid,
    as long as the ISO date has none but colons. *)
Theorem filename_is_legal (pageTitle iso : JsString) :
  Forall (fun c => isIllegal c = true -> c = 58) iso ->
  Forall (fun c => isIllegal c = false) (filename pageTitle iso)
  /\ lit ".png" `suffix_of` filename pageTitle iso
  /\ (length (filename pageTitle iso) <= 224)%nat
  /\ filename pageTitle iso <> [].
Proof.
  intros Hiso. pose proof (timestamp_legal iso Hiso) as Hts.
  destruct (sanitize_clean pageTitle) as (Hlen & Hlegal & _).
  assert (Htslen : (length (timestamp iso) <= 19)%nat).
  { unfold timestamp. rewrite length_take. lia. }
  unfold filename. destruct (sanitize pageTitle) as [|c rest] eqn:E.
  - split; [|split; [|split]].
    + apply Forall_app. split; [by repeat constructor|].
      apply Forall_app. split; [done | by repeat constructor].
    + exists (lit "capture_" ++ timestamp iso). by rewrite <- app_assoc.
    + rewrite !length_app. simpl. lia.
    + done.
  - split; [|split; [|split]].
    + apply Forall_app. split; [done|].
      apply Forall_app. split; [by repeat constructor|].
      apply Forall_app. split; [done | by repeat constructor].
    + exists ((c :: rest) ++ lit "_" ++ timestamp iso). by rewrite <- !app_assoc.
    + rewrite !length_app. simpl in *. lia.
    + done.
Qed.

Lemma filename_is_legal_witness :
  let iso := lit "2026-02-11T14:30:00.000Z" in
  let pageTitle := lit "a/b:  c?" in
  Forall (fun c => isIllegal c = true -> c = 58) iso
  /\ filename pageTitle iso = lit "a_b_ c__2026-02-11T14-30-00.png"
  /\ Forall (fun c => isIllegal c = false) (filename pageTitle iso)
  /\ lit ".png" `suffix_of` filename pageTitle iso
  /\ (length (filename pageTitle iso) <= 224)%nat
  /\ filename pageTitle iso <> [].
Proof.
  intros iso pageTitle.
  assert (Hiso : Forall (fun c => isIllegal c = true -> c = 58) iso).
  { apply Forall_forall. intros c Hin Hc.
    apply isIllegal_cases in Hc. apply list_elem_of_In in Hin.
    vm_compute in Hin. intuition lia. }
  split; [exact Hiso|]. split; [vm_compute; reflexivity|].
  apply (filename_is_legal pageTitle iso Hiso).
Defined.

(** X22.  How the content script reads the answers of the [captureTab]
    branch: a resolved capture is accepted; a rejected one is detected
    unless its message is empty, in which case the loop goes on with a
    frame that has no image. *)
Theorem captureTabResponse_accepted (r : TabCapture) :
  accepted (captureTabResponse r) <->
  (exists url, r = Resolved url) \/ r = Rejected "".
Proof.
  destruct r as [url|message]; simpl.
  - split; [intros _; left; by exists url | done].
  - split.
    + destruct message; [by right | done].
    + intros [[url H] | [= ->]]; done.
Qed.

End BgFacts.

(** ** The suppressor: what a suppression window does to the page *)

Lemma suppressedFrom_start (d0 : Dom) : suppressedFrom d0 [] d0.
Proof.
  split; [constructor|]. split.
  - intros r Hr. by apply elem_of_nil in Hr.
  - intros i. rewrite bool_decide_eq_false_2 by apply not_elem_of_nil.
    by destruct (d0 !! i).
Qed.

Lemma suppressedFrom_unrecorded (d0 d : Dom) (hidden : list OcclusionRecord)
    (i : nat) (e : El.t) :
  suppressedFrom d0 hidden d -> i ∉ el <$> hidden -> d !! i = Some e -> d0 !! i = Some e.
Proof.
  intros (_ & _ & Hd) Hi He. rewrite Hd, bool_decide_eq_false_2 in He by done.
  by destruct (d0 !! i).
Qed.

(** One more element is hidden and recorded. *)
Lemma suppressedFrom_step (d0 d : Dom) (hidden : list OcclusionRecord)
    (i : nat) (e : El.t) :
  suppressedFrom d0 hidden d ->
  i ∉ el <$> hidden ->
  d !! i = Some e ->
  El.isOwn e = false ->
  suppressedFrom d0 (hidden ++ [mkRecord i (El.styleVisibility e)])
                 (<[i := El.setPropertyImportant "hidden" e]> d).
Proof.
  intros Hinv Hi He Hown.
  pose proof (suppressedFrom_unrecorded _ _ _ _ _ Hinv Hi He) as He0.
  destruct Hinv as (Hnd & Hrec & Hd).
  split; [|split].
  - rewrite fmap_app. apply NoDup_app. split; [done|]. split.
    + intros j Hj. simpl. rewrite list_elem_of_singleton. by intros ->.
    + apply NoDup_singleton.
  - intros r Hr. apply elem_of_app in Hr as [Hr | Hr]; [by apply Hrec|].
    apply list_elem_of_singleton in Hr as ->. simpl. by exists e.
  - unfold Dom in *. intros j. destruct (decide (j = i)) as [-> | Hne].
    + rewrite list_lookup_insert_eq by (by eapply lookup_lt_Some).
      rewrite He0. cbn [fmap option_fmap option_map].
      rewrite bool_decide_eq_true_2; [done|].
      rewrite fmap_app. apply elem_of_app. right. by apply list_elem_of_singleton.
    + rewrite list_lookup_insert_ne by done. rewrite Hd.
      destruct (d0 !! j) as [ej|]; [|done]. cbn [fmap option_fmap option_map].
      assert (Hiff : j ∈ el <$> hidden
                     <-> j ∈ el <$> hidden ++ [mkRecord i (El.styleVisibility e)]).
      { rewrite fmap_app, elem_of_app. cbn [fmap list_fmap el].
        rewrite list_elem_of_singleton. tauto. }
      by rewrite (bool_decide_ext _ _ Hiff).
Qed.

Lemma hideFixed_suppressedFrom (d0 : Dom) (all : list nat) :
  forall (hidden : list OcclusionRecord) (d : Dom),
    suppressedFrom d0 hidden d ->
    NoDup all ->
    (forall i, i ∈ all -> i ∉ el <$> hidden) ->
    suppressedFrom d0 (hideFixed all hidden d).1 (hideFixed all hidden d).2.
Proof.
  induction all as [|i all IH]; intros hidden d Hinv Hnd Hfresh; [done|].
  apply NoDup_cons in Hnd as [Hi Hnd]. simpl.
  assert (Hfresh' : forall j, j ∈ all -> j ∉ el <$> hidden).
  { intros j Hj. apply Hfresh. by right. }
  destruct (d !! i) as [e|] eqn:He; [|by apply IH].
  destruct (El.isOwn e) eqn:Hown; [by apply IH|].
  destruct (isFixedOrSticky e); [|by apply IH].
  apply IH; [|done|].
  - apply suppressedFrom_step; try done. apply Hfresh. by left.
  - intros j Hj. rewrite fmap_app, elem_of_app. simpl. rewrite list_elem_of_singleton.
    intros [Hin | ->]; [by apply (Hfresh' j) | done].
Qed.

Lemma alreadyHidden_false (hidden : list OcclusionRecord) (s : nat) :
  alreadyHidden hidden s = false -> s ∉ el <$> hidden.
Proof.
  unfold alreadyHidden. induction hidden as [|h hidden IH]; simpl.
  - intros _. apply not_elem_of_nil.
  - rewrite orb_false_iff, Nat.eqb_neq. intros [Hne Hrest].
    rewrite not_elem_of_cons. split; [done | by apply IH].
Qed.

Lemma hideSiblings_suppressedFrom (d0 : Dom) (current : nat) (containerRect : Rect.t)
    (siblings : list nat) :
  forall (hidden : list OcclusionRecord) (d : Dom),
    suppressedFrom d0 hidden d ->
    suppressedFrom d0 (hideSiblings siblings current containerRect hidden d).1
                      (hideSiblings siblings current containerRect hidden d).2.
Proof.
  induction siblings as [|s siblings IH]; intros hidden d Hinv; [done|]. simpl.
  destruct (s =? current)%nat; [by apply IH|].
  destruct (d !! s) as [e|] eqn:He; [|by apply IH].
  destruct (El.isOwn e) eqn:Hown; [by apply IH|].
  destruct (alreadyHidden hidden s) eqn:Hal; [by apply IH|].
  destruct (overlaps (El.rect e) containerRect); [|by apply IH].
  apply IH, suppressedFrom_step; try done. by apply alreadyHidden_false.
Qed.

Lemma walkUp_suppressedFrom (d0 : Dom) (root : nat) (containerRect : Rect.t) (fuel : nat) :
  forall (current : nat) (hidden : list OcclusionRecord) (d : Dom),
    suppressedFrom d0 hidden d ->
    suppressedFrom d0 (walkUp fuel root current containerRect hidden d).1
                      (walkUp fuel root current containerRect hidden d).2.
Proof.
  induction fuel as [|fuel IH]; intros current hidden d Hinv; [done|]. simpl.
  destruct (current =? root)%nat; [done|].
  destruct (parentOf d current) as [parent|]; [|done].
  destruct (d !! parent) as [pe|]; [|done].
  pose proof (hideSiblings_suppressedFrom d0 current containerRect (El.children pe)
                hidden d Hinv) as Hs.
  destruct (hideSiblings (El.children pe) current containerRect hidden d) as [hidden' d'].
  by apply IH.
Qed.

Lemma hideOverlayElements_suppressedFrom (ctx : ScrollContext) (p : Page) :
  suppressedFrom (nodes p) (hideOverlayElements ctx p).1 (hideOverlayElements ctx p).2.
Proof.
  unfold hideOverlayElements.
  pose proof (hideFixed_suppressedFrom (nodes p) (seq 0 (length (nodes p))) [] (nodes p)
                (suppressedFrom_start _) (NoDup_seq _ _)) as H1.
  destruct (hideFixed (seq 0 (length (nodes p))) [] (nodes p)) as [hidden d].
  specialize (H1 ltac:(intros i _; apply not_elem_of_nil)). simpl in H1.
  destruct (element ctx) as [c|]; [|done].
  destruct (d !! c) as [containerEl|]; [|done].
  by apply walkUp_suppressedFrom.
Qed.

(** X8.  Whatever the page and the scroll context, [hideOverlayElements]
    leaves every element it recorded with the inline declaration
    [visibility: hidden !important] and otherwise as it was, leaves
    every other element untouched, and records an element at most
    once, never one of the extension's own, together with the inline
    visibility value it had before. *)
Theorem hideOverlayElements_frame (ctx : ScrollContext) (p : Page) :
  let hidden := (hideOverlayElements ctx p).1 in
  let suppressed := (hideOverlayElements ctx p).2 in
  length suppressed = length (nodes p)
  /\ NoDup (el <$> hidden)
  /\ (forall r, r ∈ hidden ->
        exists e, nodes p !! el r = Some e
                  /\ prev r = El.styleVisibility e
                  /\ El.isOwn e = false
                  /\ suppressed !! el r = Some (El.setPropertyImportant "hidden" e))
  /\ (forall i, i ∉ el <$> hidden -> suppressed !! i = nodes p !! i).
Proof.
  intros hidden suppressed.
  destruct (hideOverlayElements_suppressedFrom ctx p) as (Hnd & Hrec & Hd).
  fold hidden suppressed in Hnd, Hrec, Hd. unfold Dom in *.
  split; [|split; [done|split]].
  - apply Nat.le_antisymm.
    + destruct (decide (length suppressed <= length (nodes p))%nat) as [|Hgt]; [done|].
      assert (Hlt : (length (nodes p) < length suppressed)%nat) by lia.
      apply lookup_lt_is_Some in Hlt as [e He]. rewrite Hd in He.
      by rewrite lookup_ge_None_2 in He.
    + destruct (decide (length (nodes p) <= length suppressed)%nat) as [|Hgt]; [done|].
      assert (Hlt : (length suppressed < length (nodes p))%nat) by lia.
      apply lookup_lt_is_Some in Hlt as [e He].
      specialize (Hd (length suppressed)). rewrite He in Hd.
      by rewrite lookup_ge_None_2 in Hd.
  - intros r Hr. destruct (Hrec r Hr) as (e & He & Hprev & Hown).
    exists e. split; [done|]. split; [done|]. split; [done|].
    rewrite Hd, He. cbn [fmap option_fmap option_map].
    rewrite bool_decide_eq_true_2; [done|]. by apply list_elem_of_fmap_2.
  - intros i Hi. rewrite Hd. rewrite bool_decide_eq_false_2 by done.
    by destruct (_ !! i).
Qed.

(** ** Restoration *)

Lemma restore_lookup_unrecorded (hidden : list OcclusionRecord) :
  forall (d : list El.t) (i : nat),
    i ∉ el <$> hidden -> restoreHiddenElements hidden d !! i = d !! i.
Proof.
  induction hidden as [|h hidden IH]; intros d i Hi; [done|].
  rewrite fmap_cons, not_elem_of_cons in Hi. destruct Hi as [Hne Hi].
  simpl. rewrite IH by done. unfold restoreOne, Dom.
  by rewrite list_lookup_alter_ne.
Qed.

Lemma restore_lookup_recorded (hidden : list OcclusionRecord) :
  NoDup (el <$> hidden) ->
  forall (d : list El.t) (r : OcclusionRecord),
    r ∈ hidden ->
    restoreHiddenElements hidden d !! el r =
      (fun e => if Js.truthy (prev r) then El.assignVisibility (prev r) e
                else El.removeVisibility e) <$> d !! el r.
Proof.
  induction hidden as [|h hidden IH]; intros Hnd d r Hr.
  { by apply elem_of_nil in Hr. }
  rewrite fmap_cons in Hnd. apply NoDup_cons in Hnd as [Hh Hnd].
  simpl. apply elem_of_cons in Hr as [-> | Hr].
  - rewrite restore_lookup_unrecorded by done. unfold restoreOne, Dom.
    by rewrite list_lookup_alter_eq.
  - rewrite IH by done. unfold restoreOne, Dom.
    rewrite list_lookup_alter_ne; [done|].
    intros Heq. apply Hh. rewrite Heq. by apply list_elem_of_fmap_2.
Qed.

Lemma restoredElement_plain (e : El.t) : plainVisibility e -> restoredElement e = e.
Proof.
  unfold plainVisibility, restoredElement, El.styleVisibility.
  destruct e as [i n o ps sh ch cw r [[v imp]|] pa cs]; simpl; [|done].
  intros [-> ->]. done.
Qed.

(** X9.  [restoreHiddenElements] applied to what [hideOverlayElements]
    returns gives every recorded element its earlier inline visibility
    value back, without priority, clears the declaration when there was
    none, and leaves everything else on the page as it was before the
    suppression. *)
Theorem restore_after_hide (ctx : ScrollContext) (p : Page) (i : nat) :
  let hidden := (hideOverlayElements ctx p).1 in
  let suppressed := (hideOverlayElements ctx p).2 in
  restoreHiddenElements hidden suppressed !! i =
    (fun e => if bool_decide (i ∈ el <$> hidden) then restoredElement e else e)
      <$> nodes p !! i.
Proof.
  intros hidden suppressed.
  destruct (hideOverlayElements_suppressedFrom ctx p) as (Hnd & Hrec & Hd).
  fold hidden suppressed in Hnd, Hrec, Hd. unfold Dom in *.
  destruct (decide (i ∈ el <$> hidden)) as [Hin | Hnin].
  - rewrite bool_decide_eq_true_2 by done.
    apply list_elem_of_fmap in Hin as (r & -> & Hr).
    pose proof (restore_lookup_recorded hidden Hnd suppressed r Hr) as Hres.
    unfold Dom in Hres. rewrite Hres.
    destruct (Hrec r Hr) as (e & He & Hprev & _).
    rewrite Hd, He. cbn [fmap option_fmap option_map]. f_equal.
    rewrite bool_decide_eq_true_2 by (by apply list_elem_of_fmap_2).
    rewrite Hprev. unfold restoredElement, suppressedElement.
    by destruct (Js.truthy (El.styleVisibility e)).
  - rewrite bool_decide_eq_false_2 by done.
    pose proof (restore_lookup_unrecorded hidden suppressed i Hnin) as Hres.
    unfold Dom in Hres. rewrite Hres, Hd.
    rewrite bool_decide_eq_false_2 by done. reflexivity.
Qed.

Lemma restore_hide_plain (ctx : ScrollContext) (p : Page) :
  (forall r e, r ∈ (hideOverlayElements ctx p).1 -> nodes p !! el r = Some e ->
     plainVisibility e) ->
  restoreHiddenElements (hideOverlayElements ctx p).1 (hideOverlayElements ctx p).2
  = nodes p.
Proof.
  intros Hplain. apply list_eq. intros i.
  destruct (hideOverlayElements_suppressedFrom ctx p) as (Hnd & Hrec & Hd).
  unfold Dom in *.
  destruct (decide (i ∈ el <$> (hideOverlayElements ctx p).1)) as [Hin | Hnin].
  - apply list_elem_of_fmap in Hin as (r & -> & Hr).
    pose proof (restore_lookup_recorded _ Hnd (hideOverlayElements ctx p).2 r Hr) as Hres.
    unfold Dom in Hres. rewrite Hres.
    destruct (Hrec r Hr) as (e & He & Hprev & _).
    rewrite Hd, He. cbn [fmap option_fmap option_map]. f_equal.
    rewrite bool_decide_eq_true_2 by (by apply list_elem_of_fmap_2).
    transitivity (restoredElement e); [|by apply restoredElement_plain, (Hplain r)].
    rewrite Hprev. unfold restoredElement, suppressedElement.
    by destruct (Js.truthy (El.styleVisibility e)).
  - pose proof (restore_lookup_unrecorded _ (hideOverlayElements ctx p).2 i Hnin) as Hres.
    unfold Dom in Hres. rewrite Hres, Hd.
    rewrite bool_decide_eq_false_2 by done. exact (option_fmap_id _).
Qed.

(** X10.  When every element that gets suppressed has a plain inline
    visibility (no declaration, or a non-empty value without priority),
    suppression followed by restoration gives the page back exactly. *)
Theorem hide_restore_round_trip (ctx : ScrollContext) (p : Page) :
  (forall r e, r ∈ (hideOverlayElements ctx p).1 -> nodes p !! el r = Some e ->
     plainVisibility e) ->
  restoreHiddenElements (hideOverlayElements ctx p).1 (hideOverlayElements ctx p).2
  = nodes p.
Proof. apply restore_hide_plain. Qed.

Lemma hide_restore_round_trip_witness :
  (el <$> (hideOverlayElements Samples.paneContext Samples.overlayPage).1
   = [2%nat; 4%nat; 6%nat])
  /\ restoreHiddenElements
       (hideOverlayElements Samples.paneContext Samples.overlayPage).1
       (hideOverlayElements Samples.paneContext Samples.overlayPage).2
     = nodes Samples.overlayPage.
Proof.
  split; [vm_compute; reflexivity|].
  apply (hide_restore_round_trip Samples.paneContext Samples.overlayPage).
  intros r e Hr He.
  assert (Hel : el r ∈ [2%nat; 4%nat; 6%nat]).
  { change [2%nat; 4%nat; 6%nat]
      with (el <$> (hideOverlayElements Samples.paneContext Samples.overlayPage).1).
    by apply list_elem_of_fmap_2. }
  repeat (apply elem_of_cons in Hel as [Hel | Hel];
          [rewrite Hel in He; vm_compute in He; injection He as <-; vm_compute; auto|]).
  by apply elem_of_nil in Hel.
Defined.

(** ** The walk towards the root terminates *)

Lemma documentOrder_hide (d : Dom) (i : nat) (e : El.t) :
  documentOrder d -> d !! i = Some e ->
  documentOrder (<[i := El.setPropertyImportant "hidden" e]> d).
Proof.
  intros Hd He j ej parent Hj Hp. unfold Dom in *.
  destruct (decide (j = i)) as [-> | Hne].
  - rewrite list_lookup_insert_eq in Hj by (by eapply lookup_lt_Some).
    injection Hj as <-. by apply (Hd i e parent).
  - rewrite list_lookup_insert_ne in Hj by done. by apply (Hd j ej parent).
Qed.

Lemma hideFixed_documentOrder (all : list nat) :
  forall (hidden : list OcclusionRecord) (d : Dom),
    documentOrder d -> documentOrder (hideFixed all hidden d).2.
Proof.
  induction all as [|i all IH]; intros hidden d Hd; [done|]. simpl.
  destruct (d !! i) as [e|] eqn:He; [|by apply IH].
  destruct (El.isOwn e); [by apply IH|].
  destruct (isFixedOrSticky e); [|by apply IH].
  apply IH. by apply documentOrder_hide.
Qed.

Lemma hideSiblings_documentOrder (current : nat) (containerRect : Rect.t)
    (siblings : list nat) :
  forall (hidden : list OcclusionRecord) (d : Dom),
    documentOrder d ->
    documentOrder (hideSiblings siblings current containerRect hidden d).2.
Proof.
  induction siblings as [|s siblings IH]; intros hidden d Hd; [done|]. simpl.
  destruct (s =? current)%nat; [by apply IH|].
  destruct (d !! s) as [e|] eqn:He; [|by apply IH].
  destruct (El.isOwn e); [by apply IH|].
  destruct (alreadyHidden hidden s); [by apply IH|].
  destruct (overlaps (El.rect e) containerRect); [|by apply IH].
  apply IH. by apply documentOrder_hide.
Qed.

Lemma parentOf_before (d : Dom) (current parent : nat) :
  documentOrder d -> parentOf d current = Some parent ->
  (parent < current)%nat /\ is_Some (d !! parent).
Proof.
  intros Hd Hp. unfold parentOf in Hp.
  destruct (d !! current) as [e|] eqn:He; [|done]. simpl in Hp.
  pose proof (Hd current e parent He Hp) as Hlt. split; [done|].
  apply lookup_lt_is_Some. apply lookup_lt_Some in He. lia.
Qed.

(** With handles in document order the bounded walk is the loop: it is
    left by the loop's own exits, never by the bound. *)
Lemma walkUp_walks (root : nat) (containerRect : Rect.t) (fuel : nat) :
  forall (current : nat) (hidden : list OcclusionRecord) (d : Dom),
    documentOrder d -> (current < fuel)%nat ->
    walk root containerRect current hidden d
         (walkUp fuel root current containerRect hidden d).
Proof.
  induction fuel as [|fuel IH]; intros current hidden d Hd Hfuel; [lia|]. simpl.
  destruct (Nat.eqb_spec current root) as [-> | Hne]; [constructor|].
  destruct (parentOf d current) as [parent|] eqn:Hp; [|by apply walk_top].
  destruct (parentOf_before d current parent Hd Hp) as [Hlt [pe Hpe]]. rewrite Hpe.
  destruct (hideSiblings (El.children pe) current containerRect hidden d)
    as [hidden' d'] eqn:Hs.
  eapply walk_step; [done | done | done | exact Hs |].
  apply IH; [|lia].
  pose proof (hideSiblings_documentOrder current containerRect (El.children pe) hidden d Hd)
    as Hd'.
  by rewrite Hs in Hd'.
Qed.

Lemma walk_walkUp (root : nat) (containerRect : Rect.t) (current : nat)
    (hidden : list OcclusionRecord) (d : Dom) (result : list OcclusionRecord * Dom) :
  walk root containerRect current hidden d result ->
  forall fuel : nat,
    documentOrder d -> (current < fuel)%nat ->
    result = walkUp fuel root current containerRect hidden d.
Proof.
  induction 1 as [hidden d | current hidden d Hne Hp
                  | current parent pe hidden hidden' d d' result Hne Hp Hpe Hs Hwalk IH];
    intros fuel Hd Hfuel; (destruct fuel as [|fuel]; [lia|]); simpl.
  - by rewrite Nat.eqb_refl.
  - destruct (Nat.eqb_spec current root); [done|]. by rewrite Hp.
  - destruct (Nat.eqb_spec current root); [done|]. rewrite Hp, Hpe, Hs.
    destruct (parentOf_before d current parent Hd Hp) as [Hlt _].
    apply IH; [|lia].
    pose proof (hideSiblings_documentOrder current containerRect (El.children pe) hidden d Hd)
      as Hd'.
    by rewrite Hs in Hd'.
Qed.

(** X12.  On a page whose handles follow document order, the walk that
    [hideOverlayElements] makes from the container is the loop of lines
    399-421 run to its end: started from what the first pass leaves, the
    loop ends, and what it ends with is the result of
    [hideOverlayElements]. *)
Theorem hideOverlayElements_walks_to_the_end (ctx : ScrollContext) (p : Page) (c : nat)
    (containerEl : El.t) (hidden : list OcclusionRecord) (d : Dom) :
  documentOrder (nodes p) ->
  element ctx = Some c ->
  hideFixed (seq 0 (length (nodes p))) [] (nodes p) = (hidden, d) ->
  d !! c = Some containerEl ->
  walk (documentElement p) (El.rect containerEl) c hidden d (hideOverlayElements ctx p)
  /\ forall result : list OcclusionRecord * Dom,
       walk (documentElement p) (El.rect containerEl) c hidden d result ->
       result = hideOverlayElements ctx p.
Proof.
  intros Hp Hc Hfixed Hcontainer.
  assert (Hd : documentOrder d).
  { pose proof (hideFixed_documentOrder (seq 0 (length (nodes p))) [] (nodes p) Hp) as H.
    by rewrite Hfixed in H. }
  assert (E : hideOverlayElements ctx p
              = walkUp (S c) (documentElement p) c (El.rect containerEl) hidden d).
  { unfold hideOverlayElements. by rewrite Hfixed, Hc, Hcontainer. }
  rewrite E. split.
  - apply walkUp_walks; [done | lia].
  - intros result Hwalk. apply (walk_walkUp _ _ _ _ _ _ Hwalk); [done | lia].
Qed.

Lemma overlayPage_documentOrder : documentOrder (nodes Samples.overlayPage).
Proof.
  intros i e parent Hi Hp.
  do 8 (destruct i as [|i]; [injection Hi as <-; simpl in Hp; try done;
                             injection Hp as <-; lia|]).
  done.
Qed.

Lemma hideOverlayElements_walks_witness :
  let p := Samples.overlayPage in
  let fixed := hideFixed (seq 0 (length (nodes p))) [] (nodes p) in
  documentOrder (nodes p)
  /\ exists containerEl : El.t,
    fixed.2 !! 5%nat = Some containerEl
    /\ walk (documentElement p) (El.rect containerEl) 5 fixed.1 fixed.2
            (hideOverlayElements Samples.paneContext p)
    /\ (hideOverlayElements Samples.paneContext p).1
       = [mkRecord 2 "visible"; mkRecord 4 ""; mkRecord 6 "inherit"].
Proof.
  intros p fixed. split; [exact overlayPage_documentOrder|].
  destruct (fixed.2 !! 5%nat) as [containerEl|] eqn:Hc; [|by vm_compute in Hc].
  exists containerEl. split; [done|]. split; [|vm_compute; reflexivity].
  apply (hideOverlayElements_walks_to_the_end Samples.paneContext p 5 containerEl
           fixed.1 fixed.2 overlayPage_documentOrder eq_refl);
    [apply surjective_pairing | done].
Defined.

(** ** Which elements get hidden *)

Lemma hideFixed_records (d0 : Dom) (all : list nat) :
  forall (hidden : list OcclusionRecord) (d : Dom),
    suppressedFrom d0 hidden d ->
    NoDup all ->
    (forall i, i ∈ all -> i ∉ el <$> hidden) ->
    forall j,
      j ∈ el <$> (hideFixed all hidden d).1 <->
      j ∈ el <$> hidden
      \/ (j ∈ all /\ exists e, d0 !! j = Some e /\ El.isOwn e = false
                               /\ isFixedOrSticky e = true).
Proof.
  induction all as [|i all IH]; intros hidden d Hinv Hnd Hfresh j.
  { simpl. split; [by left|]. intros [H | [H _]]; [done|]. by apply elem_of_nil in H. }
  apply NoDup_cons in Hnd as [Hi Hnd].
  assert (Hfresh' : forall k, k ∈ all -> k ∉ el <$> hidden).
  { intros k Hk. apply Hfresh. by right. }
  assert (Hifresh : i ∉ el <$> hidden) by (apply Hfresh; by left).
  assert (Hskip : (forall e, d0 !! i = Some e -> El.isOwn e = false ->
                     isFixedOrSticky e = true -> False) ->
            j ∈ el <$> (hideFixed all hidden d).1 <->
            j ∈ el <$> hidden
            \/ (j ∈ i :: all /\ exists e, d0 !! j = Some e /\ El.isOwn e = false
                                          /\ isFixedOrSticky e = true)).
  { intros Hno. rewrite (IH hidden d Hinv Hnd Hfresh' j). split.
    - intros [H | [H He]]; [by left | right; split; [by right | done]].
    - intros [H | [H (e & He & Ho & Hf)]]; [by left|].
      apply elem_of_cons in H as [-> | H]; [by destruct (Hno e) | right; eauto]. }
  simpl. destruct (d !! i) as [e|] eqn:He.
  2:{ apply Hskip. intros e He0 _ _. destruct Hinv as (_ & _ & Hd).
      unfold Dom in *. rewrite Hd, He0 in He. done. }
  pose proof (suppressedFrom_unrecorded _ _ _ _ _ Hinv Hifresh He) as He0.
  destruct (El.isOwn e) eqn:Hown.
  { apply Hskip. intros e' He' Ho _. congruence. }
  destruct (isFixedOrSticky e) eqn:Hfix.
  2:{ apply Hskip. intros e' He' _ Hf. congruence. }
  rewrite (IH _ _ (suppressedFrom_step _ _ _ _ _ Hinv Hifresh He Hown) Hnd).
  - rewrite fmap_app, elem_of_app. cbn [fmap list_fmap el].
    rewrite list_elem_of_singleton. split.
    + intros [[H | ->] | [H Hex]].
      * by left.
      * right. split; [by left | by exists e].
      * right. split; [by right | done].
    + intros [H | [H Hex]]; [by left; left|].
      apply elem_of_cons in H as [-> | H]; [left; by right | right; done].
  - intros k Hk. rewrite fmap_app, elem_of_app. cbn [fmap list_fmap el].
    rewrite list_elem_of_singleton. intros [H | ->]; [by apply (Hfresh' k) | done].
Qed.

Lemma hideSiblings_extends (current : nat) (containerRect : Rect.t) (siblings : list nat) :
  forall (hidden : list OcclusionRecord) (d : Dom),
    exists more, (hideSiblings siblings current containerRect hidden d).1 = hidden ++ more.
Proof.
  induction siblings as [|s siblings IH]; intros hidden d; simpl.
  { exists []. by rewrite app_nil_r. }
  destruct (s =? current)%nat; [apply IH|].
  destruct (d !! s) as [e|]; [|apply IH].
  destruct (El.isOwn e); [apply IH|].
  destruct (alreadyHidden hidden s); [apply IH|].
  destruct (overlaps (El.rect e) containerRect); [|apply IH].
  destruct (IH (hidden ++ [mkRecord s (El.styleVisibility e)])
               (<[s := El.setPropertyImportant "hidden" e]> d)) as [more ->].
  exists ([mkRecord s (El.styleVisibility e)] ++ more). by rewrite app_assoc.
Qed.

Lemma walkUp_extends (root : nat) (containerRect : Rect.t) (fuel : nat) :
  forall (current : nat) (hidden : list OcclusionRecord) (d : Dom),
    exists more, (walkUp fuel root current containerRect hidden d).1 = hidden ++ more.
Proof.
  induction fuel as [|fuel IH]; intros current hidden d; simpl.
  { exists []. by rewrite app_nil_r. }
  destruct (current =? root)%nat; [exists []; by rewrite app_nil_r|].
  destruct (parentOf d current) as [parent|]; [|exists []; by rewrite app_nil_r].
  destruct (d !! parent) as [pe|]; [|exists []; by rewrite app_nil_r].
  destruct (hideSiblings_extends current containerRect (El.children pe) hidden d)
    as [more1 H1].
  destruct (hideSiblings (El.children pe) current containerRect hidden d) as [hidden' d'].
  simpl in H1. subst hidden'.
  destruct (IH parent (hidden ++ more1) d') as [more2 ->].
  exists (more1 ++ more2). by rewrite app_assoc.
Qed.

(** X11.  Every element with computed position fixed or sticky that is not
    one of the extension's own is hidden by [hideOverlayElements],
    whatever the scroll context; with a window context nothing else
    is. *)
Theorem fixed_and_sticky_elements_are_hidden (ctx : ScrollContext) (p : Page) :
  (forall i e, nodes p !! i = Some e -> El.isOwn e = false -> isFixedOrSticky e = true ->
     i ∈ el <$> (hideOverlayElements ctx p).1)
  /\ (element ctx = None ->
      forall i, i ∈ el <$> (hideOverlayElements ctx p).1 ->
        exists e, nodes p !! i = Some e /\ El.isOwn e = false /\ isFixedOrSticky e = true).
Proof.
  pose proof (hideFixed_records (nodes p) (seq 0 (length (nodes p))) [] (nodes p)
                (suppressedFrom_start _) (NoDup_seq _ _)
                ltac:(intros i _; apply not_elem_of_nil)) as Hrec.
  unfold hideOverlayElements.
  destruct (hideFixed (seq 0 (length (nodes p))) [] (nodes p)) as [hidden d].
  simpl in Hrec. split.
  - intros i e He Hown Hfix.
    assert (Hin : i ∈ el <$> hidden).
    { apply Hrec. right. split; [|by exists e].
      apply elem_of_seq. apply lookup_lt_Some in He. lia. }
    destruct (element ctx) as [c|]; [|done].
    destruct (d !! c) as [containerEl|]; [|done].
    destruct (walkUp_extends (documentElement p) (El.rect containerEl) (S c) c hidden d)
      as [more ->].
    rewrite fmap_app. apply elem_of_app. by left.
  - intros -> i Hi. simpl in Hi. apply Hrec in Hi as [Hi | [_ Hi]]; [|done].
    by apply elem_of_nil in Hi.
Qed.

(** ** Further properties of the scroll-context resolver *)

(** A handle the loop returns is the candidate it started from or an
    element it accepted. *)
Lemma bfsLoop_result (d : Dom) :
  forall (budget : nat) (queue : list nat) (best : option nat) (maxArea : Z) (h : nat),
    bfsLoop budget d queue best maxArea = Some h ->
    best = Some h
    \/ exists el, d !! h = Some el /\ El.nodeType el = 1 /\ El.isOwn el = false
                  /\ qualifies el = true /\ maxArea < area el.
Proof.
  induction budget as [|budget IH]; intros queue best maxArea h Hr; [by left|].
  destruct queue as [|h0 queue]; [by left|]. simpl in Hr.
  destruct (d !! h0) as [el|] eqn:Hh0; [|by eapply IH].
  destruct (El.nodeType el =? 1) eqn:Hnt; simpl in Hr; [|by eapply IH].
  destruct (El.isOwn el) eqn:Hown; [by eapply IH|].
  destruct (qualifies el && (maxArea <? area el)) eqn:Hbetter.
  - apply andb_true_iff in Hbetter as [Hq Hgt%Z.ltb_lt].
    apply IH in Hr as [[= <-] | (el' & ? & ? & ? & ? & ?)].
    + right. exists el. apply Z.eqb_eq in Hnt. done.
    + right. exists el'. repeat split; try done. lia.
  - by eapply IH.
Qed.



(** X14.  Enqueueing children appends them in order to the end of the queue,
    as many as fit below the cap of 4000 entries: what was queued stays
    in place, a queue at or above the cap takes none, and a queue that
    is within the cap stays within it. *)
Theorem enqueue_appends_up_to_cap (cs queue : list nat) :
  enqueue queue cs = queue ++ take (4000 - length queue) cs
  /\ (length (enqueue queue cs) <= max (length queue) 4000)%nat.
Proof.
  assert (H : forall cs queue, enqueue queue cs = queue ++ take (4000 - length queue) cs).
  { clear. induction cs as [|c cs IH]; intros queue; simpl.
    - by rewrite take_nil, app_nil_r.
    - destruct (Nat.ltb_spec (length queue) 4000) as [Hlt | Hge].
      + rewrite IH, length_app, <- app_assoc. simpl.
        replace (4000 - length queue)%nat with (S (4000 - (length queue + 1)))%nat by lia.
        reflexivity.
      + replace (4000 - length queue)%nat with 0%nat by lia. by rewrite app_nil_r. }
  split; [apply H|].
  rewrite H, length_app, length_take. lia.
Qed.

(** X15.  The traversal is bounded: it examines at most [budget] elements
    (2000 in [findScrollContainer]), and every element it examines is
    an element node of the page that is not one of the extension's
    own. *)
Theorem traversal_is_bounded (d : Dom) (budget : nat) (queue : list nat) :
  (length (bfsVisited budget d queue) <= budget)%nat
  /\ forall h, h ∈ bfsVisited budget d queue ->
       exists el, d !! h = Some el /\ El.nodeType el = 1 /\ El.isOwn el = false.
Proof.
  revert queue. induction budget as [|budget IH]; intros queue.
  { split; [done|]. intros h Hh. by apply elem_of_nil in Hh. }
  destruct queue as [|h0 queue].
  { split; [simpl; lia|]. intros h Hh. by apply elem_of_nil in Hh. }
  simpl. destruct (d !! h0) as [el|] eqn:Hh0.
  2:{ destruct (IH queue) as [Hlen Hall]. split; [lia | done]. }
  destruct (El.nodeType el =? 1) eqn:Hnt; simpl.
  2:{ destruct (IH queue) as [Hlen Hall]. split; [lia | done]. }
  destruct (El.isOwn el) eqn:Hown.
  { destruct (IH queue) as [Hlen Hall]. split; [lia | done]. }
  destruct (IH (enqueue queue (El.children el))) as [Hlen Hall]. split; [simpl; lia|].
  intros h Hh. apply elem_of_cons in Hh as [-> | Hh]; [|by apply Hall].
  exists el. apply Z.eqb_eq in Hnt. done.
Qed.

(** ** Complete runs of the pipeline *)

Section CompleteRuns.

Variable host : Host.

Ltac log_then lem :=
  eapply spec_bind; [apply spec_quiet; [apply lem | apply stable_logIs] | intros ?].

Ltac settled_then lem :=
  eapply spec_bind; [apply spec_quiet; [apply lem | apply stable_settledAt] | intros ?].

Lemma settledAt_logIs (l : list Effect) (t : option nat) (y : Q) (w : World) :
  settledAt l t y w -> logIs l w.
Proof. by intros [? _]. Qed.

(** One step of the capture loop up to the answer: the frame it will
    push carries the settled offset. *)
Lemma expectedCaptures_cons (ctx : ScrollContext) (first : nat) (p : Q) (ps : list Q) :
  expectedCaptures host ctx first (p :: ps) =
    mkCapture (answerUrl (captureVisibleTab host first)) (settle host (element ctx) p)
    :: expectedCaptures host ctx (S first) ps.
Proof.
  unfold expectedCaptures. rewrite imap_cons, Nat.add_0_r. f_equal.
  apply imap_ext. intros j y _. simpl. by rewrite Nat.add_succ_r.
Qed.

(** The capture loop when every answer is accepted. *)
Lemma spec_captureLoop_succeeds (c : nat) (ctx : ScrollContext) :
  forall (ps : list Q) (i n : nat) (caps : list Capture) (l : list Effect),
    (forall j, (j < length ps)%nat ->
       accepted (captureVisibleTab host (snapshotCalls l + j))) ->
    spec (logIs l) (captureLoop host c ctx ps i n caps)
         (fun caps' w =>
            caps' = caps ++ expectedCaptures host ctx (snapshotCalls l) ps
            /\ logIs (l ++ concat (stepCalls ctx <$> ps)) w)
         (fun _ _ => False).
Proof.
  induction ps as [|p ps IH]; intros i n caps l Hacc.
  { intros w Hl. simpl. split; [by rewrite app_nil_r | by rewrite app_nil_r]. }
  cbn [captureLoop].
  log_then quiet_showProgress.
  eapply spec_bind; [apply spec_setScroll | intros ?].
  settled_then quiet_waitForPaint.
  settled_then quiet_delay.
  eapply spec_bind; [apply spec_getScrollTop | intros actual].
  eapply (spec_conseq _
            (fun w => actual = settle host (element ctx) p
                      /\ logIs (l ++ [ScrollTo (element ctx) p]) w));
    [ | intros w [-> [Hl Hoff]]; split; [done | exact Hl] | intros ? ? H; exact H
      | intros ? ? H; exact H ].
  apply spec_pure. intros ->.
  log_then quiet_setProgressDisplay.
  log_then quiet_hideOverlay.
  log_then quiet_waitForPaint.
  log_then quiet_delay.
  eapply spec_bind; [apply spec_sendMessage_captureTab | intros response].
  apply spec_pure. intros ->. rewrite snapshotCalls_scroll.
  log_then quiet_restoreHidden.
  log_then quiet_setProgressDisplay.
  pose proof (Hacc 0%nat ltac:(simpl; lia)) as H0. rewrite Nat.add_0_r in H0.
  rewrite expectedCaptures_cons.
  destruct (captureVisibleTab host (snapshotCalls l)) as [|url0 error0]; [done|].
  simpl in H0. rewrite H0.
  eapply spec_conseq;
    [apply (IH (S i) n _ ((l ++ [ScrollTo (element ctx) p]) ++ [SendMessage captureTab]))
    | done | | done].
  - intros j Hj. rewrite <- app_assoc. change ([?a] ++ [?b]) with (stepCalls ctx p).
    rewrite snapshotCalls_step. replace (S (snapshotCalls l) + j)%nat
      with (snapshotCalls l + S j)%nat by lia. apply Hacc. simpl. lia.
  - intros caps' w [-> Hl]. split.
    + rewrite <- (app_assoc l). change ([?a] ++ [?b]) with (stepCalls ctx p).
      rewrite snapshotCalls_step. by rewrite <- app_assoc.
    + unfold logIs in *. rewrite Hl. simpl. by rewrite <- !app_assoc.
Qed.

Lemma spec_sendMessage_log (l : list Effect) (msg : Message)
    (E : string -> World -> Prop) :
  spec (logIs l) (sendMessage host msg) (fun _ => logIs (l ++ [SendMessage msg])) E.
Proof.
  intros w Hl. unfold logIs in Hl. unfold sendMessage, bind, get, emit, modify, ret.
  destruct (quiet_await host (withLog (log w ++ [SendMessage msg]) w))
    as ([] & w' & -> & Hs & _).
  simpl in Hs. unfold logIs. by rewrite Hs, Hl.
Qed.

(** [performCapture] when every answer is accepted and the stitcher
    returns. *)
Lemma spec_performCapture_succeeds (arrayLimit c : nat) (ctx : ScrollContext) (T W d : Q)
    (pageTitle : string) (ps : list Q) (url : DataUrl) (l : list Effect) :
  (0 < T)%Q ->
  scrollPositions arrayLimit T (scrollStep ctx) = Some ps ->
  (forall j, (j < length ps)%nat ->
     accepted (captureVisibleTab host (snapshotCalls l + j))) ->
  stitchCaptures (decodeImage host) (canvasFits host)
                 (expectedCaptures host ctx (snapshotCalls l) ps) T W d ctx = Returned url ->
  spec (logIs l) (performCapture host arrayLimit c ctx T W d pageTitle)
       (fun _ => logIs (l ++ concat (stepCalls ctx <$> ps)
                          ++ [StitchCaptures (expectedCaptures host ctx (snapshotCalls l) ps);
                              SendMessage (download url pageTitle)]))
       (fun _ _ => False).
Proof.
  intros HT Hps Hacc Hstitch. unfold performCapture.
  replace (Js.leb T 0) with false.
  2:{ symmetry. apply not_true_iff_false. rewrite leb_le. by apply Qlt_not_le. }
  rewrite Hps.
  eapply spec_bind; [by apply spec_captureLoop_succeeds | intros caps].
  apply spec_pure. intros ->. rewrite app_nil_l, Hstitch.
  log_then quiet_showProgress.
  eapply spec_bind; [apply spec_emit | intros ?].
  eapply spec_bind; [apply (spec_ret _ url) | intros stitched].
  apply spec_pure. intros ->.
  log_then quiet_await.
  log_then quiet_showProgress.
  eapply spec_bind; [apply spec_sendMessage_log | intros ?].
  log_then quiet_showProgress. cbv beta. rewrite <- !app_assoc.
  apply spec_quiet; [apply quiet_delay | apply stable_logIs].
Qed.

(** X2.  The complete run.  When the click is accepted with a target offset
    [T > 0], the position loop returns the positions [ps], every one
    of the snapshot requests, one for each position, is answered
    without error and the frames stitch to [url], the calls that leave
    the script are, in this order: for each position the scroll
    request and the snapshot request; the stitcher, on the frames
    taken at the offsets the platform settled at; one download message
    carrying [url] and the page title; and the scroll request that puts
    the offset back.  The session ends torn down. *)
Theorem successful_capture_run (arrayLimit c : nat) (e : ClickEvent) (w : World)
    (ctx : ScrollContext) (ps : list Q) (url : DataUrl) :
  let T := targetOffset ctx e w in
  let frames := expectedCaptures host ctx (snapshotCalls (log w)) ps in
  isCapturing (closureOf w c) = false ->
  insideBar e || insideProgress e = false ->
  createScrollContext (page w) = Some ctx ->
  (0 < T)%Q ->
  scrollPositions arrayLimit T (scrollStep ctx) = Some ps ->
  (forall j, (j < length ps)%nat ->
     accepted (captureVisibleTab host (snapshotCalls (log w) + j))) ->
  stitchCaptures (decodeImage host) (canvasFits host) frames T (innerWidth (page w))
                 (pixelRatio (page w)) ctx = Returned url ->
  settle host (element ctx) (scrollOffset w (element ctx)) = scrollOffset w (element ctx) ->
  exists w' : World,
    onClick host arrayLimit c e w = (Returned tt, w')
    /\ log w' = log w ++ concat (stepCalls ctx <$> ps)
                      ++ [StitchCaptures frames;
                          SendMessage (download url (title (page w)));
                          ScrollTo (element ctx) (scrollOffset w (element ctx))]
    /\ snapshotCalls (log w') = (snapshotCalls (log w) + length ps)%nat
    /\ scrollOffset w' (element ctx) = scrollOffset w (element ctx)
    /\ tornDown c w'.
Proof.
  intros T frames Hbusy Hinside Hctx HT Hps Hacc Hstitch Hsettle.
  destruct (onClick_run host arrayLimit c e w ctx
              (log w ++ concat (stepCalls ctx <$> ps)
                 ++ [StitchCaptures frames;
                     SendMessage (download url (title (page w)))])
              Hbusy Hinside Hctx Hsettle)
    as (w' & Hrun & Hlog & Hoff & Htd).
  - eapply spec_tryCatch.
    + by apply (spec_performCapture_succeeds arrayLimit c ctx _ _ _ _ ps url (log w) HT Hps).
    + intros m w0 [].
  - exists w'. split; [done|].
    assert (Hlogeq : log w' = log w ++ concat (stepCalls ctx <$> ps)
                       ++ [StitchCaptures frames;
                           SendMessage (download url (title (page w)));
                           ScrollTo (element ctx) (scrollOffset w (element ctx))]).
    { rewrite Hlog. by rewrite <- !app_assoc. }
    split; [done|]. split; [|done].
    rewrite Hlogeq. destruct (calls_of_steps ctx ps) as (Hc1 & _).
    rewrite !snapshotCalls_app, Hc1. unfold snapshotCalls. simpl. lia.
Qed.

(** *** Whatever the host answers *)

(** The capture loop without any assumption on the answers: it takes
    all its steps and returns, or throws after some of them. *)
Lemma spec_captureLoop_any (c : nat) (ctx : ScrollContext) :
  forall (ps : list Q) (i n : nat) (caps : list Capture) (l : list Effect),
    spec (logIs l) (captureLoop host c ctx ps i n caps)
         (fun _ => logIs (l ++ concat (stepCalls ctx <$> ps)))
         (fun _ w => exists k, (k < length ps)%nat
                       /\ logIs (l ++ concat (stepCalls ctx <$> take (S k) ps)) w).
Proof.
  induction ps as [|p ps IH]; intros i n caps l.
  { intros w Hl. simpl. by rewrite app_nil_r. }
  cbn [captureLoop].
  log_then quiet_showProgress.
  eapply spec_bind; [apply spec_setScroll_log | intros ?].
  log_then quiet_waitForPaint.
  log_then quiet_delay.
  log_then (quiet_get (fun w => scrollOffset w (element ctx))).
  log_then quiet_setProgressDisplay.
  log_then quiet_hideOverlay.
  log_then quiet_waitForPaint.
  log_then quiet_delay.
  eapply spec_bind; [apply spec_sendMessage_log | intros response].
  log_then quiet_restoreHidden.
  log_then quiet_setProgressDisplay.
  assert (Hthrow : forall m,
            spec (logIs ((l ++ [ScrollTo (element ctx) p]) ++ [SendMessage captureTab]))
                 (throw m)
                 (fun _ : list Capture =>
                    logIs (l ++ concat (stepCalls ctx <$> p :: ps)))
                 (fun _ w => exists k, (k < length (p :: ps))%nat
                    /\ logIs (l ++ concat (stepCalls ctx <$> take (S k) (p :: ps))) w)).
  { intros m w Hl. unfold throw. exists 0%nat. split; [simpl; lia|].
    unfold logIs in *. rewrite Hl. simpl. by rewrite <- !app_assoc. }
  destruct response as [|url0 error0]; [apply Hthrow|].
  destruct (Js.truthy (default "" error0)); [apply Hthrow|].
  eapply spec_conseq; [apply IH | done | |].
  - intros ? w Hl. unfold logIs in *. rewrite Hl. simpl. by rewrite <- !app_assoc.
  - intros ? w (k & Hk & Hl). exists (S k). split; [simpl; lia|].
    unfold logIs in *. rewrite Hl. simpl. by rewrite <- !app_assoc.
Qed.

Lemma boundedCalls_steps (ctx : ScrollContext) (ps : list Q) (k : nat) :
  (k <= length ps)%nat -> boundedCalls (length ps) (concat (stepCalls ctx <$> take k ps)).
Proof.
  intros Hk. destruct (calls_of_steps ctx (take k ps)) as (H1 & H2 & H3).
  rewrite length_take in H1. unfold boundedCalls. rewrite H1, H2, H3. simpl.
  split; [lia|]. split; [lia|]. split; [lia|]. lia.
Qed.

Lemma boundedCalls_error (n : nat) (added : list Effect) (m : string) :
  boundedCalls n added ->
  length (List.filter isDownload added) = 0%nat ->
  boundedCalls n (added ++ [ConsoleError m]).
Proof.
  intros (H1 & H2 & H3 & H4) H0. unfold boundedCalls, snapshotCalls in *.
  rewrite !List.filter_app, !length_app. simpl. rewrite !Nat.add_0_r.
  split; [done|]. split; [done|]. split; [done|]. lia.
Qed.

(** [performCapture] for a positive target, whatever the answers and
    whatever the stitcher does. *)
Lemma spec_performCapture_any (arrayLimit c : nat) (ctx : ScrollContext) (T W d : Q)
    (pageTitle : string) (ps : list Q) (l : list Effect) :
  (0 < T)%Q ->
  scrollPositions arrayLimit T (scrollStep ctx) = Some ps ->
  spec (logIs l) (performCapture host arrayLimit c ctx T W d pageTitle)
       (fun _ w => exists added, logIs (l ++ added) w /\ boundedCalls (length ps) added)
       (fun _ w => exists added, logIs (l ++ added) w /\ boundedCalls (length ps) added
                                 /\ length (List.filter isDownload added) = 0%nat).
Proof.
  intros HT Hps. unfold performCapture.
  replace (Js.leb T 0) with false.
  2:{ symmetry. apply not_true_iff_false. rewrite leb_le. by apply Qlt_not_le. }
  rewrite Hps.
  destruct (calls_of_steps ctx ps) as (Hs1 & Hs2 & Hs3).
  eapply spec_bind.
  { eapply spec_conseq; [apply (spec_captureLoop_any c ctx ps 0 (length ps) [] l)
                        | done | intros a w H; exact H |].
    intros ? w (k & Hk & Hl). eexists. split; [exact Hl|].
    split; [apply boundedCalls_steps; lia|].
    destruct (calls_of_steps ctx (take (S k) ps)) as (_ & _ & ->). done. }
  intros caps.
  log_then quiet_showProgress.
  eapply spec_bind; [apply spec_emit | intros ?].
  destruct (stitchCaptures (decodeImage host) (canvasFits host) caps T W d ctx) as [url|m].
  - eapply spec_bind; [apply (spec_ret _ url) | intros stitched].
    apply spec_pure. intros ->.
    log_then quiet_await.
    log_then quiet_showProgress.
    eapply spec_bind; [apply spec_sendMessage_log | intros ?].
    log_then quiet_showProgress.
    eapply spec_conseq;
      [apply spec_quiet; [apply quiet_delay | apply stable_logIs]
      | intros w H; exact H | | intros ? ? H; exact H].
    intros ? w Hl. eexists. split; [rewrite <- !app_assoc in Hl; exact Hl|].
    unfold boundedCalls, snapshotCalls in *.
    rewrite !List.filter_app, !length_app, Hs1, Hs2, Hs3. simpl. lia.
  - intros w Hl. unfold bind. cbv beta iota.
    eexists. split; [unfold logIs in *; rewrite <- !app_assoc in Hl; exact Hl|].
    unfold boundedCalls, snapshotCalls in *.
    rewrite !List.filter_app, !length_app, Hs1, Hs2, Hs3. simpl. lia.
Qed.

Lemma stable_log_and_offset (Post : list Effect -> Prop) (t : option nat) (y : Q) :
  stable (fun w => Post (log w) /\ scrollOffset w t = y).
Proof. intros w w' [Hl Hf] [HPost Hy]. rewrite Hl, Hf. done. Qed.

Lemma stable_log (Post : list Effect -> Prop) : stable (fun w => Post (log w)).
Proof. intros w w' [Hl Hf] HPost. by rewrite Hl. Qed.

Lemma spec_onClick_tail_any (Post : list Effect -> Prop) (l : list Effect) (c : nat)
    (ctx : ScrollContext) (capture : M unit) (original : Q) :
  spec (logIs l) (tryCatch capture (captureFailed host c))
       (fun _ w => Post (log w)) (fun _ _ => False) ->
  spec (logIs l)
       (hideInteractiveUI c >>
        showProgress c "Preparing capture…" >>
        tryCatch capture (captureFailed host c) >>
        setScroll host ctx original >>
        deactivate c)
       (fun _ w => ((exists l', Post l' /\ log w = l' ++ [ScrollTo (element ctx) original])
                    /\ scrollOffset w (element ctx) = settle host (element ctx) original)
                   /\ tornDown c w)
       (fun _ _ => False).
Proof.
  intros Hcapture.
  log_then quiet_hideInteractiveUI.
  log_then quiet_showProgress.
  eapply spec_bind; [exact Hcapture | intros ?].
  eapply (spec_bind _ _ _
            (fun _ w1 => (exists l', Post l'
                            /\ log w1 = l' ++ [ScrollTo (element ctx) original])
                         /\ scrollOffset w1 (element ctx)
                            = settle host (element ctx) original)).
  - intros w HPost.
    pose proof (spec_setScroll host (log w) ctx original (fun _ _ => False) w eq_refl) as H.
    destruct (setScroll host ctx original w) as [[[]|m] w1]; [|done].
    destruct H as [Hlog Hoff].
    exact (conj (ex_intro _ (log w) (conj HPost Hlog)) Hoff).
  - intros ?. apply spec_deactivate.
    apply (stable_log_and_offset
             (fun l1 => exists l', Post l' /\ l1 = l' ++ [ScrollTo (element ctx) original])).
Qed.

(** [performCapture] when the position loop overflows the array: the
    RangeError leaves it before anything else is done. *)
Lemma spec_performCapture_overflow (arrayLimit c : nat) (ctx : ScrollContext) (T W d : Q)
    (pageTitle : string) (l : list Effect) :
  (0 < T)%Q ->
  scrollPositions arrayLimit T (scrollStep ctx) = None ->
  spec (logIs l) (performCapture host arrayLimit c ctx T W d pageTitle)
       (fun _ _ => False)
       (fun m w => m = "Invalid array length" /\ logIs l w).
Proof.
  intros HT Hps. unfold performCapture.
  replace (Js.leb T 0) with false.
  2:{ symmetry. apply not_true_iff_false. rewrite leb_le. by apply Qlt_not_le. }
  rewrite Hps. intros w Hl. by unfold throw.
Qed.

Lemma spec_capture_overflow (arrayLimit c : nat) (ctx : ScrollContext) (T W d : Q)
    (pageTitle : string) (l : list Effect) :
  (0 < T)%Q ->
  scrollPositions arrayLimit T (scrollStep ctx) = None ->
  spec (logIs l)
       (tryCatch (performCapture host arrayLimit c ctx T W d pageTitle)
                 (captureFailed host c))
       (fun _ w => log w = l ++ [ConsoleError "Invalid array length"])
       (fun _ _ => False).
Proof.
  intros HT Hps. eapply spec_tryCatch.
  - eapply spec_conseq;
      [apply (spec_performCapture_overflow arrayLimit c ctx T W d pageTitle l HT Hps)
      | done | intros ? ? [] | intros ? ? H; exact H].
  - intros m. apply (spec_pure (m = "Invalid array length")). intros ->.
    apply spec_captureFailed.
Qed.

(** The number of positions the loop of lines 211-217 has built when it
    is left: none when it is left by the RangeError. *)
Lemma onClick_tail_run (Post : list Effect -> Prop) (arrayLimit c : nat) (e : ClickEvent)
    (w : World) (ctx : ScrollContext) :
  isCapturing (closureOf w c) = false ->
  insideBar e || insideProgress e = false ->
  createScrollContext (page w) = Some ctx ->
  spec (logIs (log w))
       (tryCatch (performCapture host arrayLimit c ctx (targetOffset ctx e w)
                    (innerWidth (page w)) (pixelRatio (page w)) (title (page w)))
                 (captureFailed host c))
       (fun _ w0 => Post (log w0)) (fun _ _ => False) ->
  exists (w' : World) (l' : list Effect),
    onClick host arrayLimit c e w = (Returned tt, w')
    /\ Post l'
    /\ log w' = l' ++ [ScrollTo (element ctx) (scrollOffset w (element ctx))]
    /\ scrollOffset w' (element ctx)
       = settle host (element ctx) (scrollOffset w (element ctx))
    /\ tornDown c w'.
Proof.
  intros Hbusy Hinside Hctx Hcapture.
  rewrite (onClick_accepted host arrayLimit c e w ctx Hbusy Hinside Hctx).
  pose proof (spec_onClick_tail_any Post (log w) c ctx _ (scrollOffset w (element ctx)) Hcapture
                (snd (setCapturing c w)) eq_refl) as Htail.
  remember (snd (setCapturing c w)) as w1 eqn:Hw1. clear Hw1.
  match type of Htail with
  | let (_, _) := ?m w1 in _ => destruct (m w1) as [[[]|m'] w']
  end; [|done].
  destruct Htail as [[(l' & HPost & Hlog) Hoff] Htd].
  by exists w', l'.
Qed.


(** X4.  With a step that is zero or negative and a target offset above
    zero, the position loop never reaches the target: it is left by
    the RangeError of the push that overflows the array.  [onClick]
    catches it: the only calls that leave the script are the error
    report and the scroll request that puts the offset back; no
    snapshot is requested, nothing is stitched or downloaded, and the
    session is torn down. *)
Theorem nonpositive_step_overflows_the_array (arrayLimit c : nat) (e : ClickEvent)
    (w : World) (ctx : ScrollContext) :
  let T := targetOffset ctx e w in
  let original := scrollOffset w (element ctx) in
  isCapturing (closureOf w c) = false ->
  insideBar e || insideProgress e = false ->
  createScrollContext (page w) = Some ctx ->
  (0 < T)%Q ->
  (scrollStep ctx <= 0)%Q ->
  scrollPositions arrayLimit T (scrollStep ctx) = None
  /\ exists w' : World,
       onClick host arrayLimit c e w = (Returned tt, w')
       /\ log w' = log w ++ [ConsoleError "Invalid array length";
                             ScrollTo (element ctx) original]
       /\ scrollOffset w' (element ctx) = settle host (element ctx) original
       /\ tornDown c w'.
Proof.
  intros T original Hbusy Hinside Hctx HT HS.
  pose proof (scrollPositions_stuck T (scrollStep ctx) arrayLimit HT HS) as Hps.
  split; [exact Hps|].
  destruct (onClick_tail_run
              (fun l1 => l1 = log w ++ [ConsoleError "Invalid array length"])
              arrayLimit c e w ctx Hbusy Hinside Hctx)
    as (w' & l' & Hrun & -> & Hlog & Hoff & Htd).
  { by apply spec_capture_overflow. }
  exists w'. split; [exact Hrun|]. split; [|done].
  rewrite Hlog. by rewrite <- app_assoc.
Qed.

End CompleteRuns.

Lemma successful_capture_run_witness :
  let ctx := mkCtx window None 0 800 in
  let e := Demo.click 1850 in
  let w := Demo.awaiting in
  let ps := [0%Q; 800%Q; 1600%Q] in
  (0 < targetOffset ctx e w)%Q
  /\ scrollPositions 10 (targetOffset ctx e w) (scrollStep ctx) = Some ps
  /\ exists w' : World,
       onClick Demo.host 10 0 e w = (Returned tt, w')
       /\ snapshotCalls (log w') = (snapshotCalls (log w) + length ps)%nat
       /\ scrollOffset w' (element ctx) = scrollOffset w (element ctx)
       /\ tornDown 0 w'.
Proof.
  intros ctx e w ps.
  assert (Hps : scrollPositions 10 (targetOffset ctx e w) (scrollStep ctx) = Some ps)
    by (vm_compute; reflexivity).
  split; [reflexivity|]. split; [exact Hps|].
  destruct (stitchCaptures (decodeImage Demo.host) (canvasFits Demo.host)
              (expectedCaptures Demo.host ctx (snapshotCalls (log w)) ps)
              (targetOffset ctx e w) (innerWidth (page w)) (pixelRatio (page w)) ctx)
    as [url|m] eqn:Hurl; [|vm_compute in Hurl; discriminate].
  assert (H3 : createScrollContext (page w) = Some ctx) by (vm_compute; reflexivity).
  destruct (successful_capture_run Demo.host 10 0 e w ctx ps url
              eq_refl eq_refl H3 eq_refl Hps (fun j _ => eq_refl) Hurl eq_refl)
    as (w' & Hrun & _ & Hcalls & Hoff & Htd).
  exists w'. split; [exact Hrun|]. split; [exact Hcalls|].
  split; [exact Hoff | exact Htd].
Defined.


Lemma nonpositive_step_witness :
  let w := snd (inject (Demo.world Samples.minimizedPage)) in
  let ctx := mkCtx window None 0 0 in
  let e := Demo.click 1850 in
  createScrollContext (page w) = Some ctx
  /\ (0 < targetOffset ctx e w)%Q /\ (scrollStep ctx <= 0)%Q
  /\ scrollPositions 10 (targetOffset ctx e w) (scrollStep ctx) = None
  /\ exists w' : World,
       onClick Demo.host 10 0 e w = (Returned tt, w')
       /\ log w' = [ConsoleError "Invalid array length"; ScrollTo None 0%Q]
       /\ tornDown 0 w'.
Proof.
  intros w ctx e.
  assert (H3 : createScrollContext (page w) = Some ctx) by (vm_compute; reflexivity).
  assert (HS : (scrollStep ctx <= 0)%Q) by discriminate.
  split; [exact H3|]. split; [reflexivity|]. split; [exact HS|].
  destruct (nonpositive_step_overflows_the_array Demo.host 10 0 e w ctx
              eq_refl eq_refl H3 eq_refl HS)
    as (Hps & w' & Hrun & Hlog & _ & Htd).
  split; [exact Hps|]. exists w'. split; [exact Hrun|]. split; [exact Hlog | exact Htd].
Defined.

(** ** The life cycle of a session *)

(** What a run of the script does when the global flag is off: [b] is
    the bar whose cancel button [getElementById] finds. *)
Lemma inject_inactive (w : World) :
  hvppyCaptureActive w = false ->
  exists b : nat,
    (b <= length (ui w))%nat
    /\ (Forall (fun u => ~ (kind u = CaptureBar /\ attached u = true)) (ui w) ->
        b = length (ui w))
    /\ inject w =
       (Returned tt,
        mkWorld (page w) (scrollOffset w) true (Some (length (closures w)))
                (closures w ++ [mkClosure (Some (S (length (ui w)))) (Some (length (ui w)))
                                          (Some (S (S (length (ui w))))) false])
                (alter (fun u => mkUi (kind u) (attached u) (display u) (textContent u)
                                      (cancelHandlers u ++ [length (closures w)])) b
                       (ui w ++ [mkUi CaptureBar true "" "" []; mkUi GuideLine true "" "" [];
                                 mkUi ProgressOverlay true "none" "" []]))
                (listeners w ++ [length (closures w)]) (log w) (ticks w)).
Proof.
  destruct w as [pg offsets act exposed cls u ls lg tk]. simpl. intros ->.
  unfold inject, activate, setClosure, whenSome, bind, get, modify, ret, findCancelBtn.
  world_cbn.
  rewrite <- !app_assoc. simpl.
  assert (Hins : <[length cls := mkClosure (Some (S (length u))) (Some (length u))
                                           (Some (S (S (length u)))) false]>
                   (cls ++ [mkClosure None None None false])
                 = cls ++ [mkClosure (Some (S (length u))) (Some (length u))
                                     (Some (S (S (length u)))) false]).
  { rewrite insert_app_r_alt by lia. by rewrite Nat.sub_diag. }
  rewrite Hins.
  destruct (list_find (fun e => kind e = CaptureBar /\ attached e = true)
              (u ++ [mkUi CaptureBar true "" "" []; mkUi GuideLine true "" "" [];
                     mkUi ProgressOverlay true "none" "" []])) as [[b x]|] eqn:Hfind.
  - simpl. exists b. split; [|split; [|reflexivity]].
    + apply list_find_Some in Hfind as (Hb & _ & Hfirst).
      destruct (decide (b <= length u)%nat) as [|Hgt]; [done|].
      exfalso. apply (Hfirst (length u) (mkUi CaptureBar true "" "" [])); [|lia|done].
      rewrite lookup_app_r by lia. by rewrite Nat.sub_diag.
    + intros Hnone. apply list_find_Some in Hfind as (Hb & Hx & Hfirst).
      destruct (decide (b < length u)%nat) as [Hlt|Hge].
      * rewrite lookup_app_l in Hb by done.
        rewrite Forall_forall in Hnone. exfalso. apply (Hnone x); [|done].
        by eapply list_elem_of_lookup_2.
      * destruct (decide (b <= length u)%nat) as [|Hgt]; [lia|].
        exfalso. apply (Hfirst (length u) (mkUi CaptureBar true "" "" [])); [|lia|done].
        rewrite lookup_app_r by lia. by rewrite Nat.sub_diag.
  - exfalso. apply list_find_None in Hfind.
    rewrite Forall_forall in Hfind.
    apply (Hfind (mkUi CaptureBar true "" "" [])); [|done].
    rewrite elem_of_app. right. left.
Qed.

#[local] Arguments detach : simpl never.

Lemma attached_detach (h : option nat) (u : list UiEl) :
  attached <$> detach h u = from_option (fun i => <[i := false]> (attached <$> u))
                                        (attached <$> u) h.
Proof.
  destruct h as [i|]; unfold detach; simpl; [|done].
  rewrite (list_fmap_alter attached _ (fun _ => false)) by (by apply Forall_true).
  apply list_eq. intros j. destruct (decide (j = i)) as [->|Hne].
  - destruct (decide (i < length (attached <$> u))%nat) as [Hlt|Hge].
    + rewrite list_lookup_alter_eq, list_lookup_insert_eq by done.
      destruct (lookup_lt_is_Some_2 _ _ Hlt) as [x ->]. done.
    + rewrite list_lookup_alter_eq.
      rewrite (lookup_ge_None_2 (attached <$> u)) by lia.
      symmetry. apply lookup_ge_None_2. rewrite length_insert. lia.
  - by rewrite list_lookup_alter_ne, list_lookup_insert_ne.
Qed.

(** X16.  Clicking the icon twice is a round trip.  The first run of the
    script creates a session awaiting a click; the second tears that
    session down: the three elements the first created are out of the
    document again and every other injected element is attached or not
    as before, the listeners of the session are gone, the variables of
    other sessions are untouched, and nothing was scrolled, sent or
    changed on the page. *)
Theorem toggle_round_trip (w : World) :
  hvppyCaptureActive w = false ->
  let c := length (closures w) in
  let w1 := snd (inject w) in
  let w2 := snd (inject w1) in
  phase w1 = activeAwaitingClick
  /\ c ∈ listeners w1
  /\ phase w2 = inactive
  /\ tornDown c w2
  /\ attached <$> ui w2 = (attached <$> ui w) ++ [false; false; false]
  /\ listeners w2 = filter (fun l => l ≠ c) (listeners w)
  /\ (forall c', c' ≠ c -> closureOf w2 c' = closureOf w c')
  /\ log w2 = log w /\ scrollOffset w2 = scrollOffset w /\ page w2 = page w.
Proof.
  intros Hoff c w1 w2.
  destruct (inject_inactive w Hoff) as (b & Hb & _ & Hinj).
  assert (Hw1 : w1 = snd (inject w)) by reflexivity. rewrite Hinj in Hw1. simpl in Hw1.
  assert (Hcl : closureOf w1 c = mkClosure (Some (S (length (ui w)))) (Some (length (ui w)))
                                           (Some (S (S (length (ui w))))) false).
  { rewrite Hw1. unfold closureOf, c. simpl.
    rewrite lookup_app_r by lia. by rewrite Nat.sub_diag. }
  assert (Hw2 : w2 = snd (deactivate c w1)).
  { unfold w2. rewrite (inject_active w1 c); [done| |]; by rewrite Hw1. }
  clearbody w1 w2.
  pose proof (deactivate_tornDown c w1) as Htd. rewrite <- Hw2 in Htd.
  rewrite deactivate_result, Hcl in Hw2. simpl in Hw2.
  assert (Hact : hvppyCaptureActive w1 = true) by (by rewrite Hw1).
  assert (Hexp : hvppyCaptureDeactivate w1 = Some c) by (by rewrite Hw1).
  split. { unfold phase. by rewrite Hact, Hexp, Hcl. }
  split. { rewrite Hw1. simpl. rewrite elem_of_app. right. left. }
  split. { unfold phase. by destruct Htd as (_ & _ & ->). }
  split; [exact Htd|].
  split.
  { rewrite Hw2. simpl.
    rewrite (attached_detach (Some _)), (attached_detach (Some _)),
      (attached_detach (Some _)). simpl.
    rewrite Hw1. simpl.
    rewrite (list_fmap_alter attached _ id) by (by apply Forall_true).
    rewrite list_alter_id by done.
    rewrite fmap_app. simpl.
    replace (length (ui w)) with (length (attached <$> ui w) + 0)%nat
      by (rewrite length_fmap; lia).
    rewrite insert_app_r. simpl.
    replace (S (length (attached <$> ui w) + 0)) with (length (attached <$> ui w) + 1)%nat
      by lia.
    rewrite insert_app_r. simpl.
    replace (S (length (attached <$> ui w) + 1)) with (length (attached <$> ui w) + 2)%nat
      by lia.
    rewrite insert_app_r. reflexivity. }
  split.
  { rewrite Hw2. simpl. rewrite Hw1. simpl. rewrite filter_app.
    rewrite filter_cons_False by (intros Hne; by apply Hne).
    by rewrite filter_nil, app_nil_r. }
  split.
  { intros c' Hne. rewrite Hw2. unfold closureOf. simpl.
    rewrite list_lookup_insert_ne by done. rewrite Hw1. simpl.
    destruct (decide (c' < length (closures w))%nat) as [Hlt|Hge].
    - by rewrite lookup_app_l.
    - rewrite (lookup_ge_None_2 (closures w)) by lia.
      rewrite lookup_ge_None_2; [done|]. rewrite length_app. simpl. unfold c in Hne. lia. }
  rewrite Hw2. simpl. rewrite Hw1. done.
Qed.

Lemma toggle_round_trip_witness :
  let w := Demo.world Demo.page in
  phase (snd (inject w)) = activeAwaitingClick
  /\ phase (snd (inject (snd (inject w)))) = inactive
  /\ attached <$> ui (snd (inject (snd (inject w)))) = [false; false; false]
  /\ log (snd (inject (snd (inject w)))) = [].
Proof.
  intros w.
  destruct (toggle_round_trip w eq_refl)
    as (H1 & _ & H2 & _ & H3 & _ & _ & H4 & _).
  split; [exact H1|]. split; [exact H2|]. split; [exact H3 | exact H4].
Defined.

(** X17.  The cancel button ends the session exactly as a second click on
    the icon does.  When no other bar is in the document, the button
    [activate] finds is the one of the bar it has just created, and a
    click on it runs the teardown of that session. *)
Theorem cancel_button_tears_down (w : World) :
  hvppyCaptureActive w = false ->
  Forall (fun u => ~ (kind u = CaptureBar /\ attached u = true)) (ui w) ->
  let c := length (closures w) in
  let w1 := snd (inject w) in
  let bar := length (ui w) in
  barEl (closureOf w1 c) = Some bar
  /\ cancelHandlers <$> ui w1 !! bar = Some [c]
  /\ deliver (CancelClick bar) w1 = snd (deactivate c w1)
  /\ deliver (CancelClick bar) w1 = snd (inject w1)
  /\ phase (deliver (CancelClick bar) w1) = inactive
  /\ tornDown c (deliver (CancelClick bar) w1).
Proof.
  intros Hoff Hnone c w1 bar.
  destruct (inject_inactive w Hoff) as (b & _ & Hb & Hinj).
  specialize (Hb Hnone). subst b.
  assert (Hw1 : w1 = snd (inject w)) by reflexivity. rewrite Hinj in Hw1. simpl in Hw1.
  clearbody w1.
  assert (Hcl : closureOf w1 c = mkClosure (Some (S bar)) (Some bar) (Some (S (S bar))) false).
  { rewrite Hw1. unfold closureOf, c. simpl.
    rewrite lookup_app_r by lia. by rewrite Nat.sub_diag. }
  assert (Hbar : ui w1 !! bar = Some (mkUi CaptureBar true "" "" [c])).
  { rewrite Hw1. simpl. rewrite list_lookup_alter_eq.
    rewrite lookup_app_r by (unfold bar; lia). unfold bar. by rewrite Nat.sub_diag. }
  assert (Hdel : deliver (CancelClick bar) w1 = snd (deactivate c w1)).
  { unfold deliver. by rewrite Hbar. }
  assert (Htd : tornDown c (deliver (CancelClick bar) w1)).
  { rewrite Hdel. apply deactivate_tornDown. }
  split; [by rewrite Hcl|]. split; [by rewrite Hbar|]. split; [exact Hdel|].
  split. { rewrite Hdel, (inject_active w1 c); [done| |]; by rewrite Hw1. }
  split; [|exact Htd].
  unfold phase. by destruct Htd as (_ & _ & ->).
Qed.

Lemma cancel_button_tears_down_witness :
  let w := Demo.world Demo.page in
  deliver (CancelClick 0) (snd (inject w)) = snd (inject (snd (inject w)))
  /\ tornDown 0 (deliver (CancelClick 0) (snd (inject w))).
Proof.
  intros w.
  destruct (cancel_button_tears_down w eq_refl (Forall_nil_2 _))
    as (_ & _ & _ & H1 & _ & H2).
  split; [exact H1 | exact H2].
Defined.

(** X18.  The teardown of one session reaches only that session: the
    variables and listeners of every other session stay as they are,
    and so does every injected element the session does not refer to.
    The global flag is cleared all the same, also when another session
    is still listening. *)
Theorem deactivate_leaves_other_sessions (c c' : nat) (w : World) :
  c' ≠ c ->
  let w' := snd (deactivate c w) in
  closureOf w' c' = closureOf w c'
  /\ (c' ∈ listeners w' <-> c' ∈ listeners w)
  /\ (forall i, Some i ≠ barEl (closureOf w c) ->
                Some i ≠ guideLineEl (closureOf w c) ->
                Some i ≠ progressEl (closureOf w c) ->
                ui w' !! i = ui w !! i)
  /\ hvppyCaptureActive w' = false.
Proof.
  intros Hne w'. unfold w'. rewrite deactivate_result. simpl.
  split. { unfold closureOf. simpl. by rewrite list_lookup_insert_ne. }
  split. { rewrite list_elem_of_filter. tauto. }
  split; [|done].
  intros i Hb Hg Hp.
  assert (Hdetach : forall h u, Some i ≠ h -> detach h u !! i = u !! i).
  { intros [j|] u Hj; unfold detach; [|done].
    apply list_lookup_alter_ne. congruence. }
  by rewrite !Hdetach.
Qed.

Lemma deactivate_leaves_other_sessions_witness :
  let w := snd (inject (snd (setCapturing 0 Demo.awaiting))) in
  let w2 := snd (inject w) in
  1%nat ∈ listeners (snd (deactivate 0 w2))
  /\ hvppyCaptureActive (snd (deactivate 0 w2)) = false.
Proof.
  intros w w2.
  destruct (deactivate_leaves_other_sessions 0 1 w2 (fun H => Nat.neq_succ_0 0 H))
    as (_ & Hls & _ & Hflag).
  split; [|exact Hflag].
  apply Hls.
  assert (E : listeners w2 = [1%nat]) by (vm_compute; reflexivity).
  rewrite E. left.
Defined.

(** ** The page across a run *)

Lemma keepsPage_ret {A} (a : A) : keepsPage (ret a).
Proof. intros w. by exists a, w. Qed.

Lemma keepsPage_get {A} (f : World -> A) : keepsPage (get f).
Proof. intros w. by exists (f w), w. Qed.

Lemma keepsPage_modify (f : World -> World) :
  (forall w, page (f w) = page w) -> keepsPage (modify f).
Proof. intros Hf w. exists tt, (f w). split; [done | apply Hf]. Qed.

Lemma keepsPage_bind {A B} (m : M A) (k : A -> M B) :
  keepsPage m -> (forall a, keepsPage (k a)) -> keepsPage (bind m k).
Proof.
  intros Hm Hk w. destruct (Hm w) as (a & w1 & Em & Hs1).
  destruct (Hk a w1) as (b & w2 & Ek & Hs2).
  exists b, w2. unfold bind. rewrite Em. split; [done | congruence].
Qed.

Lemma keepsPage_whenSome (h : option nat) (body : nat -> M unit) :
  (forall i, h = Some i -> keepsPage (body i)) -> keepsPage (whenSome h body).
Proof. destruct h as [i|]; simpl; [auto | intros _; apply keepsPage_ret]. Qed.

Lemma keepsPage_remove (i : nat) : keepsPage (remove (Some i)).
Proof. by apply keepsPage_modify. Qed.

Ltac keepsPage_step :=
  first
    [ apply keepsPage_bind; [| intros ?]
    | apply keepsPage_ret
    | apply keepsPage_get
    | apply keepsPage_modify; intros ?; reflexivity
    | apply keepsPage_whenSome; intros ? ?; subst
    | apply keepsPage_remove ].

Ltac keepsPage_auto := repeat keepsPage_step.

Lemma keepsPage_deactivate (c : nat) : keepsPage (deactivate c).
Proof. unfold deactivate, setClosure. keepsPage_auto. Qed.

Lemma keepsPage_activate (c : nat) : keepsPage (activate c).
Proof. unfold activate, setClosure. keepsPage_auto. Qed.

Lemma keepsPage_inject : keepsPage inject.
Proof.
  unfold inject. apply keepsPage_bind; [apply keepsPage_get|].
  intros [|]; keepsPage_auto; first [apply keepsPage_deactivate | apply keepsPage_activate].
Qed.

Lemma page_runHandlers (cs : list nat) (w : World) : page (runHandlers cs w) = page w.
Proof.
  revert w. induction cs as [|c cs IH]; intros w; simpl; [done|].
  rewrite IH. destruct (keepsPage_deactivate c w) as (a & w' & E & Hs). by rewrite E.
Qed.

Lemma page_deliver (a : Arrival) (w : World) : page (deliver a w) = page w.
Proof.
  destruct a as [|b]; simpl.
  - destruct (keepsPage_inject w) as (a & w' & E & Hs). by rewrite E.
  - destruct (ui w !! b) as [u|]; [|done].
    destruct (attached u); [apply page_runHandlers | done].
Qed.

Lemma page_deliver_all (arrived : list Arrival) (w : World) :
  page (foldl (fun w' a => deliver a w') w arrived) = page w.
Proof.
  revert w. induction arrived as [|a arrived IH]; intros w; simpl; [done|].
  by rewrite IH, page_deliver.
Qed.

Section PageAcrossRuns.

Variable host : Host.

Lemma keepsPage_await : keepsPage (await host).
Proof.
  intros w. eexists tt, _. split; [reflexivity|]. by rewrite page_deliver_all.
Qed.

Lemma keepsPage_showProgress (c : nat) (text : string) : keepsPage (showProgress c text).
Proof. unfold showProgress, setTextContent, setDisplay. keepsPage_auto. Qed.

Lemma keepsPage_setProgressDisplay (c : nat) (v : string) :
  keepsPage (setProgressDisplay c v).
Proof. unfold setProgressDisplay, setDisplay. keepsPage_auto. Qed.

Lemma keepsPage_hideInteractiveUI (c : nat) : keepsPage (hideInteractiveUI c).
Proof. unfold hideInteractiveUI, setDisplay. keepsPage_auto. Qed.

Lemma keepsPage_emit (e : Effect) : keepsPage (emit e).
Proof. unfold emit. keepsPage_auto. Qed.

Lemma keepsPage_setScroll (ctx : ScrollContext) (y : Q) : keepsPage (setScroll host ctx y).
Proof. unfold setScroll, emit. keepsPage_auto. Qed.

Lemma keepsPage_sendMessage (msg : Message) : keepsPage (sendMessage host msg).
Proof.
  unfold sendMessage. keepsPage_auto;
    first [apply keepsPage_emit | apply keepsPage_await].
Qed.

Lemma keepsPage_setCapturing (c : nat) : keepsPage (setCapturing c).
Proof. unfold setCapturing, setClosure. keepsPage_auto. Qed.

Lemma spec_keepsPage {A} (p : Page) (m : M A) (E : string -> World -> Prop) :
  keepsPage m -> spec (pageIs p) m (fun _ => pageIs p) E.
Proof.
  intros Hm w Hp. destruct (Hm w) as (a & w' & -> & Hpage).
  unfold pageIs in *. congruence.
Qed.

Ltac page_then lem :=
  eapply spec_bind; [apply spec_keepsPage; apply lem | intros ?].

Lemma keepsPage_captureFailed (c : nat) (message : string) :
  keepsPage (captureFailed host c message).
Proof.
  unfold captureFailed. keepsPage_auto;
    first [apply keepsPage_emit | apply keepsPage_showProgress | apply keepsPage_await].
Qed.

(** The capture loop on a page on which restoration undoes suppression:
    every step leaves the page as it found it, also the step that
    throws. *)
Lemma spec_captureLoop_page (c : nat) (ctx : ScrollContext) (p0 : Page) :
  restoreHiddenElements (hideOverlayElements ctx p0).1 (hideOverlayElements ctx p0).2
  = nodes p0 ->
  forall (ps : list Q) (i n : nat) (caps : list Capture),
    spec (pageIs p0) (captureLoop host c ctx ps i n caps)
         (fun _ => pageIs p0) (fun _ => pageIs p0).
Proof.
  intros Hrt. induction ps as [|p ps IH]; intros i n caps.
  { intros w Hp. exact Hp. }
  cbn [captureLoop].
  page_then keepsPage_showProgress.
  page_then keepsPage_setScroll.
  page_then keepsPage_await.
  page_then keepsPage_await.
  page_then (keepsPage_get (fun w => scrollOffset w (element ctx))).
  page_then keepsPage_setProgressDisplay.
  eapply (spec_bind _ _ _
            (fun hidden w => hidden = (hideOverlayElements ctx p0).1
                             /\ pageIs (withNodes (hideOverlayElements ctx p0).2 p0) w)).
  { intros w Hp. unfold hideOverlay, pageIs in *. rewrite Hp.
    by destruct (hideOverlayElements ctx p0). }
  intros hidden. apply spec_pure. intros ->.
  page_then keepsPage_await.
  page_then keepsPage_await.
  page_then keepsPage_sendMessage.
  eapply (spec_bind _ _ _ (fun _ => pageIs p0)).
  { intros w Hp. unfold restoreHidden, modify, pageIs in *. simpl.
    rewrite Hp. simpl. rewrite Hrt. by destruct p0. }
  intros ?.
  page_then keepsPage_setProgressDisplay.
  match goal with
  | |- spec _ (match ?r with _ => _ end) _ _ => destruct r as [|url0 error0]
  end; [by intros w Hp|].
  destruct (Js.truthy (default "" error0)); [by intros w Hp | apply IH].
Qed.

Lemma spec_performCapture_page (arrayLimit c : nat) (ctx : ScrollContext) (T W d : Q)
    (pageTitle : string) (p0 : Page) :
  restoreHiddenElements (hideOverlayElements ctx p0).1 (hideOverlayElements ctx p0).2
  = nodes p0 ->
  spec (pageIs p0) (performCapture host arrayLimit c ctx T W d pageTitle)
       (fun _ => pageIs p0) (fun _ => pageIs p0).
Proof.
  intros Hrt. unfold performCapture.
  destruct (Js.leb T 0) eqn:HT.
  { page_then keepsPage_showProgress. apply spec_keepsPage, keepsPage_await. }
  destruct (scrollPositions arrayLimit T (scrollStep ctx)) as [ps|]; [|by intros w Hp].
  eapply spec_bind; [by apply spec_captureLoop_page | intros caps].
  page_then keepsPage_showProgress.
  page_then keepsPage_emit.
  destruct (stitchCaptures (decodeImage host) (canvasFits host) caps T W d ctx) as [url|m].
  - eapply spec_bind; [apply (spec_keepsPage _ _ _ (keepsPage_ret url)) | intros stitched].
    page_then keepsPage_await.
    page_then keepsPage_showProgress.
    page_then keepsPage_sendMessage.
    page_then keepsPage_showProgress.
    apply spec_keepsPage, keepsPage_await.
  - intros w Hp. exact Hp.
Qed.


End PageAcrossRuns.

